(** * Pixie: a tracking-pixel worker (src/index.ts)

    A shallow embedding of the worker's event recording and reporting
    pipeline, and the properties of its specification checked against it.

    Conventions of the embedding.
    - A JavaScript string is the list of its UTF-16 code units ([list N]);
      [js "..."] turns an ASCII literal into such a list.
    - The key-value store is a finite map from keys to the values whose JSON
      text the store holds; [stored_text] gives that text back. A handler
      takes the store and returns the store it leaves: a write is seen by
      the next read, as in the sequential case of the specification.
    - An instant is the number of milliseconds since the epoch; the ISO-8601
      text the worker keeps in its records is [toISOString] of the instant.
    - A JavaScript number is an integer here ([openCount], the numbers of a
      creation payload), written with all its digits: a number that is not
      an integer, or one that JavaScript writes with an exponent, is not
      represented.
    - What the platform decides (random bytes, the clock) is an explicit
      input of each handler, see [Platform]; what it computes (SHA-256,
      UTF-8, [JSON.stringify], [toISOString]) is defined below and checked
      on examples. *)

From Stdlib Require Import Strings.String Strings.Ascii NArith ZArith Lia.
From Stdlib Require Import Numbers.DecimalString Numbers.HexadecimalString.
From Stdlib Require Import Numbers.DecimalN Numbers.HexadecimalN.
From stdpp Require Import gmap list numbers sorting.

Local Open Scope N_scope.
Set Warnings "-register-all".

(** ** JavaScript strings *)

Abbreviation jsstring := (list N).

Definition cu (c : ascii) : N := N_of_ascii c.
Arguments cu c%_char.

Definition js (s : string) : jsstring := map N_of_ascii (list_ascii_of_string s).
Arguments js s%_string.

(** [s.startsWith(p)] *)
Fixpoint startsWith (s p : jsstring) {struct p} : bool :=
  match p, s with
  | [], _ => true
  | _ :: _, [] => false
  | a :: p', b :: s' => (a =? b) && startsWith s' p'
  end.

(** [s.includes(p)] *)
Fixpoint includes (s p : jsstring) : bool :=
  startsWith s p ||
  match s with
  | [] => false
  | _ :: s' => includes s' p
  end.

(** [s.endsWith(p)] *)
Definition endsWith (s p : jsstring) : bool :=
  startsWith (rev s) (rev p).

(** [s.split(sep)] for a separator of one code unit, the only kind the
    worker uses: never the empty list, [""] splits into [[""]]. *)
Fixpoint split (sep : N) (s : jsstring) : list jsstring :=
  match s with
  | [] => [[]]
  | c :: s' =>
      if c =? sep then [] :: split sep s'
      else match split sep s' with
           | [] => [[c]]
           | seg :: segs => (c :: seg) :: segs
           end
  end.

(** [segments.join(sep)] *)
Fixpoint join (sep : jsstring) (segments : list jsstring) : jsstring :=
  match segments with
  | [] => []
  | [seg] => seg
  | seg :: rest => seg ++ sep ++ join sep rest
  end.

(** [Boolean(s)] on a string: the empty string is the only falsy one. *)
Definition truthy (s : jsstring) : bool :=
  match s with
  | [] => false
  | _ :: _ => true
  end.

(** [!value] on [string | null | undefined] *)
Definition falsy (value : option jsstring) : bool :=
  match value with
  | Some s => negb (truthy s)
  | None => true
  end.

(** [s.slice(0, stop)]: a negative [stop] counts from the end. *)
Definition slice0 (s : jsstring) (stop : Z) : jsstring :=
  let len := Z.of_nat (length s) in
  let k := if (stop <? 0)%Z then Z.max (len + stop) 0 else Z.min stop len in
  take (Z.to_nat k) s.

(** [s.padStart(n, fill)] with a one code unit filler *)
Definition padStart (s : jsstring) (n : nat) (fill : N) : jsstring :=
  replicate (n - length s) fill ++ s.

(** [s.replace(/c/g, by)] for a one code unit pattern *)
Definition replaceAll (c : N) (by_ : jsstring) (s : jsstring) : jsstring :=
  flat_map (fun x => if x =? c then by_ else [x]) s.

(** ASCII lower case of a code unit, the case folding of [/.../i] on the
    letters of the pattern below. *)
Definition lowerAscii (c : N) : N :=
  if (65 <=? c) && (c <=? 90) then c + 32 else c.

(** [rawId.replace(/\.gif$/i, "")] *)
Definition stripGif (rawId : jsstring) : jsstring :=
  if endsWith (map lowerAscii rawId) (js ".gif")
  then take (length rawId - 4) rawId
  else rawId.

(** ** Numbers as text *)

(** [n.toString()] of a non-negative integer *)
Definition decimal (n : N) : jsstring :=
  js (DecimalString.NilZero.string_of_uint (N.to_uint n)).

(** [z.toString()] of an integer: all its digits. JavaScript writes a
    number from 10^21 on with an exponent, which this function does not do:
    it gives the text of a number below that bound. *)
Definition Number_toString (z : Z) : jsstring :=
  if (z <? 0)%Z then cu "-" :: decimal (Z.to_N (- z)) else decimal (Z.to_N z).

(** [n.toString(16)] of a non-negative integer *)
Definition hexadecimal (n : N) : jsstring :=
  js (HexadecimalString.NilZero.string_of_uint (N.to_hex_uint n)).

(** [b.toString(16).padStart(2, "0")] *)
Definition hexByte (b : N) : jsstring :=
  padStart (hexadecimal b) 2 (cu "0").

(** ** Anonymization engine *)

Definition zeroGroups (segments : list jsstring) : list jsstring :=
  let n := length segments in
  foldl (fun segs i => <[i := js "0000"]> segs) segments
        (seq (n - 4) (n - (n - 4)))%nat.

Definition anonymizeIp (ip : option jsstring) : option jsstring :=
  match ip with
  | None => None
  | Some ip =>
      if negb (truthy ip) then None
      else
        let dotted := split (cu ".") ip in
        if includes ip (js ".") && (length dotted =? 4)%nat
        then Some (join (js ".") (<[3%nat := js "0"]> dotted))
        else if includes ip (js ":")
        then Some (join (js ":") (zeroGroups (split (cu ":") ip)))
        else None
  end.

(** The marker appended to a cut string: U+2026. *)
Definition ellipsis : N := 8230.

Definition truncate (value : option jsstring) (max : Z) : option jsstring :=
  match value with
  | None => None
  | Some v =>
      if negb (truthy v) then None
      else if (Z.of_nat (length v) >? max)%Z
      then Some (slice0 v (max - 1) ++ [ellipsis])
      else Some v
  end.

(** [IncomingRequestCfProperties], the three fields the worker reads, and
    the [geo] field of an event. *)
Record Geo := mkGeo {
  country : option jsstring;
  city : option jsstring;
  region : option jsstring;
}.

Definition sanitizeGeo (cf : option Geo) : option Geo :=
  match cf with
  | None => None
  | Some cf =>
      if falsy (country cf) && falsy (city cf) && falsy (region cf) then None
      else Some {| country := country cf; city := city cf; region := region cf |}
  end.

(** ** Platform functions the worker calls *)

(** [new TextEncoder().encode(s)]: the UTF-8 bytes of a string; a surrogate
    that is not part of a pair is encoded as U+FFFD. *)
Definition isHighSurrogate (c : N) : bool := (0xD800 <=? c) && (c <? 0xDC00).
Definition isLowSurrogate (c : N) : bool := (0xDC00 <=? c) && (c <? 0xE000).

Definition utf8_3 (c : N) : list N :=
  [0xE0 + c / 4096; 0x80 + (c / 64) mod 64; 0x80 + c mod 64].

Definition utf8_4 (cp : N) : list N :=
  [0xF0 + cp / 262144; 0x80 + (cp / 4096) mod 64; 0x80 + (cp / 64) mod 64; 0x80 + cp mod 64].

Fixpoint TextEncoder_encode (s : jsstring) : list N :=
  match s with
  | [] => []
  | c :: s' =>
      if c <? 0x80 then c :: TextEncoder_encode s'
      else if c <? 0x800 then [0xC0 + c / 64; 0x80 + c mod 64] ++ TextEncoder_encode s'
      else if isHighSurrogate c then
        match s' with
        | d :: s'' =>
            if isLowSurrogate d
            then utf8_4 (0x10000 + (c - 0xD800) * 1024 + (d - 0xDC00)) ++ TextEncoder_encode s''
            else utf8_3 0xFFFD ++ TextEncoder_encode s'
        | [] => utf8_3 0xFFFD
        end
      else if isLowSurrogate c then utf8_3 0xFFFD ++ TextEncoder_encode s'
      else utf8_3 c ++ TextEncoder_encode s'
  end.

(** [crypto.subtle.digest("SHA-256", data)], FIPS 180-4, on 32-bit words
    kept in [Z] with the wrap-around written out. *)
Module SHA256.
Local Open Scope Z_scope.

Definition w32 (x : Z) : Z := x mod 4294967296.
Definition add32 (x y : Z) : Z := w32 (x + y).
Definition rotr (n x : Z) : Z := Z.lor (Z.shiftr x n) (w32 (Z.shiftl x (32 - n))).
Definition shr (n x : Z) : Z := Z.shiftr x n.
Definition not32 (x : Z) : Z := Z.lxor x 0xFFFFFFFF.

Definition Ch (x y z : Z) : Z := Z.lxor (Z.land x y) (Z.land (not32 x) z).
Definition Maj (x y z : Z) : Z :=
  Z.lxor (Z.lxor (Z.land x y) (Z.land x z)) (Z.land y z).
Definition bigSigma0 (x : Z) : Z := Z.lxor (Z.lxor (rotr 2 x) (rotr 13 x)) (rotr 22 x).
Definition bigSigma1 (x : Z) : Z := Z.lxor (Z.lxor (rotr 6 x) (rotr 11 x)) (rotr 25 x).
Definition smallSigma0 (x : Z) : Z := Z.lxor (Z.lxor (rotr 7 x) (rotr 18 x)) (shr 3 x).
Definition smallSigma1 (x : Z) : Z := Z.lxor (Z.lxor (rotr 17 x) (rotr 19 x)) (shr 10 x).

(** The constants are the first 32 bits of the fractional parts of the
    cube roots of the first 64 primes, and the initial hash value those of
    the square roots of the first 8. *)
Definition isPrime (n : Z) : bool :=
  forallb (fun d => negb (n mod d =? 0)) (map Z.of_nat (seq 2 (Z.to_nat n - 2))).

Definition primes : list Z := filter (fun n => isPrime n) (map Z.of_nat (seq 2 310)).

Definition cubeRoot (n : Z) : Z :=
  foldl (fun r b => if (r + 2 ^ b) ^ 3 <=? n then r + 2 ^ b else r) 0
        (map Z.of_nat (rev (seq 0 36))).

Definition K : list Z := map (fun p => w32 (cubeRoot (p * 2 ^ 96))) primes.

Definition H0 : list Z := map (fun p => w32 (Z.sqrt (p * 2 ^ 64))) (take 8 primes).

(** Big-endian bytes of a word, and back. *)
Definition bytesOf (width : nat) (x : Z) : list Z :=
  map (fun i => (x / 256 ^ Z.of_nat i) mod 256) (rev (seq 0 width)).
Definition wordOf (bytes : list Z) : Z :=
  foldl (fun acc b => acc * 256 + b) 0 bytes.

(** The message followed by the bit 1, zeros, and its length in bits on
    eight bytes, a multiple of 64 bytes in all. *)
Definition pad (msg : list Z) : list Z :=
  let len := Z.of_nat (length msg) in
  let zeros := Z.to_nat ((55 - len) mod 64) in
  msg ++ [0x80] ++ replicate zeros 0 ++ bytesOf 8 (8 * len).

Fixpoint chunks (fuel size : nat) (l : list Z) : list (list Z) :=
  match fuel, l with
  | O, _ | _, [] => []
  | S fuel', _ => take size l :: chunks fuel' size (drop size l)
  end.

(** The message schedule, most recent word first. *)
Fixpoint schedule (n : nat) (w : list Z) : list Z :=
  match n with
  | O => w
  | S n' =>
      let nth_ i := nth i w 0 in
      schedule n'
        (add32 (add32 (smallSigma1 (nth_ 1%nat)) (nth_ 6%nat))
               (add32 (smallSigma0 (nth_ 14%nat)) (nth_ 15%nat)) :: w)
  end.

Definition round (st : list Z) (kw : Z * Z) : list Z :=
  match st with
  | [a; b; c; d; e; f; g; h] =>
      let t1 := add32 (add32 (add32 h (bigSigma1 e)) (add32 (Ch e f g) (fst kw))) (snd kw) in
      let t2 := add32 (bigSigma0 a) (Maj a b c) in
      [add32 t1 t2; a; b; c; add32 d t1; e; f; g]
  | _ => st
  end.

Definition compress (h : list Z) (block : list Z) : list Z :=
  let w := rev (schedule 48 (rev (map wordOf (chunks 16 4 block)))) in
  zip_with add32 h (foldl round h (zip K w)).

Definition digest (data : list N) : list N :=
  let msg := pad (map Z.of_N data) in
  let h := foldl compress H0 (chunks (length msg) 64 msg) in
  map Z.to_N (flat_map (bytesOf 4) h).
End SHA256.

(** [date.toISOString()] of the instant [t] milliseconds after the epoch:
    the proleptic Gregorian date from the day number. *)
Definition civilFromDays (days : Z) : Z * Z * Z :=
  let z := (days + 719468)%Z in
  let era := (z / 146097)%Z in
  let doe := (z - era * 146097)%Z in
  let yoe := ((doe - doe / 1460 + doe / 36524 - doe / 146096) / 365)%Z in
  let doy := (doe - (365 * yoe + yoe / 4 - yoe / 100))%Z in
  let mp := ((5 * doy + 2) / 153)%Z in
  let d := (doy - (153 * mp + 2) / 5 + 1)%Z in
  let m := if (mp <? 10)%Z then (mp + 3)%Z else (mp - 9)%Z in
  let y := (yoe + era * 400 + (if (m <=? 2)%Z then 1 else 0))%Z in
  (y, m, d).

Definition padNumber (width : nat) (z : Z) : jsstring :=
  padStart (decimal (Z.to_N z)) width (cu "0").

Definition toISOString (t : N) : jsstring :=
  let ms := Z.of_N t in
  let '(y, m, d) := civilFromDays (ms / 86400000) in
  let r := (ms mod 86400000)%Z in
  (if (y <=? 9999)%Z then padNumber 4 y else cu "+" :: padNumber 6 y)
  ++ js "-" ++ padNumber 2 m ++ js "-" ++ padNumber 2 d
  ++ js "T" ++ padNumber 2 (r / 3600000) ++ js ":" ++ padNumber 2 ((r / 60000) mod 60)
  ++ js ":" ++ padNumber 2 ((r / 1000) mod 60) ++ js "." ++ padNumber 3 (r mod 1000)
  ++ js "Z".

(** ** JSON *)

Inductive json :=
  | JNull
  | JBool (b : bool)
  | JNumber (z : Z)
  | JString (s : jsstring)
  | JArray (items : list json)
  | JObject (fields : list (jsstring * json)).

Definition dquote : N := 34.
Definition backslash : N := 92.

Definition unicodeEscape (c : N) : jsstring :=
  js "\u" ++ padStart (hexadecimal c) 4 (cu "0").

(** The characters of QuoteJSONString between the quotes. *)
Fixpoint quoteChars (s : jsstring) : jsstring :=
  match s with
  | [] => []
  | c :: s' =>
      if c =? 8 then js "\b" ++ quoteChars s'
      else if c =? 9 then js "\t" ++ quoteChars s'
      else if c =? 10 then js "\n" ++ quoteChars s'
      else if c =? 12 then js "\f" ++ quoteChars s'
      else if c =? 13 then js "\r" ++ quoteChars s'
      else if c =? dquote then [backslash; dquote] ++ quoteChars s'
      else if c =? backslash then [backslash; backslash] ++ quoteChars s'
      else if c <? 32 then unicodeEscape c ++ quoteChars s'
      else if isHighSurrogate c then
        match s' with
        | d :: s'' =>
            if isLowSurrogate d then c :: d :: quoteChars s''
            else unicodeEscape c ++ quoteChars s'
        | [] => unicodeEscape c
        end
      else if isLowSurrogate c then unicodeEscape c ++ quoteChars s'
      else c :: quoteChars s'
  end.

Definition QuoteJSONString (s : jsstring) : jsstring :=
  [dquote] ++ quoteChars s ++ [dquote].

Definition LF : N := 10.

(** The brackets around the serialized members of an array or object. *)
Definition wrapJSON (opening closing : N) (gap indent : jsstring) (members : list jsstring) : jsstring :=
  match members with
  | [] => [opening; closing]
  | _ =>
      if truthy gap
      then [opening; LF] ++ (indent ++ gap)
           ++ join ([cu ","; LF] ++ (indent ++ gap)) members
           ++ [LF] ++ indent ++ [closing]
      else [opening] ++ join (js ",") members ++ [closing]
  end.

Fixpoint serializeJSON (gap indent : jsstring) (v : json) : jsstring :=
  match v with
  | JNull => js "null"
  | JBool true => js "true"
  | JBool false => js "false"
  | JNumber z => Number_toString z
  | JString s => QuoteJSONString s
  | JArray items =>
      wrapJSON (cu "[") (cu "]") gap indent
        (map (serializeJSON gap (indent ++ gap)) items)
  | JObject fields =>
      wrapJSON (cu "{") (cu "}") gap indent
        (map (fun kv => QuoteJSONString (fst kv) ++ js ":"
                        ++ (if truthy gap then js " " else [])
                        ++ serializeJSON gap (indent ++ gap) (snd kv)) fields)
  end.

(** [JSON.stringify(v)] and [JSON.stringify(v, null, space)] *)
Definition JSON_stringify (space : nat) (v : json) : jsstring :=
  serializeJSON (replicate (Nat.min space 10) (cu " ")) [] v.

(** ** Data model *)

(** A value of [Record<string, string | number | boolean>]; numbers are the
    integers. *)
Inductive MetaValue :=
  | MString (s : jsstring)
  | MNumber (z : Z)
  | MBool (b : bool).

(** [PixelInitPayload]; [None] is an absent field. *)
Record PixelInitPayload := mkPayload {
  payload_label : option jsstring;
  payload_metadata : option (list (jsstring * MetaValue));
}.

(** [PixelMeta]; [meta_label] is [None] for [null], [meta_metadata] and
    [meta_lastOpenedAt] are [None] for [undefined]. *)
Record PixelMeta := mkMeta {
  meta_id : jsstring;
  meta_createdAt : N;
  meta_label : option jsstring;
  meta_metadata : option (list (jsstring * MetaValue));
  meta_tokenHash : jsstring;
  meta_openCount : N;
  meta_lastOpenedAt : option N;
}.

(** [PixelEvent]; [None] is [null]. *)
Record PixelEvent := mkEvent {
  ev_timestamp : N;
  ev_anonymizedIp : option jsstring;
  ev_userAgent : option jsstring;
  ev_referer : option jsstring;
  ev_language : option jsstring;
  ev_geo : option Geo;
}.

(** What [JSON.stringify] sees of these objects: a property whose value is
    [undefined] is left out, [null] is kept. *)
Definition optional {A} (key : jsstring) (f : A -> json) (v : option A) : list (jsstring * json) :=
  match v with
  | Some x => [(key, f x)]
  | None => []
  end.

Definition nullable (v : option jsstring) : json :=
  match v with
  | Some s => JString s
  | None => JNull
  end.

Definition json_of_value (v : MetaValue) : json :=
  match v with
  | MString s => JString s
  | MNumber z => JNumber z
  | MBool b => JBool b
  end.

Definition json_of_metadata (m : list (jsstring * MetaValue)) : json :=
  JObject (map (fun kv => (fst kv, json_of_value (snd kv))) m).

Definition json_of_instant (t : N) : json := JString (toISOString t).

Definition json_of_meta (m : PixelMeta) : json :=
  JObject ([(js "id", JString (meta_id m));
            (js "createdAt", json_of_instant (meta_createdAt m));
            (js "label", nullable (meta_label m))]
           ++ optional (js "metadata") json_of_metadata (meta_metadata m)
           ++ [(js "tokenHash", JString (meta_tokenHash m));
               (js "openCount", JNumber (Z.of_N (meta_openCount m)))]
           ++ optional (js "lastOpenedAt") json_of_instant (meta_lastOpenedAt m)).

Definition json_of_geo (g : Geo) : json :=
  JObject (optional (js "country") JString (country g)
           ++ optional (js "city") JString (city g)
           ++ optional (js "region") JString (region g)).

Definition json_of_event (e : PixelEvent) : json :=
  JObject [(js "timestamp", json_of_instant (ev_timestamp e));
           (js "anonymizedIp", nullable (ev_anonymizedIp e));
           (js "userAgent", nullable (ev_userAgent e));
           (js "referer", nullable (ev_referer e));
           (js "language", nullable (ev_language e));
           (js "geo", match ev_geo e with Some g => json_of_geo g | None => JNull end)].

(** ** The key-value store *)

(** A value of the store: the object whose JSON text is kept under the
    key. *)
Inductive Stored :=
  | StoredMeta (m : PixelMeta)
  | StoredEvent (e : PixelEvent).

(** The text [put] is given for the value: [JSON.stringify(value)]. *)
Definition stored_text (v : Stored) : jsstring :=
  match v with
  | StoredMeta m => JSON_stringify 0 (json_of_meta m)
  | StoredEvent e => JSON_stringify 0 (json_of_event e)
  end.

(** [Env]: the store and the secret of the creation endpoint. *)
Record Env := mkEnv {
  PIXIE_STORE : gmap (list N) Stored;
  API_KEY : jsstring;
}.

(** [env.PIXIE_STORE.put(key, value)] *)
Definition put (env : Env) (key : jsstring) (value : Stored) : Env :=
  {| PIXIE_STORE := <[key := value]> (PIXIE_STORE env); API_KEY := API_KEY env |}.

(** [env.PIXIE_STORE.list({ prefix, limit })]: the names of at most [limit]
    keys that start with [prefix], in the store's own order. *)
Definition list_keys (env : Env) (prefix : jsstring) (limit : nat) : list jsstring :=
  take limit (filter (fun name => startsWith name prefix) (map fst (map_to_list (PIXIE_STORE env)))).

(** The records kept under the keys that start with [prefix]. *)
Definition records_under (prefix : jsstring) (env : Env) : gmap (list N) Stored :=
  filter (fun kv => startsWith (fst kv) prefix) (PIXIE_STORE env).

(** ** Requests, responses and what the platform decides *)

(** What the worker reads of a [Request] and of its URL. *)
Record Request := mkRequest {
  method : jsstring;
  origin : jsstring;                              (* [url.origin] *)
  pathname : jsstring;                            (* [url.pathname] *)
  searchParams : list (jsstring * jsstring);      (* [url.searchParams] *)
  headers : list (jsstring * jsstring);           (* names in lower case *)
  cf : option Geo;                                (* [request.cf] *)
  body_json : option PixelInitPayload;            (* [request.json()], [None] when it throws *)
}.

(** [searchParams.get(name)]: the first value of that name. *)
Definition searchParams_get (request : Request) (name : jsstring) : option jsstring :=
  (fun found => snd (snd found)) <$> list_find (fun kv => fst kv = name) (searchParams request).

(** [headers.get(name)]: the values of that name, joined by a comma and a
    space. *)
Definition headers_get (request : Request) (name : jsstring) : option jsstring :=
  match filter (fun kv => fst kv = name) (headers request) with
  | [] => None
  | found => Some (join (js ", ") (map snd found))
  end.

(** A [Response]: the status (200 when none is given), the headers given
    to the constructor, the body. *)
Inductive Body :=
  | BodyNull
  | BodyText (text : jsstring)
  | BodyBytes (bytes : list N).

Record Response := mkResponse {
  status : N;
  response_headers : list (jsstring * jsstring);
  body : Body;
}.

(** The outcome of the calls a handler makes to the platform: the bytes
    [crypto.getRandomValues] writes, one after the other, the instant
    [new Date()] gives and the one [Date.now()] gives. *)
Record Platform := mkPlatform {
  random : nat -> N;
  newDate : N;
  Date_now : N;
}.

(** ** The worker *)

Definition API_KEY_HEADER : jsstring := js "x-api-key".

Definition TRANSPARENT_GIF : list N :=
  [71; 73; 70; 56; 57; 97; 1; 0; 1; 0; 128; 0; 0; 0; 0; 0; 255; 255; 255; 33;
   249; 4; 1; 0; 0; 0; 0; 44; 0; 0; 0; 0; 1; 0; 1; 0; 0; 2; 2; 68; 1; 0; 59].

Definition eventKeyPrefix (id : jsstring) : jsstring := js "events:" ++ id ++ js ":".

Definition metaKey (id : jsstring) : jsstring := js "meta:" ++ id.

(** [randomHex(bytes)] on the stream of random bytes: the text and the rest
    of the stream. A [Uint8Array] keeps what it is given modulo 256. *)
Definition randomHex (bytes : nat) (rng : nat -> N) : jsstring * (nat -> N) :=
  (flat_map (fun i => hexByte (rng i mod 256)) (seq 0 bytes),
   fun i => rng (bytes + i)%nat).

Definition sha256Hex (input : jsstring) : jsstring :=
  flat_map hexByte (SHA256.digest (TextEncoder_encode input)).

Definition corsHeaders (request : option Request) : list (jsstring * jsstring) :=
  let origin := request ≫= (fun r => headers_get r (js "origin")) in
  [(js "access-control-allow-origin", default (js "*") origin);
   (js "access-control-allow-methods", js "GET,HEAD,POST,OPTIONS");
   (js "access-control-allow-headers", API_KEY_HEADER ++ js ", content-type")].

Definition jsonResponse (data : json) (status : N) (request : option Request) : Response :=
  {| status := status;
     response_headers :=
       (js "content-type", js "application/json;charset=utf-8") :: corsHeaders request;
     body := BodyText (JSON_stringify 2 data) |}.

(** [try { return await request.json() } catch { return null }] *)
Definition safeJson (request : Request) : option PixelInitPayload :=
  match body_json request with
  | Some parsed => Some parsed
  | None => None
  end.

Definition validateApiKey (request : Request) (env : Env) : option Response :=
  if negb (truthy (API_KEY env))
  then Some {| status := 500; response_headers := [];
               body := BodyText (js "Server misconfigured: missing API_KEY") |}
  else
    let providedKey := headers_get request API_KEY_HEADER in
    if falsy providedKey || negb (bool_decide (providedKey = Some (API_KEY env)))
    then Some {| status := 401; response_headers := []; body := BodyText (js "Unauthorized") |}
    else None.

(** The cast [stored as PixelMeta] is not checked; the worker writes
    nothing but a [PixelMeta] under a [meta:] key, and a value of another
    shape is read as absent here. *)
Definition loadMeta (env : Env) (id : jsstring) : option PixelMeta :=
  match PIXIE_STORE env !! metaKey id with
  | Some (StoredMeta m) => Some m
  | _ => None
  end.

(** The object [sanitizeMeta] returns: the rest of the properties once
    [tokenHash] is taken out. *)
Record SafeMeta := mkSafe {
  safe_id : jsstring;
  safe_createdAt : N;
  safe_label : option jsstring;
  safe_metadata : option (list (jsstring * MetaValue));
  safe_openCount : N;
  safe_lastOpenedAt : option N;
}.

Definition sanitizeMeta (meta : PixelMeta) : SafeMeta :=
  {| safe_id := meta_id meta;
     safe_createdAt := meta_createdAt meta;
     safe_label := meta_label meta;
     safe_metadata := meta_metadata meta;
     safe_openCount := meta_openCount meta;
     safe_lastOpenedAt := meta_lastOpenedAt meta |}.

Definition json_of_safe (m : SafeMeta) : json :=
  JObject ([(js "id", JString (safe_id m));
            (js "createdAt", json_of_instant (safe_createdAt m));
            (js "label", nullable (safe_label m))]
           ++ optional (js "metadata") json_of_metadata (safe_metadata m)
           ++ [(js "openCount", JNumber (Z.of_N (safe_openCount m)))]
           ++ optional (js "lastOpenedAt") json_of_instant (safe_lastOpenedAt m)).

(** [events.sort((a, b) => time(a) - time(b))]: a stable sort. *)
Fixpoint insertByTime (e : PixelEvent) (sorted : list PixelEvent) : list PixelEvent :=
  match sorted with
  | [] => [e]
  | x :: rest =>
      if ev_timestamp e <=? ev_timestamp x then e :: sorted
      else x :: insertByTime e rest
  end.

Definition sortByTime (events : list PixelEvent) : list PixelEvent :=
  foldr insertByTime [] events.

(** The store is read under the names of the listing; a name that holds no
    event gives [null] and is filtered out. *)
Definition loadEvents (env : Env) (id : jsstring) : list PixelEvent :=
  let prefix := eventKeyPrefix id in
  let keys := list_keys env prefix 1000 in
  let events :=
    map (fun name => match PIXIE_STORE env !! name with
                     | Some (StoredEvent e) => Some e
                     | _ => None
                     end) keys in
  sortByTime (omap (fun value => value) events).

Definition escapeCsv (value : option jsstring) : jsstring :=
  match value with
  | None => []
  | Some value =>
      if negb (truthy value) then []
      else
        let escaped := replaceAll dquote [dquote; dquote] value in
        if includes escaped (js ",") || includes escaped [LF]
        then [dquote] ++ escaped ++ [dquote]
        else escaped
  end.

Definition csvHeaders : list jsstring :=
  [js "timestamp"; js "anonymizedIp"; js "userAgent"; js "referer"; js "language";
   js "country"; js "region"; js "city"].

(** The [row] array of [buildCsv]. *)
Definition csvRow (event : PixelEvent) : list jsstring :=
  [toISOString (ev_timestamp event);
   default [] (ev_anonymizedIp event);
   escapeCsv (ev_userAgent event);
   escapeCsv (ev_referer event);
   escapeCsv (ev_language event);
   default [] (ev_geo event ≫= country);
   default [] (ev_geo event ≫= region);
   default [] (ev_geo event ≫= city)].

Definition buildCsv (meta : PixelMeta) (events : list PixelEvent) : jsstring :=
  join [LF] (join (js ",") csvHeaders :: map (fun event => join (js ",") (csvRow event)) events).

Definition buildEventRecord (p : Platform) (request : Request) : PixelEvent :=
  let now := newDate p in
  let ip := headers_get request (js "cf-connecting-ip") in
  let referer := headers_get request (js "referer") in
  let language := headers_get request (js "accept-language") in
  let userAgent := headers_get request (js "user-agent") in
  let geo := sanitizeGeo (cf request) in
  {| ev_timestamp := now;
     ev_anonymizedIp := anonymizeIp ip;
     ev_userAgent := truncate userAgent 256;
     ev_referer := truncate referer 256;
     ev_language := truncate language 32;
     ev_geo := geo |}.

(** The key of [storeEvent]: the prefix, [Date.now()], a dash and three
    random bytes. *)
Definition eventKey (p : Platform) (id : jsstring) : jsstring :=
  eventKeyPrefix id ++ decimal (Date_now p) ++ js "-" ++ fst (randomHex 3 (random p)).

Definition storeEvent (p : Platform) (env : Env) (id : jsstring) (event : PixelEvent) : Env :=
  let key := eventKey p id in
  put env key (StoredEvent event).

(** [{}] *)
Definition emptyPayload : PixelInitPayload :=
  {| payload_label := None; payload_metadata := None |}.

(** The handlers: the store they leave and their response. *)
Definition createPixel (p : Platform) (request : Request) (env : Env) : Env * Response :=
  let payload := default emptyPayload (safeJson request) in
  let '(id, rng) := randomHex 9 (random p) in
  let '(accessToken, _) := randomHex 16 rng in
  let tokenHash := sha256Hex accessToken in
  let createdAt := newDate p in
  let meta :=
    {| meta_id := id;
       meta_createdAt := createdAt;
       meta_label := payload_label payload;
       meta_metadata := payload_metadata payload;
       meta_tokenHash := tokenHash;
       meta_openCount := 0;
       meta_lastOpenedAt := None |} in
  let env' := put env (metaKey id) (StoredMeta meta) in
  let responseBody :=
    JObject [(js "id", JString id);
             (js "createdAt", json_of_instant createdAt);
             (js "pixelUrl", JString (origin request ++ js "/pixel/" ++ id ++ js ".gif"));
             (js "eventsUrl", JString (origin request ++ js "/api/pixels/" ++ id
                                       ++ js "?token=" ++ accessToken));
             (js "accessToken", JString accessToken)] in
  (env', jsonResponse responseBody 201 (Some request)).

(** [url.pathname.split("/").filter(Boolean)] *)
Definition pathSegments (request : Request) : list jsstring :=
  filter (fun segment => truthy segment) (split (cu "/") (pathname request)).

Definition getPixelReport (request : Request) (env : Env) : Response :=
  match pathSegments request !! 2%nat with
  | None => {| status := 400; response_headers := []; body := BodyText (js "Missing pixel id") |}
  | Some id =>
      match loadMeta env id with
      | None => {| status := 404; response_headers := []; body := BodyText (js "Pixel not found") |}
      | Some meta =>
          let providedToken := searchParams_get request (js "token") in
          if falsy providedToken
             || negb (bool_decide (sha256Hex (default [] providedToken) = meta_tokenHash meta))
          then {| status := 401; response_headers := []; body := BodyText (js "Unauthorized") |}
          else
            let format := searchParams_get request (js "format") in
            let events := loadEvents env id in
            if bool_decide (format = Some (js "csv"))
            then
              let csv := buildCsv meta events in
              {| status := 200;
                 response_headers :=
                   [(js "content-type", js "text/csv;charset=utf-8");
                    (js "content-disposition",
                     js "attachment; filename=" ++ [dquote] ++ id ++ js "-events.csv" ++ [dquote])]
                   ++ corsHeaders (Some request);
                 body := BodyText csv |}
            else
              jsonResponse
                (JObject [(js "meta", json_of_safe (sanitizeMeta meta));
                          (js "events", JArray (map json_of_event events))])
                200 (Some request)
      end
  end.

(** The pixel an open request names: the second path segment without its
    [.gif]. *)
Definition pixelId (request : Request) : jsstring :=
  let segments := pathSegments request in
  let rawId := default [] (segments !! 1%nat) in
  stripGif rawId.

(** The [headers] of [servePixel]. *)
Definition pixelHeaders : list (jsstring * jsstring) :=
  [(js "cache-control", js "no-store, must-revalidate");
   (js "content-type", js "image/gif");
   (js "content-length", decimal (N.of_nat (length TRANSPARENT_GIF)));
   (js "access-control-allow-origin", js "*")].

Definition servePixel (p : Platform) (request : Request) (env : Env) (isHead : bool)
  : Env * Response :=
  let id := pixelId request in
  let meta := loadMeta env id in
  let env' :=
    match meta with
    | Some meta =>
        let event := buildEventRecord p request in
        let env1 := storeEvent p env id event in
        let meta' :=
          {| meta_id := meta_id meta;
             meta_createdAt := meta_createdAt meta;
             meta_label := meta_label meta;
             meta_metadata := meta_metadata meta;
             meta_tokenHash := meta_tokenHash meta;
             meta_openCount := meta_openCount meta + 1;
             meta_lastOpenedAt := Some (ev_timestamp event) |} in
        put env1 (metaKey id) (StoredMeta meta')
    | None => env
    end in
  let headers := pixelHeaders in
  if isHead
  then (env', {| status := 200; response_headers := headers; body := BodyNull |})
  else (env', {| status := 200; response_headers := headers; body := BodyBytes TRANSPARENT_GIF |}).

Definition fetch (p : Platform) (request : Request) (env : Env) : Env * Response :=
  if bool_decide (method request = js "OPTIONS")
  then (env, {| status := 200; response_headers := corsHeaders (Some request); body := BodyNull |})
  else if bool_decide (method request = js "POST") && bool_decide (pathname request = js "/api/pixels")
  then match validateApiKey request env with
       | Some authError => (env, authError)
       | None => createPixel p request env
       end
  else if bool_decide (method request = js "GET") && startsWith (pathname request) (js "/api/pixels/")
  then (env, getPixelReport request env)
  else if (bool_decide (method request = js "GET") || bool_decide (method request = js "HEAD"))
          && startsWith (pathname request) (js "/pixel/")
  then servePixel p request env (bool_decide (method request = js "HEAD"))
  else (env, {| status := 404; response_headers := []; body := BodyText (js "Not Found") |}).

(** ** The words of the specification *)

(** [needle] occurs in [text]. *)
Definition occurs (needle text : jsstring) : Prop :=
  exists before after, text = before ++ needle ++ after.

(** The last four groups replaced by zeros, all of them when there are
    fewer. *)
Definition zeroLastFour (groups : list jsstring) : list jsstring :=
  take (length groups - 4) groups ++ replicate (Nat.min 4 (length groups)) (js "0000").

(** The standard rule to read a field of a CSV line back: the enclosing
    quotes are taken off and every doubled quote becomes one. *)
Fixpoint collapseQuotes (s : jsstring) : jsstring :=
  match s with
  | a :: ((b :: rest) as tail) =>
      if (a =? dquote) && (b =? dquote) then dquote :: collapseQuotes rest
      else a :: collapseQuotes tail
  | _ => s
  end.

Definition csvUnescape (field : jsstring) : jsstring :=
  match field with
  | q :: inner =>
      if (q =? dquote) && endsWith inner [dquote]
      then collapseQuotes (take (length inner - 1) inner)
      else field
  | [] => []
  end.

(** The two refusals of a report. *)
Definition unauthorized : Response :=
  {| status := 401; response_headers := []; body := BodyText (js "Unauthorized") |}.

Definition notFound : Response :=
  {| status := 404; response_headers := []; body := BodyText (js "Pixel not found") |}.

(** The token of a report request is missing or incorrect for [meta]. *)
Definition badToken (request : Request) (meta : PixelMeta) : Prop :=
  match searchParams_get request (js "token") with
  | None => True
  | Some token => token = [] \/ sha256Hex token <> meta_tokenHash meta
  end.

(** The token of a report request is the one [meta] was created with. *)
Definition goodToken (request : Request) (meta : PixelMeta) : Prop :=
  exists token, searchParams_get request (js "token") = Some token
                /\ token <> [] /\ sha256Hex token = meta_tokenHash meta.

(** [meta] with another [tokenHash]. *)
Definition withTokenHash (meta : PixelMeta) (hash : jsstring) : PixelMeta :=
  {| meta_id := meta_id meta; meta_createdAt := meta_createdAt meta;
     meta_label := meta_label meta; meta_metadata := meta_metadata meta;
     meta_tokenHash := hash; meta_openCount := meta_openCount meta;
     meta_lastOpenedAt := meta_lastOpenedAt meta |}.

(** The properties of a JSON object. *)
Definition jsonFields (j : json) : list (jsstring * json) :=
  match j with
  | JObject fields => fields
  | _ => []
  end.

(** The events of the listing as they are read, before the sort. *)
Definition listedEvents (env : Env) (id : jsstring) : list PixelEvent :=
  omap (fun name => match PIXIE_STORE env !! name with
                    | Some (StoredEvent e) => Some e
                    | _ => None
                    end)
       (list_keys env (eventKeyPrefix id) 1000).

(** The order of the timestamps. *)
Definition earlier (a b : PixelEvent) : Prop := ev_timestamp a <= ev_timestamp b.

(** [request] with another path, and with another outcome of
    [request.json()]. *)
Definition withPath (request : Request) (path : jsstring) : Request :=
  {| method := method request; origin := origin request; pathname := path;
     searchParams := searchParams request; headers := headers request;
     cf := cf request; body_json := body_json request |}.

Definition withBody (request : Request) (parsed : option PixelInitPayload) : Request :=
  {| method := method request; origin := origin request; pathname := pathname request;
     searchParams := searchParams request; headers := headers request;
     cf := cf request; body_json := parsed |}.

(** One open: what the platform decides, the request, and whether it is a
    HEAD request. *)
Record Open := mkOpen {
  open_platform : Platform;
  open_request : Request;
  open_isHead : bool;
}.

(** The opens one after the other, each on the store the one before left. *)
Definition openAll (env : Env) (opens : list Open) : Env :=
  foldl (fun env o => fst (servePixel (open_platform o) (open_request o) env (open_isHead o)))
        env opens.

(** What the key of an event is made of, apart from the pixel id: the clock
    and the three random bytes. *)
Definition suffixSeed (p : Platform) : N * list N :=
  (Date_now p, map (fun i => random p i mod 256) (seq 0 3)).

(** The id and the token [createPixel] draws. *)
Definition createdId (p : Platform) : jsstring := fst (randomHex 9 (random p)).
Definition createdToken (p : Platform) : jsstring :=
  fst (randomHex 16 (snd (randomHex 9 (random p)))).

(** The text of a response. *)
Definition bodyText (r : Response) : jsstring :=
  match body r with
  | BodyText text => text
  | _ => []
  end.

(** ** Auxiliary functions of the proofs *)

(** The digits of [hexByte], and the number two of them write. *)
Definition isHexDigit (c : N) : Prop := 48 <= c <= 57 \/ 97 <= c <= 102.

Definition isHexDigitb (c : N) : bool :=
  ((48 <=? c) && (c <=? 57)) || ((97 <=? c) && (c <=? 102)).

Definition hexDigitValue (c : N) : N := if c <? 58 then c - 48 else c - 87.
Definition hexValue (s : jsstring) : N := foldl (fun acc c => acc * 16 + hexDigitValue c) 0 s.

(** The segments of [s ++ t] when [t] has no separator: those of [s], the
    last one followed by [t]. *)
Fixpoint appendLast (segments : list jsstring) (t : jsstring) : list jsstring :=
  match segments with
  | [] => []
  | [seg] => [seg ++ t]
  | seg :: rest => seg :: appendLast rest t
  end.

(** The text the pixel id is made of: the first segment that is not empty,
    without its [.gif]. *)
Definition firstSegment (segments : list jsstring) : jsstring :=
  stripGif (default [] (head (filter (fun segment => truthy segment) segments))).

(** ** The words of the further properties *)

(** [request] with another method. *)
Definition withMethod (request : Request) (m : jsstring) : Request :=
  {| method := m; origin := origin request; pathname := pathname request;
     searchParams := searchParams request; headers := headers request;
     cf := cf request; body_json := body_json request |}.

(** The requests of a trace, served one after the other, each with what the
    platform decides for it. *)
Definition serveAll (env : Env) (steps : list (Platform * Request)) : Env :=
  foldl (fun env step => fst (fetch (fst step) (snd step) env)) env steps.


(** The ids [createPixel] makes: eighteen hexadecimal digits. *)
Definition isPixelId (id : jsstring) : Prop := length id = 18%nat /\ Forall isHexDigit id.

(** A recorded header: absent, or a text that is not empty of at most [max]
    code units. *)
Definition withinLength (max : nat) (field : option jsstring) : Prop :=
  match field with
  | Some s => s <> [] /\ (length s <= max)%nat
  | None => True
  end.

(** What the worker keeps under a key: under [meta:<id>] the [PixelMeta] of
    that id, with the digest of a token, opened if and only if it was
    counted; under any other key an event of a pixel the store has, at
    [events:<id>:<clock>-<six digits>], with its headers cut. *)
Definition wellStored (env : Env) (key : jsstring) (value : Stored) : Prop :=
  match value with
  | StoredMeta m =>
      key = metaKey (meta_id m) /\ isPixelId (meta_id m)
      /\ length (meta_tokenHash m) = 64%nat /\ Forall isHexDigit (meta_tokenHash m)
      /\ (meta_openCount m = 0 <-> meta_lastOpenedAt m = None)
  | StoredEvent e =>
      (exists id clock suffix,
          key = eventKeyPrefix id ++ decimal clock ++ js "-" ++ suffix
          /\ length suffix = 6%nat /\ Forall isHexDigit suffix
          /\ is_Some (loadMeta env id))
      /\ withinLength 256 (ev_userAgent e) /\ withinLength 256 (ev_referer e)
      /\ withinLength 32 (ev_language e)
  end.

Definition wellFormed (env : Env) : Prop :=
  map_Forall (wellStored env) (PIXIE_STORE env).

(** The [PixelMeta] a creation stores, and the one an open leaves in the
    place of [meta]. *)
Definition freshMeta (p : Platform) (request : Request) : PixelMeta :=
  let payload := default emptyPayload (safeJson request) in
  {| meta_id := createdId p; meta_createdAt := newDate p;
     meta_label := payload_label payload; meta_metadata := payload_metadata payload;
     meta_tokenHash := sha256Hex (createdToken p); meta_openCount := 0;
     meta_lastOpenedAt := None |}.

Definition countedMeta (p : Platform) (meta : PixelMeta) : PixelMeta :=
  {| meta_id := meta_id meta; meta_createdAt := meta_createdAt meta;
     meta_label := meta_label meta; meta_metadata := meta_metadata meta;
     meta_tokenHash := meta_tokenHash meta; meta_openCount := meta_openCount meta + 1;
     meta_lastOpenedAt := Some (newDate p) |}.

(** Two [PixelMeta] of one creation: they differ in [openCount] and
    [lastOpenedAt] at most. *)
Definition sameCreation (m m' : PixelMeta) : Prop :=
  meta_id m = meta_id m' /\ meta_createdAt m = meta_createdAt m'
  /\ meta_label m = meta_label m' /\ meta_metadata m = meta_metadata m'
  /\ meta_tokenHash m = meta_tokenHash m'.

(** The refusal of a worker that has no API key. *)
Definition misconfigured : Response :=
  {| status := 500; response_headers := [];
     body := BodyText (js "Server misconfigured: missing API_KEY") |}.

(** The value of a header of a response. *)
Definition responseHeader (r : Response) (name : jsstring) : option jsstring :=
  (fun found => snd (snd found)) <$> list_find (fun kv => fst kv = name) (response_headers r).

(** The headers of the [Response] object the constructor makes. It is
    given [response_headers]; when the body is a text and none of them is a
    [content-type], it adds the content type of a plain text. A body of
    bytes, or no body, adds nothing. *)
Definition headersOf (r : Response) : list (jsstring * jsstring) :=
  match body r with
  | BodyText _ =>
      if bool_decide (js "content-type" ∈ map fst (response_headers r))
      then response_headers r
      else response_headers r ++ [(js "content-type", js "text/plain;charset=UTF-8")]
  | _ => response_headers r
  end.

(** [request] is an open of the pixel [id]: a GET or a HEAD of a path under
    [/pixel/] whose id is [id]. *)
Definition isOpenOf (id : jsstring) (request : Request) : bool :=
  (bool_decide (method request = js "GET") || bool_decide (method request = js "HEAD"))
  && startsWith (pathname request) (js "/pixel/")
  && bool_decide (pixelId request = id).

(** The step is a creation the worker with the API key [key] accepts, and
    the id the platform draws for it is [id]. *)
Definition createsId (key id : jsstring) (step : Platform * Request) : bool :=
  bool_decide (method (snd step) = js "POST")
  && bool_decide (pathname (snd step) = js "/api/pixels")
  && truthy key
  && bool_decide (headers_get (snd step) API_KEY_HEADER = Some key)
  && bool_decide (createdId (fst step) = id).

(** The events among the values of a part of the store. *)
Definition storedEvents (records : gmap (list N) Stored) : list PixelEvent :=
  omap (fun kv => match snd kv with
                  | StoredEvent e => Some e
                  | StoredMeta _ => None
                  end) (map_to_list records).

(** The refusal of a report request that names no pixel. *)
Definition missingId : Response :=
  {| status := 400; response_headers := []; body := BodyText (js "Missing pixel id") |}.

(** Reading a CSV text back: outside double quotes a comma ends a field and
    a line feed ends a record; a field is kept as it is written, with its
    quotes. [quoted] tells whether the reader is between quotes. *)
Fixpoint csvRead (quoted : bool) (text : jsstring) : list (list jsstring) :=
  match text with
  | [] => [[[]]]
  | c :: rest =>
      let records := csvRead (if c =? dquote then negb quoted else quoted) rest in
      if negb quoted && (c =? LF) then [[]] :: records
      else if negb quoted && (c =? cu ",")
      then match records with
           | fields :: others => ([] :: fields) :: others
           | [] => [[[]; []]]
           end
      else match records with
           | (field :: fields) :: others => ((c :: field) :: fields) :: others
           | _ => [[[c]]]
           end
  end.

(** A text without a comma, a line feed or a double quote, and an event
    whose columns that [buildCsv] writes as they are, are such texts. *)
Definition plainField (field : jsstring) : Prop :=
  (cu "," ∉ field) /\ (LF ∉ field) /\ (dquote ∉ field).

Definition plainColumns (event : PixelEvent) : Prop :=
  plainField (default [] (ev_anonymizedIp event))
  /\ plainField (default [] (ev_geo event ≫= country))
  /\ plainField (default [] (ev_geo event ≫= region))
  /\ plainField (default [] (ev_geo event ≫= city)).

(** Auxiliary functions of their proofs. *)

(** A decimal digit. *)
Definition isDigit (c : N) : Prop := 48 <= c <= 57.

(** Whether the reader is between quotes after [field], when it met no
    separator outside quotes in it. *)
Fixpoint fieldEnd (quoted : bool) (field : jsstring) : option bool :=
  match field with
  | [] => Some quoted
  | c :: rest =>
      if negb quoted && ((c =? LF) || (c =? cu ",")) then None
      else fieldEnd (if c =? dquote then negb quoted else quoted) rest
  end.

(** ** Scenarios *)

(** The repository's integration test (test/index.test.ts): a creation, an
    open, a report. The random bytes and the clock are fixed. *)
Definition testEnv : Env := {| PIXIE_STORE := ∅; API_KEY := js "test-secret" |}.

Definition testPlatform : Platform :=
  {| random := fun i => N.of_nat (17 * i + 3); newDate := 1700000000123; Date_now := 1700000000125 |}.

Definition createRequest : Request :=
  {| method := js "POST"; origin := js "https://example.com"; pathname := js "/api/pixels";
     searchParams := [];
     headers := [(js "x-api-key", js "test-secret"); (js "content-type", js "application/json")];
     cf := None;
     body_json := Some {| payload_label := Some (js "integration-test");
                          payload_metadata := Some [(js "campaign", MString (js "fall"))] |} |}.

(** What [testPlatform] makes the id, the token and the hash of the token. *)
Definition testId : jsstring := js "031425364758697a8b".
Definition testToken : jsstring := js "9cadbecfe0f102132435465768798a9b".
Definition testHash : jsstring :=
  js "b1377be7f637e098db254a88e2742a7fd795c7b043764b3e586ac00cccda911d".

Definition pixelRequest : Request :=
  {| method := js "GET"; origin := js "https://example.com";
     pathname := js "/pixel/" ++ testId ++ js ".gif";
     searchParams := [];
     headers := [(js "user-agent", js "vitest"); (js "cf-connecting-ip", js "203.0.113.42")];
     cf := Some {| country := Some (js "US"); city := Some (js "San Francisco"); region := Some (js "CA") |};
     body_json := None |}.

Definition param (name : jsstring) (value : option jsstring) : list (jsstring * jsstring) :=
  match value with
  | Some v => [(name, v)]
  | None => []
  end.

Definition reportRequest (token : option jsstring) (format : option jsstring) : Request :=
  {| method := js "GET"; origin := js "https://example.com";
     pathname := js "/api/pixels/" ++ testId;
     searchParams := param (js "token") token ++ param (js "format") format;
     headers := []; cf := None; body_json := None |}.

Definition createdEnv : Env := fst (fetch testPlatform createRequest testEnv).
Definition openedEnv : Env := fst (fetch testPlatform pixelRequest createdEnv).

(** The [PixelMeta] of the store after the creation, and after the open. *)
Definition createdMeta : PixelMeta :=
  {| meta_id := testId; meta_createdAt := 1700000000123;
     meta_label := Some (js "integration-test");
     meta_metadata := Some [(js "campaign", MString (js "fall"))];
     meta_tokenHash := testHash; meta_openCount := 0; meta_lastOpenedAt := None |}.

Definition openedMeta : PixelMeta :=
  {| meta_id := testId; meta_createdAt := 1700000000123;
     meta_label := Some (js "integration-test");
     meta_metadata := Some [(js "campaign", MString (js "fall"))];
     meta_tokenHash := testHash; meta_openCount := 1;
     meta_lastOpenedAt := Some 1700000000123 |}.

(** An open with three headers that are present and empty. *)
Definition emptyHeaders : Request :=
  {| method := js "GET"; origin := js "https://example.com"; pathname := js "/pixel/0a.gif";
     searchParams := [];
     headers := [(js "user-agent", []); (js "referer", []); (js "accept-language", [])];
     cf := None; body_json := None |}.

(** An event whose referer has a comma and two double quotes. *)
Definition commaEvent : PixelEvent :=
  {| ev_timestamp := 1700000000123; ev_anonymizedIp := None; ev_userAgent := None;
     ev_referer := Some (js "https://example.com/?q=a,b&s=" ++ [dquote] ++ js "x" ++ [dquote]);
     ev_language := None; ev_geo := None |}.

(** Two opens of the test pixel: the first, and a later one with another
    clock reading and other random bytes. *)
Definition firstOpen : Open :=
  {| open_platform := testPlatform; open_request := pixelRequest; open_isHead := false |}.

Definition laterOpen : Open :=
  {| open_platform := {| random := fun i => N.of_nat (29 * i + 7);
                         newDate := 1700000060000; Date_now := 1700000060001 |};
     open_request := withPath pixelRequest (js "/pixel/" ++ testId);
     open_isHead := false |}.

(** An open whose [user-agent] is the hash of the pixel's token, as the
    holder of the token can compute it. *)
Definition echoRequest : Request :=
  {| method := js "GET"; origin := js "https://example.com";
     pathname := js "/pixel/" ++ testId ++ js ".gif";
     searchParams := [];
     headers := [(js "user-agent", testHash); (js "cf-connecting-ip", js "203.0.113.42")];
     cf := None; body_json := None |}.

Definition echoedEnv : Env := fst (servePixel testPlatform echoRequest createdEnv false).

(** A creation whose label is the very text the platform then draws as the
    token, and the [PixelMeta] it stores. *)
Definition labelledRequest : Request :=
  withBody createRequest
    (Some {| payload_label := Some testToken; payload_metadata := None |}).

Definition labelledMeta : PixelMeta :=
  {| meta_id := testId; meta_createdAt := 1700000000123; meta_label := Some testToken;
     meta_metadata := None; meta_tokenHash := testHash; meta_openCount := 0;
     meta_lastOpenedAt := None |}.

(* ================================================================= *)
(** * Properties *)

Set Warnings "-clear-no-such-hyp".

(** ** Sanity checks of the embedding *)

Example anonymizeIp_test :
  anonymizeIp (Some (js "203.0.113.42")) = Some (js "203.0.113.0")
  /\ anonymizeIp (Some (js "2001:db8:1:2:3:4:5:6")) = Some (js "2001:db8:1:2:0000:0000:0000:0000")
  /\ anonymizeIp (Some (js "::1")) = Some (js "0000:0000:0000")
  /\ anonymizeIp (Some (js "1.2.3")) = None
  /\ anonymizeIp (Some []) = None.
Proof. repeat split; reflexivity. Qed.

Example text_test :
  hexByte 10 = js "0a" /\ hexByte 255 = js "ff"
  /\ decimal 1700000000000 = js "1700000000000"
  /\ stripGif (js "abc.GiF") = js "abc" /\ stripGif (js "abc") = js "abc"
  /\ stripGif (js "gif") = js "gif"
  /\ truncate (Some (js "abcdef")) 4 = Some (js "abc" ++ [ellipsis])
  /\ truncate (Some (js "abcdef")) 0 = Some (js "abcde" ++ [ellipsis])
  /\ truncate (Some (js "abcd")) 4 = Some (js "abcd").
Proof. repeat split; reflexivity. Qed.

(** The digests of FIPS 180-4's examples, of a message of two blocks and of
    a text that is not ASCII. *)
Example sha256_test :
  sha256Hex (js "abc")
  = js "ba7816bf8f01cfea414140de5dae2223b00361a396177a9cb410ff61f20015ad"
  /\ sha256Hex []
     = js "e3b0c44298fc1c149afbf4c8996fb92427ae41e4649b934ca495991b7852b855"
  /\ sha256Hex (replicate 100 (cu "a"))
     = js "2816597888e4a0d3a36b82b83316ab32680eb8f00f8cd3b904d681246d285a0e"
  /\ sha256Hex [cu "h"; 0xE9; 0x2026; 0xD83D; 0xDE00]
     = js "d6e822acfadb35f1a51af61f55f3785f53a68681ad3506708790d2f5bdba0d7c".
Proof. vm_compute. repeat split; reflexivity. Qed.

Example toISOString_test :
  toISOString 1700000000123 = js "2023-11-14T22:13:20.123Z"
  /\ toISOString 0 = js "1970-01-01T00:00:00.000Z"
  /\ toISOString 951868799000 = js "2000-02-29T23:59:59.000Z"
  /\ toISOString 253402300800000 = js "+010000-01-01T00:00:00.000Z".
Proof. vm_compute. repeat split; reflexivity. Qed.

Example stringify_test :
  JSON_stringify 0
    (JObject [(js "a", JNumber (-5));
              (js "b", JArray [JNull; JBool true; JString (js "x\y" ++ [LF])]);
              (js "c", JObject [])])
  = js "{" ++ [dquote] ++ js "a" ++ [dquote] ++ js ":-5,"
    ++ [dquote] ++ js "b" ++ [dquote] ++ js ":[null,true," ++ [dquote] ++ js "x\\y\n" ++ [dquote]
    ++ js "]," ++ [dquote] ++ js "c" ++ [dquote] ++ js ":{}}"
  /\ JSON_stringify 2 (JObject [(js "a", JNumber 1); (js "b", JArray [JNull; JArray []])])
     = js "{" ++ [LF] ++ js "  " ++ [dquote] ++ js "a" ++ [dquote] ++ js ": 1," ++ [LF]
       ++ js "  " ++ [dquote] ++ js "b" ++ [dquote] ++ js ": [" ++ [LF]
       ++ js "    null," ++ [LF] ++ js "    []" ++ [LF] ++ js "  ]" ++ [LF] ++ js "}".
Proof. vm_compute. repeat split; reflexivity. Qed.

Example integration_test :
  status (snd (fetch testPlatform createRequest testEnv)) = 201
  /\ fst (randomHex 9 (random testPlatform)) = testId
  /\ status (snd (fetch testPlatform pixelRequest createdEnv)) = 200
  /\ (meta_openCount <$> loadMeta openedEnv testId) = Some 1
  /\ (meta_label <$> loadMeta openedEnv testId) = Some (Some (js "integration-test"))
  /\ map ev_anonymizedIp (loadEvents openedEnv testId) = [Some (js "203.0.113.0")]
  /\ map (fun e => ev_geo e ≫= country) (loadEvents openedEnv testId) = [Some (js "US")]
  /\ status (snd (fetch testPlatform (reportRequest (Some testToken) None) openedEnv)) = 200.
Proof. vm_compute. repeat split; reflexivity. Qed.

Example report_csv_test :
  body (getPixelReport (reportRequest (Some testToken) (Some (js "csv"))) openedEnv)
  = BodyText (js "timestamp,anonymizedIp,userAgent,referer,language,country,region,city" ++ [LF]
              ++ js "2023-11-14T22:13:20.123Z,203.0.113.0,vitest,,,US,CA,San Francisco").
Proof. vm_compute. reflexivity. Qed.

(** The JSON texts of the scenario are those a JavaScript engine writes
    (the stored [PixelMeta], the creation response, the report): their
    digests. *)
Example json_texts :
  sha256Hex (stored_text (StoredMeta createdMeta))
  = js "d9f3ec0132aeb833046ae18c04519dfdfb24d4c1847e9273d4700937a23a924e"
  /\ sha256Hex (bodyText (snd (fetch testPlatform createRequest testEnv)))
     = js "f6de514d1e94a9b8f7bfe7475de8a189f17d916ec1e0a6e4d2be1ddba5fff64f"
  /\ sha256Hex (bodyText (getPixelReport (reportRequest (Some testToken) None) openedEnv))
     = js "972a3ccc6a520230af61300f106d4ce44810e4cd782989a156d464b0b1ce3504".
Proof. vm_compute. repeat split; reflexivity. Qed.

Lemma createdMeta_loaded : loadMeta createdEnv testId = Some createdMeta.
Proof. vm_compute. reflexivity. Qed.

Lemma openedMeta_loaded : loadMeta openedEnv testId = Some openedMeta.
Proof. vm_compute. reflexivity. Qed.

Lemma testToken_hash : sha256Hex testToken = testHash.
Proof. vm_compute. reflexivity. Qed.

(** ** Strings *)

Lemma startsWith_true (s p : jsstring) :
  startsWith s p = true <-> exists rest, s = p ++ rest.
Proof.
  revert s; induction p as [|a p IH]; intros s; simpl.
  - split; [intros _; exists s; reflexivity | reflexivity].
  - destruct s as [|b s]; simpl.
    + split; [discriminate | intros [r Hr]; discriminate].
    + rewrite andb_true_iff, N.eqb_eq, IH. split.
      * intros [-> [r ->]]. eauto.
      * intros [r Hr]. injection Hr as -> ->. eauto.
Qed.

Lemma startsWith_app (p rest : jsstring) : startsWith (p ++ rest) p = true.
Proof. apply startsWith_true. eauto. Qed.

Lemma endsWith_app (s p : jsstring) : endsWith (s ++ p) p = true.
Proof. unfold endsWith. rewrite rev_app_distr. apply startsWith_app. Qed.

Lemma endsWith_true (s p : jsstring) :
  endsWith s p = true <-> exists before, s = before ++ p.
Proof.
  unfold endsWith. rewrite startsWith_true. split.
  - intros [r Hr]. exists (rev r).
    rewrite <- (rev_involutive s), Hr, rev_app_distr, rev_involutive. reflexivity.
  - intros [b ->]. exists (rev b). apply rev_app_distr.
Qed.

Lemma endsWith_longer (before s p : jsstring) :
  endsWith s p = true -> endsWith (before ++ s) p = true.
Proof.
  rewrite !endsWith_true. intros [b ->]. exists (before ++ b). now rewrite app_assoc.
Qed.

Lemma includes_occurs (s p : jsstring) : includes s p = true <-> occurs p s.
Proof.
  unfold occurs. induction s as [|c s IH]; simpl.
  - rewrite orb_false_r, startsWith_true. split.
    + intros [r Hr]. exists [], r. exact Hr.
    + intros ([|x b] & a & H); [eauto | discriminate].
  - rewrite orb_true_iff, startsWith_true, IH. split.
    + intros [[r Hr] | (b & a & ->)].
      * exists [], r. exact Hr.
      * exists (c :: b), a. reflexivity.
    + intros ([|x b] & a & H).
      * left. eauto.
      * right. injection H as -> ->. eauto.
Qed.

Lemma includes_unit (s : jsstring) (c : N) : includes s [c] = true <-> c ∈ s.
Proof.
  rewrite includes_occurs. unfold occurs. split.
  - intros (b & a & ->). rewrite elem_of_app. right. left.
  - intros (b & a & ->)%list_elem_of_split. exists b, a. reflexivity.
Qed.

Lemma includes_unit_false (s : jsstring) (c : N) : includes s [c] = false <-> c ∉ s.
Proof. rewrite <- includes_unit. destruct (includes s [c]); split; congruence. Qed.

Lemma truthy_includes (s p : jsstring) : p <> [] -> includes s p = true -> truthy s = true.
Proof. destruct s, p; simpl; congruence. Qed.

Lemma split_nonempty (sep : N) (s : jsstring) : split sep s <> [].
Proof.
  induction s as [|c s IH]; simpl; [discriminate|].
  destruct (c =? sep); [discriminate|]. destruct (split sep s); discriminate.
Qed.

Lemma split_without (sep : N) (s : jsstring) : sep ∉ s -> split sep s = [s].
Proof.
  induction s as [|c s IH]; simpl; intros H; [reflexivity|].
  apply not_elem_of_cons in H as [Hc Hs].
  destruct (N.eqb_spec c sep) as [->|_]; [congruence|].
  rewrite (IH Hs). reflexivity.
Qed.

Lemma split_app (sep : N) (s rest : jsstring) :
  sep ∉ s -> split sep (s ++ sep :: rest) = s :: split sep rest.
Proof.
  induction s as [|c s IH]; simpl; intros H.
  - rewrite N.eqb_refl. reflexivity.
  - apply not_elem_of_cons in H as [Hc Hs].
    destruct (N.eqb_spec c sep) as [->|_]; [congruence|].
    rewrite (IH Hs). reflexivity.
Qed.

(** Without the separator there is one segment only. *)
Lemma split_length_without (sep : N) (s : jsstring) :
  includes s [sep] = false -> length (split sep s) = 1%nat.
Proof. intros H. apply includes_unit_false in H. rewrite split_without; auto. Qed.

Lemma join_split (sep : N) (s : jsstring) : join [sep] (split sep s) = s.
Proof.
  induction s as [|c s IH]; simpl; [reflexivity|].
  destruct (N.eqb_spec c sep) as [->|_].
  - destruct (split sep s) eqn:E; [now apply split_nonempty in E|].
    simpl in *. now rewrite IH.
  - destruct (split sep s) as [|seg segs] eqn:E; [now apply split_nonempty in E|].
    simpl in *. destruct segs; simpl in *; now rewrite <- IH.
Qed.

Lemma split_app_last (sep : N) (s t : jsstring) :
  sep ∉ t -> split sep (s ++ t) = appendLast (split sep s) t.
Proof.
  intros Ht. induction s as [|c s IH]; simpl.
  - now apply split_without.
  - rewrite IH. pose proof (split_nonempty sep s) as Hne.
    destruct (c =? sep); destruct (split sep s) as [|seg [|seg' segs]]; try congruence; reflexivity.
Qed.

Lemma join_last (sep : jsstring) (segments : list jsstring) :
  exists before, join sep segments = before ++ List.last segments [].
Proof.
  induction segments as [|seg rest (before & IH)].
  - exists []. reflexivity.
  - destruct rest as [|seg' rest].
    + exists []. reflexivity.
    + exists (seg ++ sep ++ before). cbn [join List.last] in *. rewrite IH.
      now rewrite <- !app_assoc.
Qed.

Lemma split_last_suffix (sep : N) (s : jsstring) :
  exists before, s = before ++ List.last (split sep s) [].
Proof.
  destruct (join_last [sep] (split sep s)) as [before H].
  exists before. now rewrite <- H, join_split.
Qed.

Ltac literals :=
  repeat match goal with
         | |- context [js ?s] => let v := eval vm_compute in (js s) in change (js s) with v
         | |- context [cu ?c] => let v := eval vm_compute in (cu c) in change (cu c) with v
         end.

(** ** Numbers as text *)

Lemma js_inj (s t : string) : js s = js t -> s = t.
Proof.
  unfold js. intros H.
  rewrite <- (string_of_list_ascii_of_string s), <- (string_of_list_ascii_of_string t).
  f_equal. revert H. generalize (list_ascii_of_string s) (list_ascii_of_string t).
  induction l as [|a l IH]; intros [|b k]; simpl; try congruence.
  intros [= Hab Hlk]. f_equal; [|now apply IH].
  now rewrite <- (ascii_N_embedding a), <- (ascii_N_embedding b), Hab.
Qed.

Lemma decimal_inj (n m : N) : decimal n = decimal m -> n = m.
Proof.
  unfold decimal. intros H%js_inj.
  assert (Hdec : forall k, option_map N.of_uint
                   (DecimalString.NilZero.uint_of_string
                      (DecimalString.NilZero.string_of_uint (N.to_uint k))) = Some k).
  { intros k. pose proof (DecimalN.Unsigned.of_to k) as Hk.
    destruct (N.to_uint k) eqn:Ek;
      try (rewrite DecimalString.NilZero.usu by discriminate; cbn [option_map]; f_equal; exact Hk).
    simpl in *. now rewrite <- Hk. }
  pose proof (Hdec n) as Hn. rewrite H, Hdec in Hn. congruence.
Qed.

Lemma byte_cases (P : N -> Prop) :
  Forall P (map N.of_nat (seq 0 256)) -> forall b, b < 256 -> P b.
Proof.
  intros H b Hb. rewrite Forall_forall in H. apply H.
  apply list_elem_of_In, in_map_iff. exists (N.to_nat b). split; [lia|].
  apply in_seq. lia.
Qed.

Lemma hexByte_spec (b : N) :
  b < 256 -> length (hexByte b) = 2%nat /\ hexValue (hexByte b) = b.
Proof.
  revert b. apply byte_cases. apply Forall_forall. intros b Hb.
  assert (Hall : forallb (fun b => (length (hexByte b) =? 2)%nat && (hexValue (hexByte b) =? b))
                         (map N.of_nat (seq 0 256)) = true) by (vm_compute; reflexivity).
  rewrite forallb_forall in Hall.
  apply list_elem_of_In, Hall, andb_true_iff in Hb as [H1%Nat.eqb_eq H2%N.eqb_eq].
  now split.
Qed.

Lemma hexByte_inj (a b : N) : a < 256 -> b < 256 -> hexByte a = hexByte b -> a = b.
Proof.
  intros Ha Hb H. rewrite <- (proj2 (hexByte_spec a Ha)), <- (proj2 (hexByte_spec b Hb)).
  now rewrite H.
Qed.

Lemma isHexDigitb_true (c : N) : isHexDigitb c = true <-> isHexDigit c.
Proof.
  unfold isHexDigitb, isHexDigit.
  rewrite orb_true_iff, !andb_true_iff, !N.leb_le. reflexivity.
Qed.

Lemma hexByte_hex (b : N) : b < 256 -> Forall isHexDigit (hexByte b).
Proof.
  revert b. apply byte_cases. apply Forall_forall. intros b Hb.
  assert (Hall : forallb (fun b => forallb isHexDigitb (hexByte b)) (map N.of_nat (seq 0 256)) = true)
    by (vm_compute; reflexivity).
  rewrite forallb_forall in Hall. apply list_elem_of_In, Hall in Hb.
  rewrite forallb_forall in Hb. apply Forall_forall. intros c Hc%list_elem_of_In.
  now apply isHexDigitb_true, Hb.
Qed.

Lemma hexOf_hex (bytes : list N) :
  Forall (fun b => b < 256) bytes ->
  Forall isHexDigit (flat_map hexByte bytes)
  /\ length (flat_map hexByte bytes) = (2 * length bytes)%nat.
Proof.
  induction 1 as [|b bytes Hb _ [IH1 IH2]]; cbn [flat_map length].
  - split; [constructor | reflexivity].
  - split; [apply Forall_app; split; [now apply hexByte_hex | exact IH1]|].
    rewrite length_app, IH2, (proj1 (hexByte_spec b Hb)). lia.
Qed.

Lemma randomHex_hex (bytes : nat) (rng : nat -> N) :
  Forall isHexDigit (fst (randomHex bytes rng))
  /\ length (fst (randomHex bytes rng)) = (2 * bytes)%nat.
Proof.
  unfold randomHex. cbn [fst].
  assert (H : forall l : list nat,
             Forall isHexDigit (flat_map (fun i => hexByte (rng i mod 256)) l)
             /\ length (flat_map (fun i => hexByte (rng i mod 256)) l) = (2 * length l)%nat).
  { induction l as [|i l [IH1 IH2]]; cbn [flat_map length].
    - split; [now apply Forall_nil | reflexivity].
    - assert (Hlt : rng i mod 256 < 256) by now apply N.mod_lt.
      split; [apply Forall_app; split; [now apply hexByte_hex | exact IH1]|].
      rewrite length_app, IH2, (proj1 (hexByte_spec _ Hlt)). lia. }
  destruct (H (seq 0 bytes)) as [H1 H2]. split; [exact H1|]. now rewrite H2, length_seq.
Qed.

Lemma randomHex_3 (rng : nat -> N) :
  fst (randomHex 3 rng)
  = hexByte (rng 0%nat mod 256) ++ hexByte (rng 1%nat mod 256) ++ hexByte (rng 2%nat mod 256).
Proof. unfold randomHex. cbn [fst seq flat_map]. now rewrite app_nil_r. Qed.

Lemma randomHex_3_length (rng : nat -> N) : length (fst (randomHex 3 rng)) = 6%nat.
Proof.
  rewrite randomHex_3, !length_app.
  rewrite !(proj1 (hexByte_spec _ (N.mod_lt _ 256 ltac:(discriminate)))). reflexivity.
Qed.

Lemma randomHex_3_inj (rng rng' : nat -> N) :
  fst (randomHex 3 rng) = fst (randomHex 3 rng') ->
  map (fun i => rng i mod 256) (seq 0 3) = map (fun i => rng' i mod 256) (seq 0 3).
Proof.
  rewrite !randomHex_3. intros H.
  assert (Hlt : forall x, x mod 256 < 256) by (intros; now apply N.mod_lt).
  apply app_inj_1 in H as [H0 H];
    [|now rewrite !(proj1 (hexByte_spec _ (Hlt _)))].
  apply app_inj_1 in H as [H1 H2];
    [|now rewrite !(proj1 (hexByte_spec _ (Hlt _)))].
  apply hexByte_inj in H0, H1, H2; try apply Hlt.
  cbn [map seq]. now rewrite H0, H1, H2.
Qed.

Lemma digest_bytes (data : list N) : Forall (fun b => b < 256) (SHA256.digest data).
Proof.
  unfold SHA256.digest. apply Forall_forall. intros b Hb%list_elem_of_In.
  apply in_map_iff in Hb as (z & <- & Hz). apply in_flat_map in Hz as (w & _ & Hz).
  unfold SHA256.bytesOf in Hz. apply in_map_iff in Hz as (i & <- & _).
  pose proof (Z.mod_pos_bound (w / 256 ^ Z.of_nat i) 256 ltac:(lia)). lia.
Qed.

Lemma sha256Hex_hex (input : jsstring) : Forall isHexDigit (sha256Hex input).
Proof. unfold sha256Hex. apply hexOf_hex, digest_bytes. Qed.

Lemma round_length (st : list Z) (kw : Z * Z) : length (SHA256.round st kw) = length st.
Proof.
  unfold SHA256.round.
  destruct st as [|a [|b [|c [|d [|e [|f [|g [|h [|i st]]]]]]]]]; reflexivity.
Qed.

Lemma compress_length (h block : list Z) : length (SHA256.compress h block) = length h.
Proof.
  unfold SHA256.compress. rewrite length_zip_with.
  assert (H : forall l st, length (foldl SHA256.round st l) = length st).
  { induction l as [|kw l IH]; intros st; [reflexivity|]. cbn [foldl].
    now rewrite IH, round_length. }
  rewrite H. lia.
Qed.

Lemma digest_length (data : list N) : length (SHA256.digest data) = 32%nat.
Proof.
  unfold SHA256.digest. rewrite length_map.
  assert (H : forall blocks h, length (foldl SHA256.compress h blocks) = length h).
  { induction blocks as [|b blocks IH]; intros h; [reflexivity|].
    cbn [foldl]. now rewrite IH, compress_length. }
  generalize (SHA256.chunks (length (SHA256.pad (map Z.of_N data))) 64
                (SHA256.pad (map Z.of_N data))).
  intros blocks. specialize (H blocks SHA256.H0).
  assert (H8 : length SHA256.H0 = 8%nat) by (vm_compute; reflexivity).
  rewrite H8 in H. revert H. generalize (foldl SHA256.compress SHA256.H0 blocks).
  intros h Hh. destruct h as [|a [|b [|c [|d [|e [|f [|g [|i [|j h]]]]]]]]]; try discriminate.
  reflexivity.
Qed.

Lemma sha256Hex_length (input : jsstring) : length (sha256Hex input) = 64%nat.
Proof.
  unfold sha256Hex. destruct (hexOf_hex _ (digest_bytes (TextEncoder_encode input))) as [_ Hlen].
  rewrite Hlen, digest_length. reflexivity.
Qed.

(** ** The anonymization engine (C4) *)

Lemma foldl_insert_seq {A} (x : A) (k a : nat) (l : list A) :
  (a + k <= length l)%nat ->
  foldl (fun segs i => <[i := x]> segs) l (seq a k)
  = take a l ++ replicate k x ++ drop (a + k) l.
Proof.
  revert a l; induction k as [|k IH]; intros a l Hlen; simpl.
  - rewrite Nat.add_0_r, take_drop. reflexivity.
  - rewrite IH by (rewrite length_insert; lia).
    rewrite drop_insert_lt by lia.
    rewrite (insert_take_drop l a x) by lia.
    rewrite (cons_middle x (take a l)), (app_assoc (take a l) [x]).
    rewrite take_app_length' by (rewrite length_app, length_take; simpl; lia).
    rewrite <- app_assoc. simpl. replace (a + S k)%nat with (S (a + k)) by lia. reflexivity.
Qed.

Lemma zeroGroups_spec (segments : list jsstring) :
  zeroGroups segments = zeroLastFour segments.
Proof.
  unfold zeroGroups, zeroLastFour.
  rewrite foldl_insert_seq by lia.
  rewrite drop_ge by lia. rewrite app_nil_r. do 2 f_equal. lia.
Qed.

(** C4, as amended: four segments between dots give the first three and a
    zero; any other text with a colon has its last four groups (all of them
    when there are fewer) replaced by [0000]; everything else, the empty
    string and the absent address included, gives [null]. *)
Theorem anonymizeIp_policy :
  (forall a b c d : jsstring,
      cu "." ∉ a -> cu "." ∉ b -> cu "." ∉ c -> cu "." ∉ d ->
      anonymizeIp (Some (a ++ js "." ++ b ++ js "." ++ c ++ js "." ++ d))
      = Some (a ++ js "." ++ b ++ js "." ++ c ++ js ".0"))
  /\ (forall ip : jsstring,
         length (split (cu ".") ip) <> 4%nat -> includes ip (js ":") = true ->
         anonymizeIp (Some ip) = Some (join (js ":") (zeroLastFour (split (cu ":") ip))))
  /\ (forall ip : jsstring,
         length (split (cu ".") ip) <> 4%nat -> includes ip (js ":") = false ->
         anonymizeIp (Some ip) = None)
  /\ anonymizeIp None = None.
Proof.
  repeat split.
  - intros a b c d Ha Hb Hc Hd. unfold anonymizeIp.
    assert (Hsplit : split (cu ".") (a ++ js "." ++ b ++ js "." ++ c ++ js "." ++ d) = [a; b; c; d]).
    { literals. simpl. rewrite !split_app by assumption. now rewrite split_without. }
    assert (Hinc : includes (a ++ js "." ++ b ++ js "." ++ c ++ js "." ++ d) (js ".") = true).
    { literals. apply includes_unit. rewrite elem_of_app. right. left. }
    rewrite (truthy_includes _ (js ".") ltac:(vm_compute; congruence) Hinc), Hinc, Hsplit. simpl.
    reflexivity.
  - intros ip Hdots Hcolon. unfold anonymizeIp.
    rewrite (truthy_includes _ (js ":") ltac:(vm_compute; congruence) Hcolon), Hcolon.
    apply Nat.eqb_neq in Hdots. rewrite Hdots, andb_false_r. cbn [negb].
    now rewrite zeroGroups_spec.
  - intros ip Hdots Hcolon. unfold anonymizeIp.
    apply Nat.eqb_neq in Hdots. rewrite Hdots, andb_false_r, Hcolon.
    now destruct (negb (truthy ip)).
Qed.

Lemma anonymizeIp_policy_witness :
  anonymizeIp (Some (js "203.0.113.42")) = Some (js "203.0.113.0")
  /\ anonymizeIp (Some (js "2001:db8::8a2e:370:7334")) = Some (js "2001:db8:0000:0000:0000:0000")
  /\ anonymizeIp (Some (js "localhost")) = None.
Proof.
  destruct anonymizeIp_policy as (Hv4 & Hv6 & Hother & _).
  split; [|split].
  - apply (Hv4 (js "203") (js "0") (js "113") (js "42"));
      apply (bool_decide_unpack _); vm_compute; exact I.
  - apply (Hv6 (js "2001:db8::8a2e:370:7334")); vm_compute; congruence.
  - apply (Hother (js "localhost")); vm_compute; congruence.
Defined.

(** C4 as stated fails: an address written with colons that also has four
    segments between dots takes the dotted branch. *)
Lemma anonymizeIp_colon_counterexample :
  includes (js "::ffff:1.2.3.4") (js ":") = true
  /\ anonymizeIp (Some (js "::ffff:1.2.3.4")) = Some (js "::ffff:1.2.3.0")
  /\ anonymizeIp (Some (js "::ffff:1.2.3.4"))
     <> Some (join (js ":") (zeroLastFour (split (cu ":") (js "::ffff:1.2.3.4")))).
Proof. vm_compute. repeat split; congruence. Qed.

Lemma truncate_not_empty (value : option jsstring) (max : Z) :
  truncate value max <> Some [].
Proof.
  unfold truncate. destruct value as [[|c v]|]; simpl; try discriminate.
  destruct (_ >? _)%Z; [|discriminate].
  intros [= H]. now apply app_nil in H as [_ ?].
Qed.

(** ** CSV (C7) *)

Lemma collapseQuotes_replaceAll (v : jsstring) :
  collapseQuotes (replaceAll dquote [dquote; dquote] v) = v.
Proof.
  unfold replaceAll. induction v as [|x v IH]; [reflexivity|].
  cbn [flat_map]. destruct (N.eqb_spec x dquote) as [->|Hx].
  - cbn. now rewrite IH.
  - cbn [app]. destruct (flat_map _ v) as [|b rest] eqn:E.
    + cbn in IH. subst v. reflexivity.
    + cbn [collapseQuotes]. apply N.eqb_neq in Hx. rewrite Hx. cbn.
      now rewrite <- IH.
Qed.

Lemma csvUnescape_quoted (v : jsstring) :
  csvUnescape ([dquote] ++ replaceAll dquote [dquote; dquote] v ++ [dquote]) = v.
Proof.
  unfold csvUnescape. cbn [app]. rewrite N.eqb_refl, endsWith_app. cbn [andb].
  rewrite length_app. cbn [length].
  rewrite take_app_length' by lia. apply collapseQuotes_replaceAll.
Qed.

Lemma includes_replaceAll (c q : N) (v : jsstring) :
  c <> q -> includes v [c] = true -> includes (replaceAll q [q; q] v) [c] = true.
Proof.
  intros Hc. rewrite !includes_unit. unfold replaceAll.
  intros Hin. apply list_elem_of_In, in_flat_map. exists c. split.
  - now apply list_elem_of_In.
  - apply N.eqb_neq in Hc. rewrite Hc. now left.
Qed.

(** C7: a referer with a comma is written between double quotes with every
    double quote of it doubled, as the fourth field of its line, and the
    standard rule reads the original text back from that field. *)
Theorem csv_referer_roundtrip (event : PixelEvent) (referer : jsstring) :
  ev_referer event = Some referer ->
  includes referer (js ",") = true ->
  csvRow event !! 3%nat
  = Some ([dquote] ++ replaceAll dquote [dquote; dquote] referer ++ [dquote])
  /\ (forall field, csvRow event !! 3%nat = Some field -> csvUnescape field = referer)
  /\ forall meta before after,
      buildCsv meta (before ++ event :: after)
      = join [LF] (join (js ",") csvHeaders
                   :: map (fun e => join (js ",") (csvRow e)) before
                   ++ join (js ",") (csvRow event)
                   :: map (fun e => join (js ",") (csvRow e)) after).
Proof.
  intros Href Hcomma.
  assert (Hfield : csvRow event !! 3%nat
                   = Some ([dquote] ++ replaceAll dquote [dquote; dquote] referer ++ [dquote])).
  { unfold csvRow. cbn [lookup list_lookup]. rewrite Href. unfold escapeCsv.
    assert (Ht : truthy referer = true)
      by (apply (truthy_includes _ (js ",")); [vm_compute; congruence | exact Hcomma]).
    rewrite Ht. cbn [negb].
    rewrite (includes_replaceAll (cu ",") dquote) by (vm_compute; congruence || exact Hcomma).
    reflexivity. }
  split; [exact Hfield|]. split.
  - intros field. rewrite Hfield. intros [= <-]. apply csvUnescape_quoted.
  - intros meta before after. unfold buildCsv. now rewrite map_app.
Qed.

Lemma csv_referer_roundtrip_witness :
  csvRow commaEvent !! 3%nat
  = Some ([dquote] ++ js "https://example.com/?q=a,b&s=" ++ [dquote; dquote] ++ js "x"
          ++ [dquote; dquote] ++ [dquote])
  /\ csvUnescape ([dquote] ++ js "https://example.com/?q=a,b&s=" ++ [dquote; dquote] ++ js "x"
                  ++ [dquote; dquote] ++ [dquote])
     = js "https://example.com/?q=a,b&s=" ++ [dquote] ++ js "x" ++ [dquote].
Proof.
  destruct (csv_referer_roundtrip commaEvent
              (js "https://example.com/?q=a,b&s=" ++ [dquote] ++ js "x" ++ [dquote])
              eq_refl eq_refl) as (Hfield & Hback & _).
  split; [exact Hfield | apply Hback; exact Hfield].
Defined.

(** ** Reports (C1) *)

(** C1, as amended: a report request with a missing or incorrect token is
    answered 401 when the store has a [PixelMeta] for the pixel id; when it
    has none the answer is 404, whatever the token. *)
Theorem report_bad_token (request : Request) (env : Env) (id : jsstring) :
  pathSegments request !! 2%nat = Some id ->
  (forall meta, loadMeta env id = Some meta -> badToken request meta ->
                getPixelReport request env = unauthorized)
  /\ (loadMeta env id = None -> getPixelReport request env = notFound).
Proof.
  intros Hid. unfold getPixelReport. rewrite Hid. split.
  - intros meta -> Hbad. unfold badToken in Hbad.
    destruct (searchParams_get request (js "token")) as [token|]; [|reflexivity].
    cbn [falsy default from_option Datatypes.id]. destruct Hbad as [-> | Hne]; [reflexivity|].
    rewrite (bool_decide_eq_false_2 _ Hne), orb_true_r. reflexivity.
  - intros ->. reflexivity.
Qed.

Lemma report_bad_token_witness :
  getPixelReport (reportRequest (Some (js "00000000000000000000000000000000")) None) openedEnv
  = unauthorized
  /\ getPixelReport (reportRequest None None) openedEnv = unauthorized
  /\ getPixelReport (reportRequest None None) testEnv = notFound.
Proof.
  destruct (report_bad_token (reportRequest (Some (js "00000000000000000000000000000000")) None)
              openedEnv testId eq_refl) as [Hwrong _].
  destruct (report_bad_token (reportRequest None None) openedEnv testId eq_refl) as [Hmissing _].
  destruct (report_bad_token (reportRequest None None) testEnv testId eq_refl) as [_ Habsent].
  split; [|split].
  - apply (Hwrong openedMeta openedMeta_loaded). right. vm_compute. discriminate.
  - apply (Hmissing openedMeta openedMeta_loaded). exact I.
  - apply Habsent. reflexivity.
Defined.

(** C1 as stated fails: without a [PixelMeta] a report request with no token
    is answered 404, not 401. *)
Lemma report_missing_pixel_counterexample :
  loadMeta testEnv testId = None
  /\ searchParams_get (reportRequest None None) (js "token") = None
  /\ status (getPixelReport (reportRequest None None) testEnv) = 404
  /\ status (getPixelReport (reportRequest None None) testEnv) <> 401.
Proof. vm_compute. repeat split; congruence. Qed.

Lemma insertByTime_perm (e : PixelEvent) (l : list PixelEvent) : insertByTime e l ≡ₚ e :: l.
Proof.
  induction l as [|x l IH]; cbn [insertByTime]; [reflexivity|].
  destruct (_ <=? _); [reflexivity|]. rewrite IH. apply Permutation_swap.
Qed.

Lemma sortByTime_perm (l : list PixelEvent) : sortByTime l ≡ₚ l.
Proof.
  induction l as [|e l IH]; [reflexivity|].
  cbn [sortByTime foldr]. rewrite insertByTime_perm. now constructor.
Qed.

Lemma insertByTime_sorted (e : PixelEvent) (l : list PixelEvent) :
  StronglySorted earlier l -> StronglySorted earlier (insertByTime e l).
Proof.
  induction 1 as [|x l Hl IH Hx]; cbn [insertByTime].
  - repeat constructor.
  - destruct (N.leb_spec (ev_timestamp e) (ev_timestamp x)) as [Hle|Hgt].
    + constructor; [now constructor|]. constructor; [exact Hle|].
      eapply Forall_impl; [exact Hx|]. unfold earlier. intros; cbn in *; lia.
    + constructor; [exact IH|]. rewrite insertByTime_perm.
      constructor; [unfold earlier; lia | exact Hx].
Qed.

Lemma sortByTime_sorted (l : list PixelEvent) : StronglySorted earlier (sortByTime l).
Proof.
  induction l as [|e l IH]; [constructor|]. now apply insertByTime_sorted.
Qed.

(** [loadEvents] gives the events of the listing, in the order of their
    timestamps. *)
Lemma loadEvents_sorted (env : Env) (id : jsstring) :
  StronglySorted earlier (loadEvents env id) /\ loadEvents env id ≡ₚ listedEvents env id.
Proof.
  unfold loadEvents, listedEvents. split; [apply sortByTime_sorted|].
  rewrite sortByTime_perm. generalize (list_keys env (eventKeyPrefix id) 1000) as keys.
  induction keys as [|k keys IH]; [reflexivity|].
  cbn [map omap list_omap]. destruct (PIXIE_STORE env !! k) as [[m|e]|]; cbn; now rewrite ?IH.
Qed.

Lemma sanitizeMeta_fields (meta : PixelMeta) :
  jsonFields (json_of_safe (sanitizeMeta meta))
  = filter (fun kv => fst kv <> js "tokenHash") (jsonFields (json_of_meta meta)).
Proof.
  destruct meta as [i c l md h n t].
  unfold json_of_safe, json_of_meta, sanitizeMeta, jsonFields, optional.
  cbn [safe_id safe_createdAt safe_label safe_metadata safe_openCount safe_lastOpenedAt
       meta_id meta_createdAt meta_label meta_metadata meta_tokenHash meta_openCount
       meta_lastOpenedAt].
  generalize (json_of_instant c) (nullable l) (JNumber (Z.of_N n)) (JString i) (JString h).
  intros jc jl jn ji jh.
  destruct md as [md|]; [generalize (json_of_metadata md); intros jm|];
    (destruct t as [t|]; [generalize (json_of_instant t); intros jt|]);
    vm_compute; reflexivity.
Qed.

(** ** Opening a pixel (C5, C10) *)

(** C5: an open is answered by the same response whether the store has a
    [PixelMeta] for the id or not, the fixed image with the fixed headers
    (no body for HEAD), and without one the store is left as it was. *)
Theorem open_indistinguishable
    (p : Platform) (request request' : Request) (env : Env) (isHead : bool) (meta : PixelMeta) :
  loadMeta env (pixelId request) = Some meta ->
  loadMeta env (pixelId request') = None ->
  snd (servePixel p request env isHead) = snd (servePixel p request' env isHead)
  /\ status (snd (servePixel p request' env isHead)) = 200
  /\ response_headers (snd (servePixel p request' env isHead)) = pixelHeaders
  /\ body (snd (servePixel p request' env isHead))
     = (if isHead then BodyNull else BodyBytes TRANSPARENT_GIF)
  /\ fst (servePixel p request' env isHead) = env.
Proof.
  intros Hmeta Hnone. unfold servePixel. rewrite Hmeta, Hnone.
  destruct isHead; repeat split; reflexivity.
Qed.

Lemma open_indistinguishable_witness :
  snd (servePixel testPlatform pixelRequest createdEnv false)
  = snd (servePixel testPlatform (withPath pixelRequest (js "/pixel/ffffffffffffffffff.gif")) createdEnv false)
  /\ fst (servePixel testPlatform (withPath pixelRequest (js "/pixel/ffffffffffffffffff.gif")) createdEnv false)
     = createdEnv.
Proof.
  destruct (open_indistinguishable testPlatform pixelRequest
              (withPath pixelRequest (js "/pixel/ffffffffffffffffff.gif")) createdEnv false
              createdMeta createdMeta_loaded)
    as (Hsame & _ & _ & _ & Hstore); [vm_compute; reflexivity|].
  split; [exact Hsame | exact Hstore].
Defined.

Lemma stripGif_suffix (id suffix : jsstring) :
  map lowerAscii suffix = js ".gif" -> stripGif (id ++ suffix) = id.
Proof.
  intros H. unfold stripGif. rewrite map_app, H, endsWith_app.
  assert (Hlen : length suffix = 4%nat) by (rewrite <- (length_map lowerAscii), H; reflexivity).
  rewrite length_app, Hlen. apply take_app_length'. lia.
Qed.

Lemma stripGif_other (id : jsstring) :
  endsWith (map lowerAscii id) (js ".gif") = false -> stripGif id = id.
Proof. unfold stripGif. now intros ->. Qed.

Lemma firstSegment_appendLast (segments : list jsstring) (suffix : jsstring) :
  segments <> [] ->
  map lowerAscii suffix = js ".gif" ->
  endsWith (map lowerAscii (List.last segments [])) (js ".gif") = false ->
  firstSegment (appendLast segments suffix) = firstSegment segments.
Proof.
  intros Hne Hsuffix. unfold firstSegment.
  assert (Hs : suffix <> []) by (intros ->; discriminate).
  induction segments as [|seg rest IH]; [congruence|]. intros Hlast.
  destruct rest as [|seg' rest].
  - cbn [appendLast List.last] in *. rewrite !filter_cons, filter_nil.
    assert (Ht : truthy (seg ++ suffix) = true) by (destruct seg, suffix; simpl; congruence).
    destruct (decide (truthy (seg ++ suffix))) as [_|Hn]; [|rewrite Ht in Hn; now destruct Hn].
    cbn [head default from_option id]. rewrite stripGif_suffix by assumption.
    destruct (decide (truthy seg)); cbn [head default from_option id].
    + now rewrite stripGif_other.
    + destruct seg; [reflexivity | simpl in *; tauto].
  - change (appendLast (seg :: seg' :: rest) suffix) with (seg :: appendLast (seg' :: rest) suffix).
    rewrite !(filter_cons _ seg). destruct (decide (truthy seg)); [reflexivity|].
    apply IH; [congruence | exact Hlast].
Qed.

Lemma pathSegments_pixel (request : Request) (id : jsstring) :
  pathSegments (withPath request (js "/pixel/" ++ id))
  = js "pixel" :: filter (fun segment => truthy segment) (split (cu "/") id).
Proof.
  unfold pathSegments. cbn [pathname withPath].
  change (js "/pixel/" ++ id) with ([] ++ cu "/" :: js "pixel" ++ cu "/" :: id).
  rewrite (split_app _ []) by apply not_elem_of_nil.
  rewrite split_app by (apply (bool_decide_unpack _); vm_compute; exact I).
  reflexivity.
Qed.

Lemma pixelId_pixel (request : Request) (id : jsstring) :
  pixelId (withPath request (js "/pixel/" ++ id)) = firstSegment (split (cu "/") id).
Proof.
  unfold pixelId. rewrite pathSegments_pixel. unfold firstSegment.
  now destruct (filter _ (split (cu "/") id)).
Qed.

(** C10, as amended: for an id that does not itself end in [.gif], in any
    case of the letters, [/pixel/<id>] and [/pixel/<id>.gif] name the same
    pixel, and an open of one does what an open of the other does: the same
    store, the same response. *)
Theorem gif_suffix_same_pixel (id suffix : jsstring) :
  map lowerAscii suffix = js ".gif" ->
  endsWith (map lowerAscii id) (js ".gif") = false ->
  forall (p : Platform) (request : Request) (env : Env) (isHead : bool),
    pixelId (withPath request (js "/pixel/" ++ id ++ suffix))
    = pixelId (withPath request (js "/pixel/" ++ id))
    /\ servePixel p (withPath request (js "/pixel/" ++ id ++ suffix)) env isHead
       = servePixel p (withPath request (js "/pixel/" ++ id)) env isHead.
Proof.
  intros Hsuffix Hid p request env isHead.
  assert (Hsame : pixelId (withPath request (js "/pixel/" ++ id ++ suffix))
                  = pixelId (withPath request (js "/pixel/" ++ id))).
  { rewrite !pixelId_pixel.
    assert (Hslash : cu "/" ∉ suffix).
    { intros Hin%list_elem_of_In%(in_map lowerAscii). rewrite Hsuffix in Hin.
      vm_compute in Hin. intuition discriminate. }
    rewrite split_app_last by exact Hslash.
    apply firstSegment_appendLast; [apply split_nonempty | exact Hsuffix |].
    destruct (split_last_suffix (cu "/") id) as [before Hb].
    destruct (endsWith (map lowerAscii (List.last (split (cu "/") id) [])) (js ".gif")) eqn:E;
      [|reflexivity].
    rewrite Hb, map_app, (endsWith_longer _ _ _ E) in Hid. discriminate. }
  split; [exact Hsame|].
  unfold servePixel. rewrite Hsame. reflexivity.
Qed.

Lemma gif_suffix_same_pixel_witness :
  pixelId (withPath pixelRequest (js "/pixel/" ++ testId ++ js ".GIF"))
  = pixelId (withPath pixelRequest (js "/pixel/" ++ testId)).
Proof.
  apply (gif_suffix_same_pixel testId (js ".GIF") eq_refl eq_refl testPlatform pixelRequest testEnv false).
Defined.

(** C10 as stated fails for an id that ends in [.gif] itself: one suffix is
    taken off, and the two paths name two pixels. *)
Lemma gif_suffix_counterexample :
  pixelId (withPath pixelRequest (js "/pixel/" ++ js "a.gif")) = js "a"
  /\ pixelId (withPath pixelRequest (js "/pixel/" ++ js "a.gif" ++ js ".gif")) = js "a.gif"
  /\ pixelId (withPath pixelRequest (js "/pixel/" ++ js "a.gif"))
     <> pixelId (withPath pixelRequest (js "/pixel/" ++ js "a.gif" ++ js ".gif")).
Proof. vm_compute. repeat split; congruence. Qed.

(** ** Opening a pixel again and again (C2) *)

Lemma eventKey_prefix (p : Platform) (id : jsstring) :
  startsWith (eventKey p id) (eventKeyPrefix id) = true.
Proof. unfold eventKey. apply startsWith_app. Qed.

Lemma metaKey_not_event (id id' : jsstring) :
  startsWith (metaKey id) (eventKeyPrefix id') = false.
Proof. reflexivity. Qed.

(** The key of an event tells the clock and the random bytes it was made
    from. *)
Lemma eventKey_inj (id : jsstring) (p p' : Platform) :
  eventKey p id = eventKey p' id -> suffixSeed p = suffixSeed p'.
Proof.
  unfold eventKey, suffixSeed. intros H%app_inv_head.
  rewrite !(app_assoc (decimal _)) in H.
  apply app_inj_2 in H as [H1 H2]; [|now rewrite !randomHex_3_length].
  apply app_inj_2 in H1 as [H1 _]; [|reflexivity].
  apply decimal_inj in H1. apply randomHex_3_inj in H2. now rewrite H1, H2.
Qed.

(** And the other way round. *)
Lemma eventKey_seed (id : jsstring) (p p' : Platform) :
  suffixSeed p = suffixSeed p' -> eventKey p id = eventKey p' id.
Proof.
  unfold suffixSeed, eventKey. intros [= Hnow H0 H1 H2].
  rewrite !randomHex_3, Hnow, H0, H1, H2. reflexivity.
Qed.

Lemma size_list_to_set_le (l : list (list N)) :
  (size (list_to_set l : gset (list N)) <= length l)%nat.
Proof.
  induction l as [|y l IH]; [now rewrite list_to_set_nil, size_empty|].
  rewrite list_to_set_cons, size_union_alt, size_singleton. cbn [length].
  pose proof (subseteq_size (list_to_set l ∖ {[y]}) (list_to_set l : gset (list N))
                (subseteq_difference_l _ _ _ (reflexivity _))). lia.
Qed.

(** A list with a repetition has fewer elements as a set. *)
Lemma size_list_to_set_NoDup (l : list (list N)) :
  size (list_to_set l : gset (list N)) = length l -> NoDup l.
Proof.
  induction l as [|x l IH]; [constructor|].
  rewrite list_to_set_cons. cbn [length]. intros Hsize.
  pose proof (size_list_to_set_le l) as Hle.
  destruct (decide (x ∈ l)) as [Hin | Hnotin].
  - exfalso. rewrite (subseteq_union_1_L {[x]} (list_to_set l)) in Hsize by set_solver. lia.
  - constructor; [exact Hnotin|]. apply IH.
    rewrite size_union, size_singleton in Hsize by set_solver. lia.
Qed.

(** The keys of the opens are distinct exactly when their seeds are. *)
Lemma eventKeys_NoDup (id : jsstring) (opens : list Open) :
  NoDup (map (fun o => eventKey (open_platform o) id) opens)
  <-> NoDup (map (fun o => suffixSeed (open_platform o)) opens).
Proof.
  induction opens as [|o opens IH]; cbn [map]; [split; constructor|].
  rewrite !NoDup_cons, IH. split; intros [Hnotin Hnodup]; (split; [|exact Hnodup]);
    intros Hin; apply Hnotin; apply list_elem_of_fmap in Hin as (o' & Heq & Ho');
    apply list_elem_of_fmap; exists o'; (split; [|exact Ho']).
  - now apply eventKey_seed.
  - now apply (eventKey_inj id).
Qed.

Lemma servePixel_found (p : Platform) (request : Request) (env : Env) (isHead : bool)
    (meta : PixelMeta) :
  loadMeta env (pixelId request) = Some meta ->
  let id := pixelId request in
  let env' := fst (servePixel p request env isHead) in
  (exists meta', loadMeta env' id = Some meta'
                 /\ meta_openCount meta' = meta_openCount meta + 1
                 /\ meta_lastOpenedAt meta' = Some (newDate p))
  /\ records_under (eventKeyPrefix id) env'
     = <[eventKey p id := StoredEvent (buildEventRecord p request)]>
         (records_under (eventKeyPrefix id) env).
Proof.
  intros Hmeta id env'. subst id env'. unfold servePixel. rewrite Hmeta.
  assert (Hfst : forall (b : bool) (e : Env) (r r' : Response),
             fst (if b then (e, r) else (e, r')) = e) by (now intros []).
  rewrite Hfst. split.
  - eexists. split; [unfold loadMeta, put; cbn [PIXIE_STORE]; now rewrite lookup_insert_eq|].
    split; reflexivity.
  - unfold records_under, storeEvent, put. cbn [PIXIE_STORE].
    rewrite map_filter_insert_not by (intros y; cbn [fst]; now rewrite metaKey_not_event).
    rewrite map_filter_insert_True by (cbn [fst]; now rewrite eventKey_prefix).
    reflexivity.
Qed.

Lemma openAll_invariant (id : jsstring) (opens : list Open) :
  Forall (fun o => pixelId (open_request o) = id) opens ->
  forall (env : Env) (meta : PixelMeta),
    loadMeta env id = Some meta ->
    (exists meta', loadMeta (openAll env opens) id = Some meta'
                   /\ meta_openCount meta' = meta_openCount meta + N.of_nat (length opens))
    /\ dom (records_under (eventKeyPrefix id) (openAll env opens))
       = dom (records_under (eventKeyPrefix id) env)
           ∪ list_to_set (map (fun o => eventKey (open_platform o) id) opens).
Proof.
  induction 1 as [|o opens Ho _ IH]; intros env meta Hmeta.
  - split; [exists meta; split; [exact Hmeta | cbn; lia]|].
    cbn. set_solver.
  - cbn [openAll foldl]. rewrite <- Ho in Hmeta.
    destruct (servePixel_found (open_platform o) (open_request o) env (open_isHead o) meta Hmeta)
      as ((meta1 & Hmeta1 & Hcount1 & _) & Hrecords).
    rewrite Ho in Hmeta1, Hrecords.
    destruct (IH _ _ Hmeta1) as ((meta' & Hmeta' & Hcount') & Hdom).
    split.
    + exists meta'. split; [exact Hmeta'|]. rewrite Hcount', Hcount1. cbn [length]. lia.
    + unfold openAll in Hdom. rewrite Hdom, Hrecords, dom_insert_L. cbn [map].
      rewrite list_to_set_cons. set_solver.
Qed.

(** C2, as amended: after N opens of a freshly created pixel, one after the
    other, the stored [openCount] is N, and the records under
    [events:<id>:] are at most N: exactly N when, and only when, no two
    opens got the same clock reading and the same three random bytes (the
    key of an event is made of nothing else, and a second event under the
    same key replaces the first). *)
Theorem sequential_opens (id : jsstring) (env : Env) (meta : PixelMeta) (opens : list Open) :
  loadMeta env id = Some meta ->
  meta_openCount meta = 0 ->
  records_under (eventKeyPrefix id) env = ∅ ->
  Forall (fun o => pixelId (open_request o) = id) opens ->
  (exists meta', loadMeta (openAll env opens) id = Some meta'
                 /\ meta_openCount meta' = N.of_nat (length opens))
  /\ (size (records_under (eventKeyPrefix id) (openAll env opens)) <= length opens)%nat
  /\ (size (records_under (eventKeyPrefix id) (openAll env opens)) = length opens
      <-> NoDup (map (fun o => suffixSeed (open_platform o)) opens)).
Proof.
  intros Hmeta Hzero Hfresh Hopens.
  destruct (openAll_invariant id opens Hopens env meta Hmeta) as ((meta' & Hmeta' & Hcount) & Hdom).
  rewrite Hfresh, dom_empty_L, union_empty_l_L in Hdom.
  split; [exists meta'; split; [exact Hmeta' | rewrite Hcount, Hzero; lia]|].
  rewrite <- size_dom, Hdom, <- eventKeys_NoDup.
  rewrite <- (length_map (fun o => eventKey (open_platform o) id) opens).
  split; [apply size_list_to_set_le|]. split.
  - apply size_list_to_set_NoDup.
  - apply size_list_to_set.
Qed.

Lemma sequential_opens_witness :
  (exists meta', loadMeta (openAll createdEnv [firstOpen; laterOpen]) testId = Some meta'
                 /\ meta_openCount meta' = 2)
  /\ size (records_under (eventKeyPrefix testId) (openAll createdEnv [firstOpen; laterOpen])) = 2%nat.
Proof.
  destruct (sequential_opens testId createdEnv createdMeta [firstOpen; laterOpen])
    as (Hcount & _ & Hrecords).
  - exact createdMeta_loaded.
  - reflexivity.
  - vm_compute. reflexivity.
  - repeat constructor; vm_compute; reflexivity.
  - split; [exact Hcount|]. apply Hrecords.
    apply (bool_decide_unpack _). vm_compute. exact I.
Defined.

(** C2 as stated fails: two opens that get the same clock reading and the
    same random bytes write under one key; the counter says two, the store
    has one event. *)
Lemma sequential_opens_counterexample :
  loadMeta createdEnv testId = Some createdMeta
  /\ meta_openCount createdMeta = 0
  /\ records_under (eventKeyPrefix testId) createdEnv = ∅
  /\ (meta_openCount <$> loadMeta (openAll createdEnv [firstOpen; firstOpen]) testId) = Some 2
  /\ size (records_under (eventKeyPrefix testId) (openAll createdEnv [firstOpen; firstOpen])) = 1%nat
  /\ size (records_under (eventKeyPrefix testId) (openAll createdEnv [firstOpen; firstOpen])) <> 2%nat.
Proof. vm_compute. repeat split; congruence. Qed.

(** ** Creation (C8, C3) *)

(** C8: a body that is not JSON does not make creation fail: the store and
    the response are those of the same request with the empty payload, the
    stored [PixelMeta] has a null label and no metadata, and the response is
    the 201 of any well-formed creation. *)
Theorem create_unparseable_body (p : Platform) (request : Request) (env : Env) :
  body_json request = None ->
  createPixel p request env = createPixel p (withBody request (Some emptyPayload)) env
  /\ (exists meta,
         loadMeta (fst (createPixel p request env)) (fst (randomHex 9 (random p))) = Some meta
         /\ meta_label meta = None /\ meta_metadata meta = None)
  /\ status (snd (createPixel p request env)) = 201
  /\ forall payload,
      snd (createPixel p request env) = snd (createPixel p (withBody request (Some payload)) env).
Proof.
  intros Hbody. unfold createPixel, safeJson. rewrite Hbody. cbn [body_json withBody].
  destruct (randomHex 9 (random p)) as [id rng] eqn:Eid.
  destruct (randomHex 16 rng) as [accessToken rest].
  repeat split.
  - eexists. split;
      [unfold loadMeta, put; cbn [PIXIE_STORE fst]; rewrite lookup_insert_eq; reflexivity
      |split; reflexivity].
Qed.

Lemma create_unparseable_body_witness :
  createPixel testPlatform (withBody createRequest None) testEnv
  = createPixel testPlatform (withBody createRequest (Some emptyPayload)) testEnv.
Proof. apply (create_unparseable_body testPlatform (withBody createRequest None) testEnv). reflexivity. Defined.

Lemma occurs_length (t s : jsstring) : occurs t s -> (length t <= length s)%nat.
Proof. intros (b & a & ->). rewrite !length_app. lia. Qed.

Lemma occurs_nil (t : jsstring) : occurs t [] -> t = [].
Proof. intros H%occurs_length. destruct t; [reflexivity | simpl in H; lia]. Qed.

Lemma occurs_split (t a : jsstring) (c : N) (b : jsstring) :
  c ∉ t -> occurs t (a ++ c :: b) -> occurs t a \/ occurs t b.
Proof.
  intros Hc (x & y & H).
  apply app_eq_app in H as [l [[Ha Hty] | [Hx Hcb]]].
  - apply app_eq_app in Hty as [l' [[Ht Hcb] | [Hl Hy]]].
    + destruct l' as [|c' l''].
      * left. exists x, []. rewrite app_nil_r in Ht. subst. now rewrite app_nil_r.
      * injection Hcb as <- _. exfalso. apply Hc. rewrite Ht. set_solver.
    + left. exists x, l'. subst. reflexivity.
  - destruct l as [|c' l'].
    + cbn in Hcb. destruct t as [|c' t']; [left; exists a, []; now rewrite app_nil_r|].
      injection Hcb as <- _. exfalso. apply Hc. set_solver.
    + injection Hcb as _ ->. right. now exists l', y.
Qed.

Lemma occurs_cons (t : jsstring) (c : N) (b : jsstring) :
  t <> [] -> c ∉ t -> occurs t (c :: b) -> occurs t b.
Proof.
  intros Ht Hc H. apply (occurs_split t [] c b Hc) in H as [H%occurs_nil | H]; congruence.
Qed.

Lemma occurs_snoc (t a : jsstring) (c : N) :
  t <> [] -> c ∉ t -> occurs t (a ++ [c]) -> occurs t a.
Proof.
  intros Ht Hc H. apply (occurs_split t a c [] Hc) in H as [H | H%occurs_nil]; congruence.
Qed.

Lemma occurs_join (t : jsstring) (c : N) (members : list jsstring) :
  t <> [] -> c ∉ t -> occurs t (join [c] members) -> exists m, m ∈ members /\ occurs t m.
Proof.
  intros Ht Hc. induction members as [|m rest IH]; cbn [join].
  - intros H%occurs_nil. congruence.
  - destruct rest as [|m' rest].
    + intros H. exists m. split; [set_solver | exact H].
    + intros [H | H]%occurs_split; [| |exact Hc].
      * exists m. split; [set_solver | exact H].
      * destruct (IH H) as (m0 & Hin & Hm0). exists m0. split; [set_solver | exact Hm0].
Qed.

(** A text without the punctuation of JSON that occurs in the text of an
    object occurs in a key or in the text of a value. *)
Lemma occurs_object (t : jsstring) (fields : list (jsstring * json)) :
  t <> [] -> dquote ∉ t -> cu ":" ∉ t -> cu "," ∉ t -> cu "{" ∉ t -> cu "}" ∉ t ->
  occurs t (JSON_stringify 0 (JObject fields)) ->
  exists k v, (k, v) ∈ fields /\ (occurs t (quoteChars k) \/ occurs t (JSON_stringify 0 v)).
Proof.
  intros Ht Hq Hcolon Hcomma Hopen Hclose.
  unfold JSON_stringify. cbn [Nat.min replicate serializeJSON app truthy].
  unfold wrapJSON. cbn [truthy].
  destruct (map _ fields) as [|m0 ms] eqn:Emap.
  - intros H. apply occurs_cons in H; [|assumption..].
    apply (occurs_snoc t []) in H; [|assumption..]. apply occurs_nil in H. congruence.
  - rewrite <- Emap. clear m0 ms Emap. intros H.
    apply occurs_cons in H; [|assumption..]. apply occurs_snoc in H; [|assumption..].
    apply occurs_join in H as (m & Hin & Hm); [|assumption..].
    apply list_elem_of_fmap in Hin as ([k v] & -> & Hkv). exists k, v. split; [exact Hkv|].
    cbn [fst snd] in Hm. unfold QuoteJSONString in Hm. cbn [app] in Hm.
    apply occurs_cons in Hm; [|assumption..]. rewrite <- app_assoc in Hm. cbn [app] in Hm.
    apply occurs_split in Hm as [Hm | Hm]; [now left | | assumption].
    apply occurs_cons in Hm; [|assumption..]. now right.
Qed.

Lemma occurs_string (t s : jsstring) :
  t <> [] -> dquote ∉ t -> occurs t (JSON_stringify 0 (JString s)) -> occurs t (quoteChars s).
Proof.
  intros Ht Hq H. unfold JSON_stringify in H. cbn [serializeJSON] in H.
  unfold QuoteJSONString in H. cbn [app] in H.
  apply occurs_cons in H; [|assumption..]. now apply occurs_snoc in H.
Qed.

Lemma quoteChars_hex (s : jsstring) : Forall isHexDigit s -> quoteChars s = s.
Proof.
  induction 1 as [|c s Hc _ IH]; [reflexivity|]. cbn [quoteChars]. rewrite IH.
  unfold isHexDigit in Hc. unfold isHighSurrogate, isLowSurrogate, dquote, backslash.
  repeat match goal with
         | |- context [?a =? ?b] => destruct (N.eqb_spec a b); [lia|]
         | |- context [?a <? ?b] => destruct (N.ltb_spec a b); [lia|]
         | |- context [?a <=? ?b] => destruct (N.leb_spec a b); [|cbn [andb]]
         end; try lia; reflexivity.
Qed.

Lemma hex_avoids (c : N) (s : jsstring) : ~ isHexDigit c -> Forall isHexDigit s -> c ∉ s.
Proof. intros Hc Hs Hin. apply Hc. rewrite Forall_forall in Hs. now apply Hs. Qed.

Lemma hex_separators (s : jsstring) :
  Forall isHexDigit s ->
  (dquote ∉ s) /\ (cu ":" ∉ s) /\ (cu "," ∉ s) /\ (cu "{" ∉ s) /\ (cu "}" ∉ s).
Proof.
  intros Hs. repeat split; (apply hex_avoids; [|exact Hs]); unfold isHexDigit; vm_compute;
    intuition congruence.
Qed.

(** C3, as amended: the digest of the token in the creation response is the
    [tokenHash] of the stored [PixelMeta], and the token is not written into
    the stored text as a value of its own: it occurs there only if the JSON
    text of [createdAt], of the label or of the metadata has it, or its own
    digest has. *)
Theorem create_token_hash (p : Platform) (request : Request) (env : Env) :
  let token := createdToken p in
  let payload := default emptyPayload (safeJson request) in
  exists meta others,
    PIXIE_STORE (fst (createPixel p request env)) !! metaKey (createdId p) = Some (StoredMeta meta)
    /\ snd (createPixel p request env)
       = jsonResponse (JObject (others ++ [(js "accessToken", JString token)])) 201 (Some request)
    /\ sha256Hex token = meta_tokenHash meta
    /\ (occurs token (stored_text (StoredMeta meta)) ->
        occurs token (JSON_stringify 0 (json_of_instant (newDate p)))
        \/ occurs token (JSON_stringify 0 (nullable (payload_label payload)))
        \/ (exists metadata, payload_metadata payload = Some metadata
                             /\ occurs token (JSON_stringify 0 (json_of_metadata metadata)))
        \/ occurs token (sha256Hex token)).
Proof.
  intros token payload.
  destruct (randomHex_hex 16 (snd (randomHex 9 (random p)))) as [Hhex Hlen].
  destruct (randomHex_hex 9 (random p)) as [Hidhex Hidlen].
  fold (createdToken p) in Hhex, Hlen. fold (createdId p) in Hidhex, Hidlen. fold token in Hhex, Hlen.
  assert (Hne : token <> []) by (intros E; rewrite E in Hlen; discriminate).
  exists {| meta_id := createdId p; meta_createdAt := newDate p;
            meta_label := payload_label payload; meta_metadata := payload_metadata payload;
            meta_tokenHash := sha256Hex token; meta_openCount := 0;
            meta_lastOpenedAt := None |},
         [(js "id", JString (createdId p));
          (js "createdAt", json_of_instant (newDate p));
          (js "pixelUrl", JString (origin request ++ js "/pixel/" ++ createdId p ++ js ".gif"));
          (js "eventsUrl", JString (origin request ++ js "/api/pixels/" ++ createdId p
                                    ++ js "?token=" ++ token))].
  split; [|split; [|split]].
  - unfold createPixel, createdId, token, createdToken, payload.
    destruct (randomHex 9 (random p)) as [id rng]. cbn [fst snd].
    destruct (randomHex 16 rng) as [accessToken rest]. cbn [fst snd put PIXIE_STORE].
    apply lookup_insert_eq.
  - unfold createPixel, createdId, token, createdToken, payload.
    destruct (randomHex 9 (random p)) as [id rng]. cbn [fst snd].
    destruct (randomHex 16 rng) as [accessToken rest]. reflexivity.
  - reflexivity.
  - cbn [stored_text]. intros Hocc.
    destruct (hex_separators token Hhex) as (Hq & Hcolon & Hcomma & Hopen & Hclose).
    apply occurs_object in Hocc as (k & v & Hin & Hkv); try assumption.
    assert (Hshort : forall s : jsstring, (length s <? 32)%nat = true -> ~ occurs token s).
    { intros s Hs%Nat.ltb_lt Ho%occurs_length. rewrite Hlen in Ho. clear -Hs Ho. lia. }
    assert (Hkey : forall key : jsstring,
               (length (quoteChars key) <? 32)%nat = true -> k = key ->
               occurs token (JSON_stringify 0 v)).
    { intros key Hk ->. destruct Hkv as [Hkv | Hv]; [now apply Hshort in Hkv | exact Hv]. }
    unfold json_of_meta in Hin.
    cbn [meta_id meta_createdAt meta_label meta_metadata meta_tokenHash meta_openCount
         meta_lastOpenedAt optional app] in Hin.
    rewrite !elem_of_cons, elem_of_app, !elem_of_cons, !elem_of_nil in Hin.
    destruct Hin as [[= Hk ->] | [[= Hk ->] | [[= Hk ->] | [Hin | [[= Hk ->] | [[= Hk ->] | []]]]]]].
    + apply Hkey in Hk; [|reflexivity]. exfalso.
      apply occurs_string in Hk; [|assumption..]. revert Hk. apply Hshort.
      rewrite quoteChars_hex by exact Hidhex. rewrite Hidlen. reflexivity.
    + apply Hkey in Hk; [|reflexivity]. now left.
    + apply Hkey in Hk; [|reflexivity]. right. now left.
    + destruct (payload_metadata payload) as [metadata|] eqn:Emd.
      * apply list_elem_of_singleton in Hin as [= Hk ->].
        apply Hkey in Hk; [|reflexivity].
        right. right. left. exists metadata. split; [reflexivity | exact Hk].
      * now apply elem_of_nil in Hin.
    + apply Hkey in Hk; [|reflexivity]. right. right. right.
      apply occurs_string in Hk; [|assumption..].
      now rewrite quoteChars_hex in Hk by apply sha256Hex_hex.
    + apply Hkey in Hk; [|reflexivity]. exfalso. revert Hk. now apply Hshort.
Qed.

Lemma labelledMeta_stored :
  PIXIE_STORE (fst (createPixel testPlatform labelledRequest testEnv)) !! metaKey (createdId testPlatform)
  = Some (StoredMeta labelledMeta).
Proof. vm_compute. reflexivity. Qed.

Lemma create_token_hash_witness :
  sha256Hex (createdToken testPlatform) = testHash
  /\ (occurs (createdToken testPlatform)
        (JSON_stringify 0 (json_of_instant (newDate testPlatform)))
      \/ occurs (createdToken testPlatform)
           (JSON_stringify 0
              (nullable (payload_label (default emptyPayload (safeJson labelledRequest)))))
      \/ (exists metadata,
             payload_metadata (default emptyPayload (safeJson labelledRequest)) = Some metadata
             /\ occurs (createdToken testPlatform) (JSON_stringify 0 (json_of_metadata metadata)))
      \/ occurs (createdToken testPlatform) (sha256Hex (createdToken testPlatform))).
Proof.
  destruct (create_token_hash testPlatform labelledRequest testEnv)
    as (meta & others & Hstored & _ & Hhash & Hocc).
  rewrite labelledMeta_stored in Hstored. injection Hstored as <-.
  split; [exact Hhash|].
  apply Hocc. apply includes_occurs. vm_compute. reflexivity.
Defined.

(** C3 as stated fails for such a payload: the stored text has the raw
    token, in the label. *)
Lemma create_token_in_label_counterexample :
  createdToken testPlatform = testToken
  /\ PIXIE_STORE (fst (createPixel testPlatform labelledRequest testEnv)) !! metaKey testId
     = Some (StoredMeta labelledMeta)
  /\ occurs testToken (stored_text (StoredMeta labelledMeta)).
Proof.
  split; [vm_compute; reflexivity|]. split; [vm_compute; reflexivity|].
  apply includes_occurs. vm_compute. reflexivity.
Qed.

(** ** What a report shows of the hash (C6) *)

Lemma occurs_inside (t x before after : jsstring) :
  occurs t x -> occurs t (before ++ x ++ after).
Proof.
  intros (b & a & ->). exists (before ++ b), (a ++ after). now rewrite <- !app_assoc.
Qed.

Lemma occurs_within (t x y : jsstring) : occurs t x -> occurs x y -> occurs t y.
Proof. intros Ht (b & a & ->). now apply occurs_inside. Qed.

(** A text that is not empty does not start, or end, in code units it does
    not have. *)
Lemma occurs_skip (t sep rest : jsstring) :
  t <> [] -> Forall (fun c => c ∉ t) sep -> occurs t (sep ++ rest) -> occurs t rest.
Proof.
  intros Ht Hsep. induction Hsep as [|c sep Hc _ IH]; [exact (fun H => H)|].
  intros H. apply IH. now apply (occurs_cons t c).
Qed.

Lemma occurs_drop (t before sep : jsstring) :
  t <> [] -> Forall (fun c => c ∉ t) sep -> occurs t (before ++ sep) -> occurs t before.
Proof.
  intros Ht Hsep. destruct Hsep as [|c sep Hc Hsep]; [now rewrite app_nil_r|].
  intros [H | H]%occurs_split; [exact H | | exact Hc].
  rewrite <- (app_nil_r sep) in H. apply occurs_skip, occurs_nil in H; congruence.
Qed.

Lemma occurs_joined (t sep : jsstring) (members : list jsstring) :
  t <> [] -> sep <> [] -> Forall (fun c => c ∉ t) sep ->
  occurs t (join sep members) -> exists m, m ∈ members /\ occurs t m.
Proof.
  intros Ht Hne Hsep. induction members as [|m rest IH]; cbn [join].
  - intros H%occurs_nil. congruence.
  - destruct rest as [|m' rest].
    + intros H. exists m. split; [left | exact H].
    + destruct sep as [|c sep]; [congruence|]. apply Forall_cons in Hsep as [Hc Hsep'].
      cbn [app]. intros [H | H]%occurs_split; [| |exact Hc].
      * exists m. split; [left | exact H].
      * apply occurs_skip in H; [|assumption..].
        destruct (IH H) as (m0 & Hin & Hm0). exists m0. split; [now right | exact Hm0].
Qed.

Lemma member_joined (sep m : jsstring) (members : list jsstring) :
  m ∈ members -> occurs m (join sep members).
Proof.
  induction members as [|x rest IH]; [intros H; now apply elem_of_nil in H|].
  intros [-> | Hin]%elem_of_cons.
  - destruct rest as [|x' rest]; [exists [], []; cbn; now rewrite app_nil_r|].
    exists [], (sep ++ join sep (x' :: rest)). reflexivity.
  - destruct rest as [|x' rest]; [now apply elem_of_nil in Hin|].
    change (join sep (x :: x' :: rest)) with (x ++ sep ++ join sep (x' :: rest)).
    rewrite app_assoc, <- (app_nil_r (join sep (x' :: rest))). apply occurs_inside. now apply IH.
Qed.

(** A text of hexadecimal digits has none of the code units JSON and CSV
    put between their values. *)
Lemma hex_punctuation (t : jsstring) :
  Forall isHexDigit t ->
  Forall (fun c => c ∉ t)
         [dquote; cu ":"; cu ","; cu "{"; cu "}"; cu "["; cu "]"; cu " "; LF].
Proof.
  intros Ht. repeat constructor; (apply hex_avoids; [|exact Ht]); unfold isHexDigit;
    vm_compute; intuition congruence.
Qed.

Ltac punctuation Ht :=
  let Hp := fresh "Hp" in
  pose proof (hex_punctuation _ Ht) as Hp;
  repeat (let H := fresh "Hpunct" in apply Forall_cons in Hp as [H Hp]); clear Hp.

Lemma spaces_avoided (t s : jsstring) :
  Forall isHexDigit t -> Forall (fun c => c = cu " ") s -> Forall (fun c => c ∉ t) s.
Proof.
  intros Ht Hs. punctuation Ht. eapply Forall_impl; [exact Hs|]. now intros c ->.
Qed.

(** A text of hexadecimal digits that occurs between the brackets of an
    array or of an object occurs in one of the members. *)
Lemma occurs_wrapJSON (t : jsstring) (opening closing : N) (gap indent : jsstring)
    (members : list jsstring) :
  t <> [] -> Forall isHexDigit t ->
  opening ∉ t -> closing ∉ t ->
  Forall (fun c => c = cu " ") gap -> Forall (fun c => c = cu " ") indent ->
  occurs t (wrapJSON opening closing gap indent members) ->
  exists m, m ∈ members /\ occurs t m.
Proof.
  intros Hne Ht Hopen Hclose Hgap Hindent. punctuation Ht.
  pose proof (spaces_avoided t gap Ht Hgap) as Hg.
  pose proof (spaces_avoided t indent Ht Hindent) as Hi.
  unfold wrapJSON. destruct members as [|m0 ms] eqn:E.
  - intros H. apply occurs_cons, occurs_cons, occurs_nil in H; congruence.
  - rewrite <- E. clear E m0 ms. destruct (truthy gap).
    + intros H. apply occurs_skip in H; [|exact Hne | now repeat constructor].
      apply occurs_skip in H; [|exact Hne | now apply Forall_app].
      rewrite !app_assoc in H. apply occurs_drop in H; [|exact Hne | now repeat constructor].
      apply occurs_drop in H; [|exact Hne | exact Hi].
      apply occurs_drop in H; [|exact Hne | now repeat constructor].
      apply occurs_joined in H; [exact H | exact Hne | discriminate|].
      constructor; [assumption|]. constructor; [assumption|]. now apply Forall_app.
    + intros H. apply occurs_skip in H; [|exact Hne | now repeat constructor].
      apply occurs_drop in H; [|exact Hne | now repeat constructor].
      apply occurs_joined in H; [exact H | exact Hne | discriminate|].
      now repeat constructor.
Qed.

Lemma member_wrapJSON (opening closing : N) (gap indent m : jsstring)
    (members : list jsstring) :
  m ∈ members -> occurs m (wrapJSON opening closing gap indent members).
Proof.
  intros Hin. unfold wrapJSON.
  destruct members as [|m0 ms] eqn:E; [now apply elem_of_nil in Hin|].
  rewrite <- E in *. clear E m0 ms. destruct (truthy gap).
  - rewrite (app_assoc [opening; LF]). apply occurs_inside. now apply member_joined.
  - apply occurs_inside. now apply member_joined.
Qed.

(** Induction on a JSON value, with its items and the values of its
    properties. *)
Lemma json_induction (P : json -> Prop) :
  P JNull -> (forall b, P (JBool b)) -> (forall z, P (JNumber z)) -> (forall s, P (JString s)) ->
  (forall items, Forall P items -> P (JArray items)) ->
  (forall fields, Forall (fun kv => P (snd kv)) fields -> P (JObject fields)) ->
  forall v, P v.
Proof.
  intros Hnull Hbool Hnumber Hstring Harray Hobject. fix IH 1.
  intros [|b|z|s|items|fields]; [exact Hnull | apply Hbool | apply Hnumber | apply Hstring | |].
  - apply Harray. induction items as [|item items IHitems]; constructor; [apply IH | exact IHitems].
  - apply Hobject. induction fields as [|[k v] fields IHfields]; constructor;
      [apply IH | exact IHfields].
Qed.

(** What a text of hexadecimal digits needs to occur in the text of a
    property. *)
Lemma occurs_property (t key : jsstring) (sep value : jsstring) :
  t <> [] -> Forall isHexDigit t -> Forall (fun c => c = cu " ") sep ->
  occurs t (QuoteJSONString key ++ js ":" ++ sep ++ value) ->
  occurs t (quoteChars key) \/ occurs t value.
Proof.
  intros Hne Ht Hsep. unfold QuoteJSONString. rewrite <- !app_assoc. cbn [app].
  punctuation Ht.
  intros H. apply occurs_cons in H; [|assumption..].
  apply occurs_split in H as [H | H]; [now left | | assumption].
  right. apply occurs_cons in H; [|assumption..].
  apply occurs_skip in H; [exact H | exact Hne | now apply spaces_avoided].
Qed.

Lemma property_occurs (t key sep value : jsstring) :
  occurs t (quoteChars key) \/ occurs t value ->
  occurs t (QuoteJSONString key ++ js ":" ++ sep ++ value).
Proof.
  unfold QuoteJSONString. intros [H | H].
  - rewrite <- !app_assoc. now apply occurs_inside.
  - rewrite !app_assoc, <- (app_nil_r value). now apply occurs_inside.
Qed.

(** A text of hexadecimal digits that occurs in the indented text of a
    value occurs in its text without spaces. *)
Lemma occurs_compact (t : jsstring) :
  t <> [] -> Forall isHexDigit t ->
  forall (v : json) (gap indent : jsstring),
    Forall (fun c => c = cu " ") gap -> Forall (fun c => c = cu " ") indent ->
    occurs t (serializeJSON gap indent v) -> occurs t (JSON_stringify 0 v).
Proof.
  intros Hne Ht. punctuation Ht. unfold JSON_stringify. cbn [Nat.min replicate].
  induction v as [|b|z|s|items IH|fields IH] using json_induction; intros gap indent Hgap Hindent;
    try (destruct b); try (exact (fun H => H)).
  - cbn [serializeJSON]. intros H.
    apply occurs_wrapJSON in H as (m & Hin & Hm); try assumption.
    apply list_elem_of_fmap in Hin as (item & -> & Hitem).
    rewrite Forall_forall in IH.
    apply (IH item Hitem) in Hm; [|exact Hgap | now apply Forall_app].
    eapply occurs_within; [exact Hm|]. apply member_wrapJSON.
    apply list_elem_of_fmap. now exists item.
  - cbn [serializeJSON]. intros H.
    apply occurs_wrapJSON in H as (m & Hin & Hm); try assumption.
    apply list_elem_of_fmap in Hin as ([k v] & -> & Hkv). cbn [fst snd] in Hm.
    rewrite Forall_forall in IH.
    apply occurs_property in Hm; [|assumption.. | destruct (truthy gap); repeat constructor].
    eapply occurs_within; [|apply member_wrapJSON, list_elem_of_fmap; exists (k, v);
                             split; [reflexivity | exact Hkv]].
    cbn [fst snd truthy]. apply property_occurs.
    destruct Hm as [Hm | Hm]; [now left | right].
    apply (IH (k, v) Hkv) in Hm; [exact Hm | exact Hgap | now apply Forall_app].
Qed.

(** The names of the properties and of the columns of a report are shorter
    than a digest. *)
Lemma safe_keys_short (meta : PixelMeta) (key : jsstring) (value : json) :
  (key, value) ∈ jsonFields (json_of_safe (sanitizeMeta meta)) ->
  (length (quoteChars key) <? 64)%nat = true.
Proof.
  unfold json_of_safe, jsonFields, optional.
  destruct (safe_metadata (sanitizeMeta meta)), (safe_lastOpenedAt (sanitizeMeta meta));
    cbn [app]; intros Hin;
    repeat (apply elem_of_cons in Hin as [[= -> _] | Hin]; [reflexivity|]);
    now apply elem_of_nil in Hin.
Qed.

(** C6, as amended: an authorized report is answered 200 with a body that
    does not read the stored [tokenHash]: the JSON body is the [PixelMeta]
    without its [tokenHash] property, every other property kept, and the
    events of the listing in the order of their timestamps; the CSV body is the line of
    the fixed columns and one line of these columns per event. Either body
    is the same whatever the stored [tokenHash] is. The text of the hash
    occurs in a JSON body only inside the text of another property of the
    [PixelMeta] or inside the text of an event, and in a CSV body only
    inside a column of the line of an event. *)
Theorem report_without_tokenHash (request : Request) (env : Env) (id : jsstring)
    (meta : PixelMeta) :
  pathSegments request !! 2%nat = Some id ->
  loadMeta env id = Some meta ->
  goodToken request meta ->
  let events := loadEvents env id in
  let csv := bool_decide (searchParams_get request (js "format") = Some (js "csv")) in
  let hash := meta_tokenHash meta in
  status (getPixelReport request env) = 200
  /\ body (getPixelReport request env)
     = BodyText (if csv then buildCsv meta events
                 else JSON_stringify 2
                        (JObject [(js "meta", json_of_safe (sanitizeMeta meta));
                                  (js "events", JArray (map json_of_event events))]))
  /\ jsonFields (json_of_safe (sanitizeMeta meta))
     = filter (fun kv => fst kv <> js "tokenHash") (jsonFields (json_of_meta meta))
  /\ StronglySorted earlier events
  /\ events ≡ₚ listedEvents env id
  /\ buildCsv meta events
     = join [LF] (join (js ",") csvHeaders :: map (fun e => join (js ",") (csvRow e)) events)
  /\ (forall other,
         buildCsv (withTokenHash meta other) events = buildCsv meta events
         /\ json_of_safe (sanitizeMeta (withTokenHash meta other))
            = json_of_safe (sanitizeMeta meta))
  /\ (occurs hash (bodyText (getPixelReport request env)) ->
      if csv
      then exists event column,
             event ∈ events /\ column ∈ csvRow event /\ occurs hash column
      else (exists key value,
               (key, value) ∈ jsonFields (json_of_meta meta) /\ key <> js "tokenHash"
               /\ occurs hash (JSON_stringify 0 value))
           \/ (exists event,
                  event ∈ events /\ occurs hash (JSON_stringify 0 (json_of_event event)))).
Proof.
  intros Hid Hmeta (token & Htoken & Hnonempty & Hhash) events csv hash.
  assert (Hreport : getPixelReport request env
                    = if csv
                      then {| status := 200;
                              response_headers :=
                                [(js "content-type", js "text/csv;charset=utf-8");
                                 (js "content-disposition",
                                  js "attachment; filename=" ++ [dquote] ++ id
                                  ++ js "-events.csv" ++ [dquote])]
                                ++ corsHeaders (Some request);
                              body := BodyText (buildCsv meta events) |}
                      else jsonResponse
                             (JObject [(js "meta", json_of_safe (sanitizeMeta meta));
                                       (js "events", JArray (map json_of_event events))])
                             200 (Some request)).
  { unfold getPixelReport. rewrite Hid, Hmeta, Htoken.
    cbn [falsy default from_option Datatypes.id].
    rewrite (bool_decide_eq_true_2 _ Hhash).
    destruct token; [congruence|]. reflexivity. }
  rewrite Hreport.
  split; [now destruct csv|]. split; [now destruct csv|].
  split; [apply sanitizeMeta_fields|].
  split; [apply loadEvents_sorted|]. split; [apply loadEvents_sorted|].
  split; [reflexivity|]. split; [intros other; split; reflexivity|].
  assert (Hhex : Forall isHexDigit hash) by (subst hash; rewrite <- Hhash; apply sha256Hex_hex).
  assert (Hlen : length hash = 64%nat) by (subst hash; rewrite <- Hhash; apply sha256Hex_length).
  assert (Hne : hash <> []) by (intros E; rewrite E in Hlen; discriminate).
  assert (Hshort : forall s : jsstring, (length s <? 64)%nat = true -> ~ occurs hash s).
  { intros s Hs%Nat.ltb_lt Ho%occurs_length. rewrite Hlen in Ho. clear -Hs Ho. lia. }
  assert (Hspaces : Forall (fun c => c = cu " ") (replicate 2 (cu " "))) by now repeat constructor.
  clearbody hash. punctuation Hhex. destruct csv; unfold bodyText; cbn [body jsonResponse].
  - unfold buildCsv. intros Hocc.
    apply occurs_joined in Hocc as (line & Hin & Hline);
      [|exact Hne | discriminate | repeat constructor; assumption].
    apply elem_of_cons in Hin as [-> | Hin].
    + exfalso. apply occurs_joined in Hline as (name & Hin & Hname);
        [|exact Hne | discriminate | repeat constructor; assumption].
      revert Hname. apply Hshort. unfold csvHeaders in Hin.
      repeat (apply elem_of_cons in Hin as [-> | Hin]; [reflexivity|]).
      now apply elem_of_nil in Hin.
    + apply list_elem_of_fmap in Hin as (event & -> & Hevent).
      apply occurs_joined in Hline as (column & Hin & Hcolumn);
        [|exact Hne | discriminate | repeat constructor; assumption].
      exists event, column. now split.
  - unfold JSON_stringify. cbn [Nat.min]. cbn [serializeJSON]. intros Hocc.
    apply occurs_wrapJSON in Hocc as (m & Hin & Hm);
      [|assumption || constructor..].
    cbn [map fst snd truthy replicate] in Hin.
    apply elem_of_cons in Hin as [-> | Hin]; [|apply list_elem_of_singleton in Hin as ->].
    + apply occurs_property in Hm as [Hm | Hm];
        [exfalso; revert Hm; apply Hshort; reflexivity | | assumption | assumption
         | repeat constructor].
      left. unfold json_of_safe in Hm. cbn [serializeJSON] in Hm.
      apply occurs_wrapJSON in Hm as (m & Hin & Hm);
        [|assumption || (cbn [app]; assumption)..].
      apply list_elem_of_fmap in Hin as ([key value] & -> & Hkv). cbn [fst snd] in Hm.
      fold (json_of_safe (sanitizeMeta meta)) in Hkv.
      change (_ ++ optional _ _ _ ++ _ ++ optional _ _ _)
        with (jsonFields (json_of_safe (sanitizeMeta meta))) in Hkv.
      apply occurs_property in Hm as [Hm | Hm];
        [exfalso; revert Hm; apply Hshort; now apply (safe_keys_short meta key value) |
         | assumption | assumption | repeat constructor].
      rewrite sanitizeMeta_fields in Hkv. apply list_elem_of_filter in Hkv as [Hkey Hkv].
      exists key, value. split; [exact Hkv|]. split; [exact Hkey|].
      apply (occurs_compact hash Hne Hhex value (replicate 2 (cu " "))
               ([] ++ replicate 2 (cu " ") ++ replicate 2 (cu " ")));
        [assumption | now repeat constructor | exact Hm].
    + apply occurs_property in Hm as [Hm | Hm];
        [exfalso; revert Hm; apply Hshort; reflexivity | | assumption | assumption
         | repeat constructor].
      right. cbn [serializeJSON] in Hm.
      apply occurs_wrapJSON in Hm as (m & Hin & Hm);
        [|assumption || (cbn [app]; assumption)..].
      apply list_elem_of_fmap in Hin as (item & -> & Hitem).
      apply list_elem_of_fmap in Hitem as (event & -> & Hevent).
      exists event. split; [exact Hevent|].
      apply (occurs_compact hash Hne Hhex _ (replicate 2 (cu " "))
               ([] ++ replicate 2 (cu " ") ++ replicate 2 (cu " ")));
        [assumption | now repeat constructor | exact Hm].
Qed.

Lemma echoedMeta_loaded : loadMeta echoedEnv testId = Some openedMeta.
Proof. vm_compute. reflexivity. Qed.

Lemma report_without_tokenHash_witness :
  status (getPixelReport (reportRequest (Some testToken) (Some (js "csv"))) openedEnv) = 200
  /\ StronglySorted earlier (loadEvents openedEnv testId)
  /\ exists event column,
      event ∈ loadEvents echoedEnv testId /\ column ∈ csvRow event /\ occurs testHash column.
Proof.
  assert (Hgood : goodToken (reportRequest (Some testToken) (Some (js "csv"))) openedMeta).
  { exists testToken. split; [reflexivity|]. split; [discriminate | exact testToken_hash]. }
  destruct (report_without_tokenHash (reportRequest (Some testToken) (Some (js "csv")))
              openedEnv testId openedMeta eq_refl openedMeta_loaded Hgood)
    as (Hstatus & _ & _ & Hsorted & _).
  destruct (report_without_tokenHash (reportRequest (Some testToken) (Some (js "csv")))
              echoedEnv testId openedMeta eq_refl echoedMeta_loaded Hgood)
    as (_ & _ & _ & _ & _ & _ & _ & Hcarried).
  split; [exact Hstatus|]. split; [exact Hsorted|].
  apply Hcarried. apply includes_occurs. vm_compute. reflexivity.
Defined.

(** C6 as stated fails: what an open sends is reported as it was recorded,
    and the report of a pixel opened with the hash in a header has the hash
    in its body. *)
Lemma report_echo_counterexample :
  (meta_tokenHash <$> loadMeta echoedEnv testId) = Some testHash
  /\ sha256Hex testToken = testHash
  /\ status (getPixelReport (reportRequest (Some testToken) (Some (js "csv"))) echoedEnv) = 200
  /\ body (getPixelReport (reportRequest (Some testToken) (Some (js "csv"))) echoedEnv)
     = BodyText (js "timestamp,anonymizedIp,userAgent,referer,language,country,region,city" ++ [LF]
                 ++ js "2023-11-14T22:13:20.123Z,203.0.113.0," ++ testHash ++ js ",,,,,")
  /\ occurs testHash
       (js "timestamp,anonymizedIp,userAgent,referer,language,country,region,city" ++ [LF]
        ++ js "2023-11-14T22:13:20.123Z,203.0.113.0," ++ testHash ++ js ",,,,,").
Proof.
  split; [vm_compute; reflexivity|]. split; [vm_compute; reflexivity|].
  split; [vm_compute; reflexivity|]. split; [vm_compute; reflexivity|].
  exists (js "timestamp,anonymizedIp,userAgent,referer,language,country,region,city" ++ [LF]
          ++ js "2023-11-14T22:13:20.123Z,203.0.113.0,"), (js ",,,,,").
  vm_compute. reflexivity.
Qed.

(** ** What an open records (C9) *)

Lemma createPixel_store (p : Platform) (request : Request) (env : Env) :
  fst (createPixel p request env)
  = put env (metaKey (createdId p)) (StoredMeta (freshMeta p request)).
Proof. reflexivity. Qed.

Lemma servePixel_store (p : Platform) (request : Request) (env : Env) (isHead : bool) :
  fst (servePixel p request env isHead)
  = match loadMeta env (pixelId request) with
    | Some meta =>
        put (storeEvent p env (pixelId request) (buildEventRecord p request))
            (metaKey (pixelId request)) (StoredMeta (countedMeta p meta))
    | None => env
    end.
Proof. unfold servePixel. now destruct isHead, (loadMeta env (pixelId request)). Qed.

(** What one request leaves of the events of the store: those it had, and
    the one [buildEventRecord] makes of the request. *)
Lemma fetch_stored_event (p : Platform) (request : Request) (env : Env) (key : jsstring)
    (event : PixelEvent) :
  PIXIE_STORE (fst (fetch p request env)) !! key = Some (StoredEvent event) ->
  PIXIE_STORE env !! key = Some (StoredEvent event) \/ event = buildEventRecord p request.
Proof.
  unfold fetch.
  destruct (bool_decide (method request = js "OPTIONS")); [now left|].
  destruct (_ && _).
  { destruct (validateApiKey request env); [now left|].
    rewrite createPixel_store. unfold put. cbn [PIXIE_STORE].
    destruct (decide (key = metaKey (createdId p))) as [->|Hne].
    - rewrite lookup_insert_eq. discriminate.
    - rewrite lookup_insert_ne by congruence. now left. }
  destruct (_ && _); [now left|].
  destruct (_ && _); [|now left].
  rewrite servePixel_store.
  destruct (loadMeta env (pixelId request)) as [meta|]; [|now left].
  unfold storeEvent, put. cbn [PIXIE_STORE].
  destruct (decide (key = metaKey (pixelId request))) as [->|Hne].
  - rewrite lookup_insert_eq. discriminate.
  - rewrite lookup_insert_ne by congruence.
    destruct (decide (key = eventKey p (pixelId request))) as [->|Hne'].
    + rewrite lookup_insert_eq. intros [= <-]. now right.
    + rewrite lookup_insert_ne by congruence. now left.
Qed.

(** C9: [truncate] gives [null] for the empty string, the same as for an
    absent value, and never gives the empty string; so the [userAgent],
    [referer] and [language] of a recorded event are never empty, and a
    header that is present but empty is recorded as [null]. The event an
    open of a stored pixel puts in the store is the one [buildEventRecord]
    makes of the request, and whatever requests a worker that starts with
    an empty store serves, no event of its store has an empty [userAgent],
    [referer] or [language]. *)
Theorem truncate_empty_is_null :
  (forall max : Z, truncate (Some []) max = None /\ truncate (Some []) max = truncate None max)
  /\ (forall (p : Platform) (request : Request),
         ev_userAgent (buildEventRecord p request) <> Some []
         /\ ev_referer (buildEventRecord p request) <> Some []
         /\ ev_language (buildEventRecord p request) <> Some [])
  /\ (forall (p : Platform) (request : Request),
         (headers_get request (js "user-agent") = Some [] ->
          ev_userAgent (buildEventRecord p request) = None)
         /\ (headers_get request (js "referer") = Some [] ->
             ev_referer (buildEventRecord p request) = None)
         /\ (headers_get request (js "accept-language") = Some [] ->
             ev_language (buildEventRecord p request) = None))
  /\ (forall (p : Platform) (request : Request) (env : Env) (isHead : bool) (meta : PixelMeta),
         loadMeta env (pixelId request) = Some meta ->
         PIXIE_STORE (fst (servePixel p request env isHead)) !! eventKey p (pixelId request)
         = Some (StoredEvent (buildEventRecord p request)))
  /\ (forall (apiKey : jsstring) (steps : list (Platform * Request)) (key : jsstring)
             (event : PixelEvent),
         PIXIE_STORE (serveAll {| PIXIE_STORE := ∅; API_KEY := apiKey |} steps) !! key
         = Some (StoredEvent event) ->
         ev_userAgent event <> Some [] /\ ev_referer event <> Some []
         /\ ev_language event <> Some []).
Proof.
  assert (Hbuilt : forall (p : Platform) (request : Request),
             ev_userAgent (buildEventRecord p request) <> Some []
             /\ ev_referer (buildEventRecord p request) <> Some []
             /\ ev_language (buildEventRecord p request) <> Some []).
  { intros p request. unfold buildEventRecord; simpl. repeat split; apply truncate_not_empty. }
  split; [|split; [exact Hbuilt|split; [|split]]].
  - intros max. split; reflexivity.
  - intros p request. unfold buildEventRecord; simpl.
    repeat split; intros ->; reflexivity.
  - intros p request env isHead meta Hmeta. rewrite servePixel_store, Hmeta.
    unfold storeEvent, put. cbn [PIXIE_STORE].
    rewrite lookup_insert_ne by discriminate. apply lookup_insert_eq.
  - intros apiKey steps key event.
    assert (Hall : forall env,
               (forall e, PIXIE_STORE env !! key = Some (StoredEvent e) ->
                          ev_userAgent e <> Some [] /\ ev_referer e <> Some []
                          /\ ev_language e <> Some []) ->
               PIXIE_STORE (serveAll env steps) !! key = Some (StoredEvent event) ->
               ev_userAgent event <> Some [] /\ ev_referer event <> Some []
               /\ ev_language event <> Some []).
    { induction steps as [|[p request] steps IH]; intros env Henv; [apply Henv|].
      cbn [serveAll foldl fst snd]. apply IH. intros e He.
      destruct (fetch_stored_event p request env key e He) as [Hold | ->];
        [now apply Henv | apply Hbuilt]. }
    apply Hall. intros e He. cbn [PIXIE_STORE] in He. now rewrite lookup_empty in He.
Qed.

Lemma truncate_empty_is_null_witness :
  ev_userAgent (buildEventRecord (mkPlatform (fun _ => 0) 0 0) emptyHeaders) = None
  /\ ev_referer (buildEventRecord (mkPlatform (fun _ => 0) 0 0) emptyHeaders) = None
  /\ ev_language (buildEventRecord (mkPlatform (fun _ => 0) 0 0) emptyHeaders) = None
  /\ PIXIE_STORE (fst (servePixel testPlatform pixelRequest createdEnv false))
       !! eventKey testPlatform testId
     = Some (StoredEvent (buildEventRecord testPlatform pixelRequest)).
Proof.
  destruct truncate_empty_is_null as (_ & _ & H & Hstored & _).
  destruct (H (mkPlatform (fun _ => 0) 0 0) emptyHeaders) as (Hua & Href & Hlang).
  split; [apply Hua; reflexivity|]. split; [apply Href; reflexivity|].
  split; [apply Hlang; reflexivity|].
  apply (Hstored testPlatform pixelRequest createdEnv false createdMeta createdMeta_loaded).
Defined.

(* ================================================================= *)
(** * Further properties of the worker *)

(** ** Identifiers and digests *)



(** X2: whatever the input, the digest has 32 bytes and [sha256Hex] writes
    it as 64 hexadecimal digits in lower case. *)
Theorem sha256Hex_shape (input : jsstring) :
  length (SHA256.digest (TextEncoder_encode input)) = 32%nat
  /\ length (sha256Hex input) = 64%nat
  /\ Forall isHexDigit (sha256Hex input).
Proof.
  split; [apply digest_length|]. split; [apply sha256Hex_length | apply sha256Hex_hex].
Qed.

(** ** Cutting and anonymizing *)

Lemma truncate_cut (v : jsstring) (max : Z) :
  (1 <= max)%Z -> (max < Z.of_nat (length v))%Z ->
  truncate (Some v) max = Some (take (Z.to_nat (max - 1)) v ++ [ellipsis])
  /\ Z.of_nat (length (take (Z.to_nat (max - 1)) v ++ [ellipsis])) = max.
Proof.
  intros Hmax Hlen. unfold truncate, slice0.
  destruct v as [|c v]; [simpl in Hlen; lia|]. cbn [truthy negb].
  destruct (Z.gtb_spec (Z.of_nat (length (c :: v))) max) as [_|Hle]; [|lia].
  destruct (Z.ltb_spec (max - 1) 0) as [Hneg|_]; [lia|].
  rewrite Z.min_l by lia. split; [reflexivity|].
  rewrite length_app, length_take. cbn [length] in *. lia.
Qed.

Lemma truncate_kept (v : jsstring) (max : Z) :
  v <> [] -> (Z.of_nat (length v) <= max)%Z -> truncate (Some v) max = Some v.
Proof.
  intros Hv Hlen. unfold truncate. destruct v as [|c v]; [congruence|]. cbn [truthy negb].
  destruct (Z.gtb_spec (Z.of_nat (length (c :: v))) max) as [Hgt|_]; [lia | reflexivity].
Qed.

(** X3: for a limit of one or more, [truncate] gives at most [max] code
    units: a text within the limit as it is, a longer one as its first
    [max - 1] code units and the ellipsis, [max] code units in all. (For a
    limit below one the result is longer than the limit, see [text_test].) *)
Theorem truncate_bound (value : option jsstring) (max : Z) (result : jsstring) :
  (1 <= max)%Z ->
  truncate value max = Some result ->
  (Z.of_nat (length result) <= max)%Z
  /\ exists v, value = Some v
               /\ ((Z.of_nat (length v) <= max)%Z -> result = v)
               /\ ((max < Z.of_nat (length v))%Z ->
                   result = take (Z.to_nat (max - 1)) v ++ [ellipsis]
                   /\ Z.of_nat (length result) = max).
Proof.
  intros Hmax Hres. destruct value as [v|]; [|discriminate].
  assert (Hv : v <> []) by (intros ->; discriminate).
  destruct (Z.le_gt_cases (Z.of_nat (length v)) max) as [Hle|Hgt].
  - rewrite (truncate_kept v max Hv Hle) in Hres. injection Hres as <-.
    split; [exact Hle|]. exists v. split; [reflexivity|]. split; [reflexivity | lia].
  - destruct (truncate_cut v max Hmax Hgt) as [Hcut Hlen]. rewrite Hcut in Hres.
    injection Hres as <-. split; [lia|]. exists v. split; [reflexivity|].
    split; [lia | now split].
Qed.

Lemma truncate_bound_witness :
  (Z.of_nat (length (js "abc" ++ [ellipsis])) <= 4)%Z
  /\ (Z.of_nat (length (js "abcd")) <= 4)%Z.
Proof.
  split.
  - apply (truncate_bound (Some (js "abcdef")) 4 (js "abc" ++ [ellipsis])); [lia | reflexivity].
  - apply (truncate_bound (Some (js "abcd")) 4 (js "abcd")); [lia | reflexivity].
Defined.

(** X4: [sanitizeGeo] gives [null] exactly when there is no [cf] object or
    its country, city and region are all absent or empty; otherwise it
    gives the three fields as they are, and one of them is not empty. *)
Theorem sanitizeGeo_spec (cf : option Geo) :
  (sanitizeGeo cf = None
   <-> forall g, cf = Some g ->
                 falsy (country g) = true /\ falsy (city g) = true /\ falsy (region g) = true)
  /\ (forall g, sanitizeGeo cf = Some g ->
                cf = Some g
                /\ (falsy (country g) = false \/ falsy (city g) = false
                    \/ falsy (region g) = false)).
Proof.
  unfold sanitizeGeo. destruct cf as [[c t r]|]; cbn [country city region];
    [|split; [split; [intros _ g; discriminate | reflexivity] | discriminate]].
  destruct (falsy c && falsy t && falsy r) eqn:E.
  - apply andb_true_iff in E as [[Ec Et]%andb_true_iff Er]. split; [|discriminate].
    split; [intros _ g [= <-]; cbn; auto | reflexivity].
  - split.
    + split; [discriminate|]. intros H. destruct (H _ eq_refl) as (Hc & Ht & Hr).
      cbn in Hc, Ht, Hr. rewrite Hc, Ht, Hr in E. discriminate.
    + intros g [= <-]. split; [reflexivity|]. cbn [country city region].
      destruct (falsy c), (falsy t), (falsy r); auto; discriminate.
Qed.

Lemma split_join (sep : N) (groups : list jsstring) :
  groups <> [] -> Forall (fun g => sep ∉ g) groups -> split sep (join [sep] groups) = groups.
Proof.
  intros Hne Hgroups. induction Hgroups as [|g groups Hg _ IH]; [congruence|].
  destruct groups as [|g' groups].
  - cbn [join]. now apply split_without.
  - change (join [sep] (g :: g' :: groups)) with (g ++ sep :: join [sep] (g' :: groups)).
    rewrite split_app by exact Hg. now rewrite IH.
Qed.

Lemma elem_of_join (c sep : N) (groups : list jsstring) :
  c ∈ join [sep] groups -> c = sep \/ exists g, g ∈ groups /\ c ∈ g.
Proof.
  induction groups as [|g groups IH]; [intros H; now apply elem_of_nil in H|].
  destruct groups as [|g' groups].
  - cbn [join]. intros H. right. exists g. split; [left | exact H].
  - change (join [sep] (g :: g' :: groups)) with (g ++ sep :: join [sep] (g' :: groups)).
    rewrite elem_of_app, elem_of_cons. intros [H | [H | H]].
    + right. exists g. split; [left | exact H].
    + now left.
    + destruct (IH H) as [Hsep | (g0 & Hin & Hc)]; [now left|].
      right. exists g0. split; [now right | exact Hc].
Qed.

(** The segments of a text with exactly four of them between dots. *)
Lemma anonymizeIp_quad (ip : jsstring) :
  length (split (cu ".") ip) = 4%nat ->
  anonymizeIp (Some ip) = Some (join (js ".") (<[3%nat := js "0"]> (split (cu ".") ip))).
Proof.
  intros Hlen. unfold anonymizeIp.
  assert (Hdot : includes ip (js ".") = true).
  { destruct (includes ip (js ".")) eqn:E; [reflexivity|].
    apply includes_unit_false in E. rewrite (split_without (cu ".") ip E) in Hlen. discriminate. }
  rewrite (truthy_includes _ (js ".") ltac:(vm_compute; congruence) Hdot), Hdot, Hlen.
  reflexivity.
Qed.

(** The groups of a text written with colons and no dot. *)
Lemma anonymizeIp_groups (groups : list jsstring) :
  (2 <= length groups)%nat ->
  Forall (fun g => (cu ":" ∉ g) /\ (cu "." ∉ g)) groups ->
  anonymizeIp (Some (join (js ":") groups)) = Some (join (js ":") (zeroLastFour groups)).
Proof.
  intros Hlen Hgroups.
  assert (Hcolon : Forall (fun g => cu ":" ∉ g) groups)
    by (eapply Forall_impl; [exact Hgroups | now intros g [? ?]]).
  assert (Hnodot : cu "." ∉ join (js ":") groups).
  { intros [H | (g & Hin & Hg)]%elem_of_join; [discriminate|].
    rewrite Forall_forall in Hgroups. now apply (Hgroups g Hin). }
  assert (Hinc : includes (join (js ":") groups) (js ":") = true).
  { apply includes_unit. destruct groups as [|g [|g' groups]]; cbn in Hlen; try lia.
    change (join (js ":") (g :: g' :: groups)) with (g ++ cu ":" :: join (js ":") (g' :: groups)).
    rewrite elem_of_app. right. left. }
  unfold anonymizeIp.
  rewrite (truthy_includes _ (js ":") ltac:(vm_compute; congruence) Hinc), Hinc.
  rewrite (split_without (cu ".") _ Hnodot). cbn [length Nat.eqb andb negb].
  rewrite andb_false_r, zeroGroups_spec.
  rewrite (split_join (cu ":")); [reflexivity | | exact Hcolon].
  intros ->. cbn in Hlen. lia.
Qed.

(** X5: what [anonymizeIp] forgets. Two addresses of four segments between
    dots that differ in the last segment only are recorded as the same
    text. Two addresses written with colons, and no dot, that differ in
    their last four groups only are recorded as the same text too, the one
    with [0000] in the place of each of these groups. *)
Theorem anonymizeIp_forgets :
  (forall a b c d d' : jsstring,
      (cu "." ∉ a) -> (cu "." ∉ b) -> (cu "." ∉ c) -> (cu "." ∉ d) -> (cu "." ∉ d') ->
      anonymizeIp (Some (a ++ js "." ++ b ++ js "." ++ c ++ js "." ++ d))
      = anonymizeIp (Some (a ++ js "." ++ b ++ js "." ++ c ++ js "." ++ d')))
  /\ (forall kept last last' : list jsstring,
         length last = 4%nat -> length last' = 4%nat ->
         Forall (fun g => (cu ":" ∉ g) /\ (cu "." ∉ g)) (kept ++ last ++ last') ->
         anonymizeIp (Some (join (js ":") (kept ++ last)))
         = Some (join (js ":") (kept ++ replicate 4 (js "0000")))
         /\ anonymizeIp (Some (join (js ":") (kept ++ last)))
            = anonymizeIp (Some (join (js ":") (kept ++ last')))).
Proof.
  split.
  - intros a b c d d' Ha Hb Hc Hd Hd'.
    assert (Hsplit : forall x, cu "." ∉ x ->
               split (cu ".") (a ++ js "." ++ b ++ js "." ++ c ++ js "." ++ x) = [a; b; c; x]).
    { intros x Hx. literals. cbn [app]. rewrite !split_app by assumption.
      now rewrite split_without. }
    rewrite !anonymizeIp_quad by (rewrite Hsplit by assumption; reflexivity).
    now rewrite !Hsplit by assumption.
  - intros kept last last' Hlast Hlast' Hgroups.
    apply Forall_app in Hgroups as [Hkept Hgroups]. apply Forall_app in Hgroups as [Hl Hl'].
    assert (Hzero : forall l, length l = 4%nat ->
               zeroLastFour (kept ++ l) = kept ++ replicate 4 (js "0000")).
    { intros l Hl4. unfold zeroLastFour. rewrite length_app, Hl4.
      replace (length kept + 4 - 4)%nat with (length kept) by lia.
      rewrite take_app_length. f_equal. f_equal. lia. }
    rewrite !anonymizeIp_groups, !Hzero; try assumption; try (rewrite length_app; lia);
      try (apply Forall_app; split; assumption).
    split; reflexivity.
Qed.

Lemma anonymizeIp_forgets_witness :
  anonymizeIp (Some (js "198.51.100.7")) = anonymizeIp (Some (js "198.51.100.250"))
  /\ anonymizeIp (Some (js "2001:db8:1:2:3:4:5:6")) = Some (js "2001:db8:1:2:0000:0000:0000:0000")
  /\ anonymizeIp (Some (js "2001:db8:1:2:3:4:5:6"))
     = anonymizeIp (Some (js "2001:db8:1:2:a:b:c:d")).
Proof.
  destruct anonymizeIp_forgets as [Hdots Hcolons]. split.
  - apply (Hdots (js "198") (js "51") (js "100") (js "7") (js "250"));
      apply (bool_decide_unpack _); vm_compute; exact I.
  - apply (Hcolons [js "2001"; js "db8"; js "1"; js "2"] [js "3"; js "4"; js "5"; js "6"]
             [js "a"; js "b"; js "c"; js "d"]); [reflexivity | reflexivity|].
    repeat constructor; apply (bool_decide_unpack _); vm_compute; exact I.
Defined.

(** ** The stores the worker builds *)

Lemma metaKey_inj (id id' : jsstring) : metaKey id = metaKey id' -> id = id'.
Proof. unfold metaKey. apply app_inv_head. Qed.

Lemma eventKey_not_meta (p : Platform) (id id' : jsstring) : eventKey p id <> metaKey id'.
Proof. discriminate. Qed.

Lemma loadMeta_put_meta (env : Env) (id id' : jsstring) (m : PixelMeta) :
  loadMeta (put env (metaKey id) (StoredMeta m)) id'
  = if decide (id' = id) then Some m else loadMeta env id'.
Proof.
  unfold loadMeta, put. cbn [PIXIE_STORE]. destruct (decide (id' = id)) as [->|Hne].
  - now rewrite lookup_insert_eq.
  - rewrite lookup_insert_ne; [reflexivity|]. intros H%metaKey_inj. congruence.
Qed.

Lemma loadMeta_storeEvent (p : Platform) (env : Env) (id id' : jsstring) (e : PixelEvent) :
  loadMeta (storeEvent p env id e) id' = loadMeta env id'.
Proof.
  unfold loadMeta, storeEvent, put. cbn [PIXIE_STORE].
  rewrite lookup_insert_ne; [reflexivity | apply eventKey_not_meta].
Qed.

Lemma wellStored_mono (env env' : Env) (key : jsstring) (value : Stored) :
  (forall id, is_Some (loadMeta env id) -> is_Some (loadMeta env' id)) ->
  wellStored env key value -> wellStored env' key value.
Proof.
  intros Hmono. destruct value as [m|e]; [exact (fun H => H)|]. cbn [wellStored].
  intros ((id & clock & suffix & Hkey & Hlen & Hhex & Hmeta) & Hbounds).
  split; [|exact Hbounds]. exists id, clock, suffix. auto.
Qed.

Lemma truncate_length (value : option jsstring) (max : Z) (result : jsstring) :
  (1 <= max)%Z -> truncate value max = Some result -> (Z.of_nat (length result) <= max)%Z.
Proof.
  intros Hmax Hres. destruct value as [v|]; [|discriminate].
  assert (Hv : v <> []) by (intros ->; discriminate).
  destruct (Z.le_gt_cases (Z.of_nat (length v)) max) as [Hle|Hgt].
  - rewrite (truncate_kept v max Hv Hle) in Hres. now injection Hres as <-.
  - destruct (truncate_cut v max Hmax Hgt) as [Hcut Hlen]. rewrite Hcut in Hres.
    injection Hres as <-. lia.
Qed.

Lemma withinLength_truncate (value : option jsstring) (max : nat) :
  (1 <= max)%nat -> withinLength max (truncate value (Z.of_nat max)).
Proof.
  intros Hmax. destruct (truncate value (Z.of_nat max)) as [s|] eqn:E; [|exact I].
  cbn [withinLength]. split.
  - intros ->. now apply truncate_not_empty in E.
  - apply truncate_length in E; lia.
Qed.

Lemma loadMeta_stored (env : Env) (id : jsstring) (meta : PixelMeta) :
  loadMeta env id = Some meta -> PIXIE_STORE env !! metaKey id = Some (StoredMeta meta).
Proof.
  unfold loadMeta. destruct (PIXIE_STORE env !! metaKey id) as [[m|e]|]; congruence.
Qed.

Lemma wellFormed_meta (env : Env) (id : jsstring) (meta : PixelMeta) :
  wellFormed env -> loadMeta env id = Some meta ->
  meta_id meta = id /\ isPixelId id
  /\ length (meta_tokenHash meta) = 64%nat /\ Forall isHexDigit (meta_tokenHash meta)
  /\ (meta_openCount meta = 0 <-> meta_lastOpenedAt meta = None).
Proof.
  intros Hwf Hmeta%loadMeta_stored. apply Hwf in Hmeta as (Hkey%metaKey_inj & Hid & Hrest).
  rewrite <- Hkey in Hid. rewrite <- Hkey. now split.
Qed.

Lemma put_meta_wellFormed (env : Env) (m : PixelMeta) :
  wellFormed env -> wellStored env (metaKey (meta_id m)) (StoredMeta m) ->
  wellFormed (put env (metaKey (meta_id m)) (StoredMeta m)).
Proof.
  intros Hwf Hm. unfold wellFormed, put. cbn [PIXIE_STORE].
  apply map_Forall_insert_2; [exact Hm|].
  intros key value Hkv. apply (wellStored_mono env); [|now apply Hwf].
  intros id Hsome. change (is_Some (loadMeta (put env (metaKey (meta_id m)) (StoredMeta m)) id)).
  rewrite loadMeta_put_meta. now destruct (decide _).
Qed.

Lemma createPixel_wellFormed (p : Platform) (request : Request) (env : Env) :
  wellFormed env -> wellFormed (fst (createPixel p request env)).
Proof.
  intros Hwf. rewrite createPixel_store.
  apply (put_meta_wellFormed env (freshMeta p request) Hwf).
  cbn [wellStored freshMeta meta_id meta_tokenHash meta_openCount meta_lastOpenedAt].
  split; [reflexivity|]. split; [split; apply randomHex_hex|].
  split; [apply sha256Hex_length|]. split; [apply sha256Hex_hex|]. tauto.
Qed.

Lemma servePixel_wellFormed (p : Platform) (request : Request) (env : Env) (isHead : bool) :
  wellFormed env -> wellFormed (fst (servePixel p request env isHead)).
Proof.
  intros Hwf. rewrite servePixel_store.
  destruct (loadMeta env (pixelId request)) as [meta|] eqn:Hmeta; [|exact Hwf].
  destruct (wellFormed_meta env _ meta Hwf Hmeta) as (Hid & Hpix & Hlen & Hhex & Hcount).
  set (id := pixelId request) in *.
  assert (Hev : wellFormed (storeEvent p env id (buildEventRecord p request))).
  { unfold wellFormed, storeEvent, put. cbn [PIXIE_STORE].
    apply map_Forall_insert_2.
    - cbn [wellStored buildEventRecord ev_userAgent ev_referer ev_language]. split.
      + exists id, (Date_now p), (fst (randomHex 3 (random p))).
        split; [reflexivity|]. split; [apply randomHex_3_length|].
        split; [apply randomHex_hex|].
        change (is_Some (loadMeta (storeEvent p env id (buildEventRecord p request)) id)).
        rewrite loadMeta_storeEvent, Hmeta. eauto.
      + split; [apply (withinLength_truncate _ 256); lia|].
        split; [apply (withinLength_truncate _ 256); lia | apply (withinLength_truncate _ 32); lia].
    - intros key value Hkv. apply (wellStored_mono env); [|now apply Hwf].
      intros id' Hsome.
      change (is_Some (loadMeta (storeEvent p env id (buildEventRecord p request)) id')).
      now rewrite loadMeta_storeEvent. }
  replace (metaKey id) with (metaKey (meta_id (countedMeta p meta)))
    by (cbn [countedMeta meta_id]; now rewrite Hid).
  apply (put_meta_wellFormed _ (countedMeta p meta) Hev).
  cbn [wellStored countedMeta meta_id meta_tokenHash meta_openCount meta_lastOpenedAt].
  rewrite Hid. split; [reflexivity|]. split; [exact Hpix|]. split; [exact Hlen|].
  split; [exact Hhex|]. split; [lia | discriminate].
Qed.

Lemma fetch_wellFormed (p : Platform) (request : Request) (env : Env) :
  wellFormed env -> wellFormed (fst (fetch p request env)).
Proof.
  intros Hwf. unfold fetch.
  destruct (bool_decide (method request = js "OPTIONS")); [exact Hwf|].
  destruct (_ && _).
  { destruct (validateApiKey request env); [exact Hwf | now apply createPixel_wellFormed]. }
  destruct (_ && _); [exact Hwf|].
  destruct (_ && _); [now apply servePixel_wellFormed | exact Hwf].
Qed.

Lemma empty_wellFormed (key : jsstring) : wellFormed {| PIXIE_STORE := ∅; API_KEY := key |}.
Proof. unfold wellFormed. cbn [PIXIE_STORE]. apply map_Forall_empty. Qed.

(** X6: whatever requests the worker serves one after the other from an
    empty store, the store stays well formed. Under [meta:<id>] there is a
    [PixelMeta] whose [id] is that id, eighteen hexadecimal digits, whose
    [tokenHash] is 64 hexadecimal digits and whose [lastOpenedAt] is set
    exactly when [openCount] is not zero. Every other key is
    [events:<id>:<clock>-<six hexadecimal digits>] for a pixel the store
    has, and holds an event whose [userAgent] and [referer] have at most
    256 code units and whose [language] has at most 32, none of them
    empty. *)
Theorem served_store_wellFormed (key : jsstring) (steps : list (Platform * Request)) :
  wellFormed (serveAll {| PIXIE_STORE := ∅; API_KEY := key |} steps).
Proof.
  generalize (empty_wellFormed key). generalize {| PIXIE_STORE := ∅; API_KEY := key |}.
  induction steps as [|[p request] steps IH]; intros env Hwf; [exact Hwf|].
  cbn [serveAll foldl fst snd]. apply IH. now apply fetch_wellFormed.
Qed.

(** ** The routes *)

Lemma validateApiKey_None (request : Request) (env : Env) :
  validateApiKey request env = None
  <-> API_KEY env <> [] /\ headers_get request API_KEY_HEADER = Some (API_KEY env).
Proof.
  unfold validateApiKey. destruct (API_KEY env) as [|c key] eqn:Ekey; cbn [truthy negb].
  - split; [discriminate | intros [H _]; congruence].
  - destruct (headers_get request API_KEY_HEADER) as [provided|]; cbn [falsy orb].
    + destruct (decide (Some provided = Some (c :: key))) as [Heq|Hne].
      * rewrite (bool_decide_eq_true_2 _ Heq). injection Heq as ->. cbn.
        split; [intros _; split; [discriminate | reflexivity] | reflexivity].
      * rewrite (bool_decide_eq_false_2 _ Hne), orb_true_r.
        split; [discriminate | intros [_ H]; congruence].
    + split; [discriminate | intros [_ H]; discriminate].
Qed.

Lemma fetch_create (p : Platform) (request : Request) (env : Env) :
  method request = js "POST" ->
  pathname request = js "/api/pixels" ->
  fetch p request env
  = match validateApiKey request env with
    | Some refusal => (env, refusal)
    | None => createPixel p request env
    end.
Proof. intros Hmethod Hpath. unfold fetch. now rewrite Hmethod, Hpath. Qed.

(** X7: the creation endpoint and the API key. A worker without an API key
    answers every POST of [/api/pixels] with 500; with one, it answers 401
    unless the [x-api-key] header is that key; in both cases the store is
    left as it was. With the key the request is a creation. *)
Theorem creation_needs_key (p : Platform) (request : Request) (env : Env) :
  method request = js "POST" ->
  pathname request = js "/api/pixels" ->
  (API_KEY env = [] -> fetch p request env = (env, misconfigured))
  /\ (API_KEY env <> [] -> headers_get request API_KEY_HEADER <> Some (API_KEY env) ->
      fetch p request env = (env, unauthorized))
  /\ (API_KEY env <> [] -> headers_get request API_KEY_HEADER = Some (API_KEY env) ->
      fetch p request env = createPixel p request env).
Proof.
  intros Hmethod Hpath. rewrite (fetch_create p request env Hmethod Hpath).
  split; [|split].
  - intros Hkey. unfold validateApiKey. now rewrite Hkey.
  - intros Hkey Hne. unfold validateApiKey.
    destruct (API_KEY env) as [|c key]; [congruence|]. cbn [truthy negb].
    rewrite (bool_decide_eq_false_2 _ Hne), orb_true_r. reflexivity.
  - intros Hkey Hsent.
    now rewrite (proj2 (validateApiKey_None request env) (conj Hkey Hsent)).
Qed.

Lemma creation_needs_key_witness :
  fetch testPlatform createRequest testEnv = createPixel testPlatform createRequest testEnv
  /\ fetch testPlatform (withBody createRequest None)
           {| PIXIE_STORE := ∅; API_KEY := js "another" |}
     = ({| PIXIE_STORE := ∅; API_KEY := js "another" |}, unauthorized).
Proof.
  split.
  - apply (creation_needs_key testPlatform createRequest testEnv eq_refl eq_refl);
      [discriminate | reflexivity].
  - apply (creation_needs_key testPlatform (withBody createRequest None)
             {| PIXIE_STORE := ∅; API_KEY := js "another" |} eq_refl eq_refl);
      [discriminate | vm_compute; discriminate].
Defined.

Lemma fetch_API_KEY (p : Platform) (request : Request) (env : Env) :
  API_KEY (fst (fetch p request env)) = API_KEY env.
Proof.
  unfold fetch.
  destruct (bool_decide (method request = js "OPTIONS")); [reflexivity|].
  destruct (_ && _); [destruct (validateApiKey request env); reflexivity|].
  destruct (_ && _); [reflexivity|].
  destruct (_ && _); [|reflexivity].
  rewrite servePixel_store. now destruct (loadMeta env (pixelId request)).
Qed.

Lemma put_dom (env : Env) (key : jsstring) (value : Stored) :
  dom (PIXIE_STORE env) ⊆ dom (PIXIE_STORE (put env key value)).
Proof. unfold put. cbn [PIXIE_STORE]. rewrite dom_insert. set_solver. Qed.

Lemma put_size (env : Env) (key : jsstring) (value : Stored) :
  (size (PIXIE_STORE (put env key value)) <= size (PIXIE_STORE env) + 1)%nat.
Proof.
  unfold put. cbn [PIXIE_STORE]. rewrite map_size_insert.
  destruct (_ !! _); unfold Datatypes.id; lia.
Qed.

(** X8: what a request can do to the store. No request changes the API
    key or takes a key out of the store; the store is changed only by a
    POST of [/api/pixels] that carries the API key, or by a GET or a HEAD
    under [/pixel/] of a pixel the store has. A creation leaves every key
    as it was but the [meta:] key of the id it draws, and an open every key
    but the [meta:] key of its pixel and the key of the event it records:
    no request writes under more than two keys. *)
Theorem store_written_only_by (p : Platform) (request : Request) (env : Env) :
  API_KEY (fst (fetch p request env)) = API_KEY env
  /\ dom (PIXIE_STORE env) ⊆ dom (PIXIE_STORE (fst (fetch p request env)))
  /\ (size (PIXIE_STORE (fst (fetch p request env))) <= size (PIXIE_STORE env) + 2)%nat
  /\ (PIXIE_STORE (fst (fetch p request env)) <> PIXIE_STORE env ->
      (method request = js "POST" /\ pathname request = js "/api/pixels"
       /\ API_KEY env <> [] /\ headers_get request API_KEY_HEADER = Some (API_KEY env))
      \/ ((method request = js "GET" \/ method request = js "HEAD")
          /\ startsWith (pathname request) (js "/pixel/") = true
          /\ is_Some (loadMeta env (pixelId request))))
  /\ (forall key : jsstring,
         PIXIE_STORE (fst (fetch p request env)) !! key <> PIXIE_STORE env !! key ->
         (method request = js "POST"
          /\ key = metaKey (fst (randomHex 9 (random p))))
         \/ ((method request = js "GET" \/ method request = js "HEAD")
             /\ (key = metaKey (pixelId request) \/ key = eventKey p (pixelId request)))).
Proof.
  split; [apply fetch_API_KEY|].
  assert (Hkeys : forall key : jsstring,
             PIXIE_STORE (fst (fetch p request env)) !! key <> PIXIE_STORE env !! key ->
             (method request = js "POST"
              /\ key = metaKey (fst (randomHex 9 (random p))))
             \/ ((method request = js "GET" \/ method request = js "HEAD")
                 /\ (key = metaKey (pixelId request) \/ key = eventKey p (pixelId request)))).
  { intros key. unfold fetch.
    destruct (bool_decide (method request = js "OPTIONS")); [intros H; now destruct H|].
    destruct (bool_decide (method request = js "POST")
              && bool_decide (pathname request = js "/api/pixels")) eqn:Ecreate.
    { apply andb_true_iff in Ecreate as [Hm%bool_decide_eq_true_1 _].
      destruct (validateApiKey request env); [intros H; now destruct H|].
      rewrite createPixel_store. unfold put. cbn [PIXIE_STORE]. intros Hne. left.
      split; [exact Hm|].
      destruct (decide (key = metaKey (createdId p))) as [->|Hother]; [reflexivity|].
      rewrite lookup_insert_ne in Hne by congruence. now destruct Hne. }
    clear Ecreate. destruct (_ && _); [intros H; now destruct H|].
    destruct ((bool_decide (method request = js "GET")
               || bool_decide (method request = js "HEAD"))
              && startsWith (pathname request) (js "/pixel/")) eqn:Eopen;
      [|intros H; now destruct H].
    apply andb_true_iff in Eopen as [Hm%orb_true_iff _].
    rewrite servePixel_store.
    destruct (loadMeta env (pixelId request)) as [meta|]; [|intros H; now destruct H].
    unfold storeEvent, put. cbn [PIXIE_STORE]. intros Hne. right. split.
    - destruct Hm as [Hm%bool_decide_eq_true_1 | Hm%bool_decide_eq_true_1]; auto.
    - destruct (decide (key = metaKey (pixelId request))) as [->|Hmeta]; [now left|].
      destruct (decide (key = eventKey p (pixelId request))) as [->|Hevent]; [now right|].
      rewrite !lookup_insert_ne in Hne by congruence. now destruct Hne. }
  split; [|split; [|split; [|exact Hkeys]]]; clear Hkeys; unfold fetch.
  all: destruct (bool_decide (method request = js "OPTIONS"));
    [cbn [fst]; first [reflexivity | lia | intros Hne; now destruct Hne]|].
  all: destruct (bool_decide (method request = js "POST")
                 && bool_decide (pathname request = js "/api/pixels")) eqn:Ecreate.
  1,3,5: apply andb_true_iff in Ecreate as [Hm%bool_decide_eq_true_1 Hp%bool_decide_eq_true_1];
    destruct (validateApiKey request env) as [refusal|] eqn:Ekey;
    [cbn [fst]; first [reflexivity | lia | intros Hne; now destruct Hne]|];
    apply validateApiKey_None in Ekey; rewrite createPixel_store.
  1: apply put_dom.
  1: pose proof (put_size env (metaKey (createdId p)) (StoredMeta (freshMeta p request))); lia.
  1: intros _; left; tauto.
  all: clear Ecreate; destruct (_ && _);
    [cbn [fst]; first [reflexivity | lia | intros Hne; now destruct Hne]|].
  all: destruct ((bool_decide (method request = js "GET")
                  || bool_decide (method request = js "HEAD"))
                 && startsWith (pathname request) (js "/pixel/")) eqn:Eopen;
    [|cbn [fst]; first [reflexivity | lia | intros Hne; now destruct Hne]].
  all: apply andb_true_iff in Eopen as [Hm%orb_true_iff Hp]; rewrite servePixel_store.
  all: destruct (loadMeta env (pixelId request)) as [meta|];
    [|first [reflexivity | lia | intros Hne; now destruct Hne]].
  - etransitivity; [|apply put_dom]. unfold storeEvent. apply put_dom.
  - etransitivity; [apply put_size|]. unfold storeEvent.
    pose proof (put_size env (eventKey p (pixelId request))
                  (StoredEvent (buildEventRecord p request))). lia.
  - intros _. right. split; [|split; [exact Hp | eauto]].
    destruct Hm as [Hm%bool_decide_eq_true_1 | Hm%bool_decide_eq_true_1]; auto.
Qed.

Lemma api_not_pixel (path : jsstring) :
  startsWith path (js "/pixel/") = true -> startsWith path (js "/api/pixels/") = false.
Proof. intros [rest ->]%startsWith_true. reflexivity. Qed.

Lemma pixel_not_api (path : jsstring) :
  startsWith path (js "/api/pixels/") = true -> startsWith path (js "/pixel/") = false.
Proof. intros [rest ->]%startsWith_true. reflexivity. Qed.

Lemma fetch_open (p : Platform) (request : Request) (env : Env) :
  method request = js "GET" \/ method request = js "HEAD" ->
  startsWith (pathname request) (js "/pixel/") = true ->
  fetch p request env = servePixel p request env (bool_decide (method request = js "HEAD")).
Proof.
  intros Hmethod Hpath. unfold fetch. rewrite Hpath, (api_not_pixel _ Hpath).
  destruct Hmethod as [-> | ->]; reflexivity.
Qed.

Lemma fetch_report (p : Platform) (request : Request) (env : Env) :
  method request = js "GET" ->
  startsWith (pathname request) (js "/api/pixels/") = true ->
  fetch p request env = (env, getPixelReport request env).
Proof. intros Hmethod Hpath. unfold fetch. now rewrite Hmethod, Hpath. Qed.

(** X9: a HEAD request of a pixel is recorded as the GET request is: the
    two leave the same store. When the store has the pixel, that store has
    the event [buildEventRecord] makes of the request under the key of
    [storeEvent], the [PixelMeta] with its [openCount] increased by one and
    its [lastOpenedAt] set to the instant of the open, and every other key
    as it was; when it has not, the store is left as it was. Both requests
    are answered 200 with the headers of the image; the body is the image
    for GET and absent for HEAD. *)
Theorem head_counts_as_open (p : Platform) (request : Request) (env : Env) :
  method request = js "GET" ->
  startsWith (pathname request) (js "/pixel/") = true ->
  fst (fetch p (withMethod request (js "HEAD")) env) = fst (fetch p request env)
  /\ snd (fetch p request env)
     = {| status := 200; response_headers := pixelHeaders; body := BodyBytes TRANSPARENT_GIF |}
  /\ snd (fetch p (withMethod request (js "HEAD")) env)
     = {| status := 200; response_headers := pixelHeaders; body := BodyNull |}
  /\ (forall meta : PixelMeta,
         loadMeta env (pixelId request) = Some meta ->
         let env' := fst (fetch p (withMethod request (js "HEAD")) env) in
         PIXIE_STORE env' !! eventKey p (pixelId request)
         = Some (StoredEvent (buildEventRecord p request))
         /\ loadMeta env' (pixelId request)
            = Some {| meta_id := meta_id meta; meta_createdAt := meta_createdAt meta;
                      meta_label := meta_label meta; meta_metadata := meta_metadata meta;
                      meta_tokenHash := meta_tokenHash meta;
                      meta_openCount := meta_openCount meta + 1;
                      meta_lastOpenedAt := Some (newDate p) |}
         /\ forall key : jsstring,
             key <> eventKey p (pixelId request) -> key <> metaKey (pixelId request) ->
             PIXIE_STORE env' !! key = PIXIE_STORE env !! key)
  /\ (loadMeta env (pixelId request) = None ->
      fst (fetch p (withMethod request (js "HEAD")) env) = env).
Proof.
  intros Hmethod Hpath. unfold fetch. cbn [method pathname withMethod].
  rewrite Hmethod, Hpath, (api_not_pixel _ Hpath).
  change (bool_decide (js "GET" = js "OPTIONS")) with false.
  change (bool_decide (js "HEAD" = js "OPTIONS")) with false.
  change (bool_decide (js "GET" = js "POST")) with false.
  change (bool_decide (js "HEAD" = js "POST")) with false.
  change (bool_decide (js "GET" = js "GET")) with true.
  change (bool_decide (js "HEAD" = js "GET")) with false.
  change (bool_decide (js "HEAD" = js "HEAD")) with true.
  change (bool_decide (js "GET" = js "HEAD")) with false.
  cbn [andb orb]. rewrite !servePixel_store.
  change (pixelId (withMethod request (js "HEAD"))) with (pixelId request).
  change (buildEventRecord p (withMethod request (js "HEAD"))) with (buildEventRecord p request).
  split; [reflexivity|]. split; [reflexivity|]. split; [reflexivity|]. split.
  - intros meta Hmeta. cbv zeta. rewrite Hmeta. split; [|split].
    + unfold storeEvent, put. cbn [PIXIE_STORE].
      rewrite lookup_insert_ne by discriminate. apply lookup_insert_eq.
    + rewrite loadMeta_put_meta. now destruct (decide _).
    + intros key Hevent Hkey. unfold storeEvent, put. cbn [PIXIE_STORE].
      now rewrite !lookup_insert_ne by congruence.
  - now intros ->.
Qed.

Lemma head_counts_as_open_witness :
  fst (fetch testPlatform (withMethod pixelRequest (js "HEAD")) createdEnv)
  = fst (fetch testPlatform pixelRequest createdEnv)
  /\ loadMeta (fst (fetch testPlatform (withMethod pixelRequest (js "HEAD")) createdEnv)) testId
     = Some openedMeta.
Proof.
  destruct (head_counts_as_open testPlatform pixelRequest createdEnv eq_refl eq_refl)
    as (Hsame & _ & _ & Hcounted & _).
  split; [exact Hsame|].
  destruct (Hcounted createdMeta createdMeta_loaded) as (_ & Hmeta & _). exact Hmeta.
Defined.

Lemma cors_allowOrigin (request : Request) (before : list (jsstring * jsstring)) :
  Forall (fun kv => fst kv <> js "access-control-allow-origin") before ->
  exists v, (fun found : nat * (jsstring * jsstring) => snd (snd found))
              <$> list_find (fun kv => fst kv = js "access-control-allow-origin")
                            (before ++ corsHeaders (Some request)) = Some v
            /\ (v = js "*" \/ headers_get request (js "origin") = Some v).
Proof.
  intros Hbefore. exists (default (js "*") (headers_get request (js "origin"))). split.
  - induction Hbefore as [|kv before Hkv _ IH].
    + reflexivity.
    + cbn [app list_find].
      destruct (decide (fst kv = js "access-control-allow-origin")); [congruence|].
      rewrite <- IH. now destruct (list_find _ _).
  - destruct (headers_get request (js "origin")); cbn; auto.
Qed.

Ltac refused :=
  cbn [snd status response_headers];
  split; [auto 10|]; split; [intros [H | H]; discriminate H|];
  split; [intros [H | H]; discriminate H|]; intros _ _; split; reflexivity.

Ltac allowed before :=
  cbn [snd status response_headers jsonResponse];
  split; [auto 10|]; split; [|split; [intros _; reflexivity | intros H200 H201; congruence]];
  intros _; apply (cors_allowOrigin _ before); repeat constructor; discriminate.

(** X10: the statuses of the worker are 200, 201, 400, 401, 404 and 500. A
    response of status 200 or 201 has an [access-control-allow-origin]
    header, whose value is [*] or the [origin] header of the request, and
    its headers are those the handler gave it. Any other response is built
    without headers: the content type of a plain text, which the
    constructor adds for its text, is its only header, and so it has no
    CORS header. *)
Theorem fetch_cors (p : Platform) (request : Request) (env : Env) :
  let r := snd (fetch p request env) in
  (status r = 200 \/ status r = 201 \/ status r = 400 \/ status r = 401 \/ status r = 404
   \/ status r = 500)
  /\ (status r = 200 \/ status r = 201 ->
      exists v, responseHeader r (js "access-control-allow-origin") = Some v
                /\ (v = js "*" \/ headers_get request (js "origin") = Some v))
  /\ (status r = 200 \/ status r = 201 -> headersOf r = response_headers r)
  /\ (status r <> 200 -> status r <> 201 ->
      response_headers r = []
      /\ headersOf r = [(js "content-type", js "text/plain;charset=UTF-8")]).
Proof.
  cbv zeta. unfold responseHeader, fetch.
  destruct (bool_decide (method request = js "OPTIONS")); [allowed (@nil (jsstring * jsstring))|].
  destruct (_ && _).
  { unfold validateApiKey.
    destruct (negb (truthy (API_KEY env))); [refused|].
    destruct (_ || _); [refused|].
    unfold createPixel. destruct (randomHex 9 (random p)) as [id rng].
    destruct (randomHex 16 rng) as [token rest].
    allowed [(js "content-type", js "application/json;charset=utf-8")]. }
  destruct (_ && _).
  { unfold getPixelReport.
    destruct (pathSegments request !! 2%nat) as [id|]; [|refused].
    destruct (loadMeta env id) as [meta|]; [|refused].
    destruct (_ || _); [refused|].
    destruct (bool_decide _).
    - allowed [(js "content-type", js "text/csv;charset=utf-8");
                (js "content-disposition",
                 js "attachment; filename=" ++ [dquote] ++ id ++ js "-events.csv" ++ [dquote])].
    - allowed [(js "content-type", js "application/json;charset=utf-8")]. }
  destruct (_ && _); [|refused].
  unfold servePixel.
  destruct (bool_decide (method request = js "HEAD"));
    (cbn [snd status response_headers]; split; [auto 10|];
     split; [|split; [intros _; reflexivity | intros H200 H201; congruence]];
     intros _; exists (js "*"); split; [reflexivity | now left]).
Qed.

(** The segments of a path that are not empty, when the path goes on with
    slashes, a segment, a slash and anything. *)
Lemma segments_slashes (k : nat) (rest : jsstring) :
  filter (fun segment => truthy segment) (split (cu "/") (replicate k (cu "/") ++ rest))
  = filter (fun segment => truthy segment) (split (cu "/") rest).
Proof.
  induction k as [|k IH]; [reflexivity|].
  cbn [replicate app split]. rewrite N.eqb_refl, filter_cons.
  destruct (decide _) as [H|_]; [now destruct H | exact IH].
Qed.

Lemma segments_first (id tail : jsstring) :
  id <> [] -> cu "/" ∉ id ->
  filter (fun segment => truthy segment) (split (cu "/") (id ++ cu "/" :: tail))
  = id :: filter (fun segment => truthy segment) (split (cu "/") tail).
Proof.
  intros Hne Hslash. rewrite split_app by exact Hslash. rewrite filter_cons.
  destruct (decide _) as [_|H]; [reflexivity|]. destruct id; [congruence | now destruct H].
Qed.

Lemma pathSegments_api (request : Request) (rest : jsstring) :
  pathSegments (withPath request (js "/api/pixels/" ++ rest))
  = js "api" :: js "pixels" :: filter (fun segment => truthy segment) (split (cu "/") rest).
Proof.
  unfold pathSegments. cbn [pathname withPath].
  change (js "/api/pixels/" ++ rest)
    with ([] ++ cu "/" :: js "api" ++ cu "/" :: js "pixels" ++ cu "/" :: rest).
  rewrite (split_app _ []) by apply not_elem_of_nil.
  rewrite !split_app by (apply (bool_decide_unpack _); vm_compute; exact I).
  reflexivity.
Qed.

(** X11: the segments of a path the handlers read. The pixel id is the
    first segment after [/pixel/] (after [/api/pixels/] for a report) that
    is not empty: slashes before it and whatever follows its slash change
    nothing. A report path with nothing but slashes after [/api/pixels/] is
    answered 400. *)
Theorem path_extra_segments (request : Request) (id tail : jsstring) (k : nat) :
  id <> [] ->
  cu "/" ∉ id ->
  let slashes := replicate k (cu "/") in
  (forall p env isHead,
      servePixel p (withPath request (js "/pixel/" ++ slashes ++ id ++ cu "/" :: tail)) env isHead
      = servePixel p (withPath request (js "/pixel/" ++ id)) env isHead)
  /\ (forall env,
         getPixelReport
           (withPath request (js "/api/pixels/" ++ slashes ++ id ++ cu "/" :: tail)) env
         = getPixelReport (withPath request (js "/api/pixels/" ++ id)) env)
  /\ (forall env, getPixelReport (withPath request (js "/api/pixels/" ++ slashes)) env = missingId).
Proof.
  intros Hne Hslash slashes. subst slashes. split; [|split].
  - intros p env isHead.
    assert (Hsame : pixelId (withPath request (js "/pixel/" ++ replicate k (cu "/") ++ id
                                               ++ cu "/" :: tail))
                    = pixelId (withPath request (js "/pixel/" ++ id))).
    { unfold pixelId. rewrite !pathSegments_pixel, segments_slashes, segments_first by assumption.
      rewrite (split_without _ id) by exact Hslash. rewrite (filter_cons _ id).
      destruct (decide _) as [_|H]; [reflexivity|]. destruct id; [congruence | now destruct H]. }
    unfold servePixel. rewrite Hsame. reflexivity.
  - intros env. unfold getPixelReport.
    rewrite !pathSegments_api, segments_slashes, segments_first by assumption.
    rewrite (split_without _ id) by exact Hslash. rewrite (filter_cons _ id).
    destruct (decide _) as [_|H]; [reflexivity|]. destruct id; [congruence | now destruct H].
  - intros env. unfold getPixelReport.
    rewrite pathSegments_api. rewrite <- (app_nil_r (replicate k (cu "/"))), segments_slashes.
    reflexivity.
Qed.

Lemma path_extra_segments_witness :
  servePixel testPlatform
             (withPath pixelRequest (js "/pixel/" ++ js "//" ++ testId ++ js "/a/b.gif"))
             createdEnv false
  = servePixel testPlatform (withPath pixelRequest (js "/pixel/" ++ testId)) createdEnv false.
Proof.
  destruct (path_extra_segments pixelRequest testId (js "a/b.gif") 2) as [Hopen _].
  - discriminate.
  - apply (bool_decide_unpack _). vm_compute. exact I.
  - apply Hopen.
Defined.

(** ** A pixel under any traffic *)

Lemma loadMeta_servePixel (p : Platform) (request : Request) (env : Env) (isHead : bool)
    (id : jsstring) :
  loadMeta (fst (servePixel p request env isHead)) id
  = if decide (id = pixelId request) then countedMeta p <$> loadMeta env id else loadMeta env id.
Proof.
  rewrite servePixel_store.
  destruct (decide (id = pixelId request)) as [->|Hne].
  - destruct (loadMeta env (pixelId request)) as [meta|] eqn:Hmeta.
    + rewrite loadMeta_put_meta. now destruct (decide _).
    + now rewrite Hmeta.
  - destruct (loadMeta env (pixelId request)) as [meta|]; [|reflexivity].
    rewrite loadMeta_put_meta. destruct (decide _); [congruence|]. apply loadMeta_storeEvent.
Qed.

(** What one request does to the [PixelMeta] of a pixel. *)
Lemma fetch_meta_step (p : Platform) (request : Request) (env : Env) (id : jsstring) :
  createsId (API_KEY env) id (p, request) = false ->
  loadMeta (fst (fetch p request env)) id
  = (if isOpenOf id request then countedMeta p else fun meta => meta) <$> loadMeta env id.
Proof.
  assert (Hsame : forall o : option PixelMeta, o = (fun meta => meta) <$> o) by (now intros []).
  unfold createsId, isOpenOf, fetch. cbn [fst snd].
  destruct (bool_decide (method request = js "OPTIONS")) eqn:Eoptions.
  { apply bool_decide_eq_true_1 in Eoptions. rewrite Eoptions. intros _. apply Hsame. }
  destruct (bool_decide (method request = js "POST")) eqn:Epost.
  { apply bool_decide_eq_true_1 in Epost. rewrite Epost. cbn [andb orb].
    change (bool_decide (js "POST" = js "GET")) with false.
    change (bool_decide (js "POST" = js "HEAD")) with false. cbn [andb orb].
    destruct (bool_decide (pathname request = js "/api/pixels")); [|intros _; apply Hsame].
    cbn [andb].
    destruct (validateApiKey request env) as [refusal|] eqn:Ekey; [intros _; apply Hsame|].
    apply validateApiKey_None in Ekey as [Hkey Hsent].
    destruct (API_KEY env) as [|c key] eqn:E; [congruence|]. cbn [truthy andb].
    rewrite (bool_decide_eq_true_2 _ Hsent). cbn [andb]. intros Hid%bool_decide_eq_false_1.
    rewrite createPixel_store, loadMeta_put_meta.
    destruct (decide _); [congruence | apply Hsame]. }
  cbn [andb]. intros _.
  destruct (bool_decide (method request = js "GET")
            && startsWith (pathname request) (js "/api/pixels/"))
    eqn:Ereport.
  { apply andb_true_iff in Ereport as [_ Hpath]. rewrite (pixel_not_api _ Hpath), andb_false_r.
    apply Hsame. }
  clear Ereport.
  destruct ((bool_decide (method request = js "GET") || bool_decide (method request = js "HEAD"))
            && startsWith (pathname request) (js "/pixel/")); [|apply Hsame].
  cbn [andb]. rewrite loadMeta_servePixel.
  destruct (decide (id = pixelId request)) as [->|Hne].
  - now rewrite bool_decide_eq_true_2.
  - rewrite bool_decide_eq_false_2 by congruence. apply Hsame.
Qed.

Lemma serveAll_API_KEY (steps : list (Platform * Request)) (env : Env) :
  API_KEY (serveAll env steps) = API_KEY env.
Proof.
  revert env. induction steps as [|step steps IH]; intros env; [reflexivity|].
  cbn [serveAll foldl]. etransitivity; [apply IH | apply fetch_API_KEY].
Qed.

(** A trace in which the id is not drawn again leaves the pixel its token. *)
Lemma serveAll_tokenHash (id : jsstring) (steps : list (Platform * Request)) :
  forall (env : Env) (meta : PixelMeta),
    loadMeta env id = Some meta ->
    Forall (fun step => createsId (API_KEY env) id step = false) steps ->
    exists meta',
      loadMeta (serveAll env steps) id = Some meta'
      /\ meta_tokenHash meta' = meta_tokenHash meta.
Proof.
  induction steps as [|[p request] steps IH]; intros env meta Hmeta Hsteps.
  - exists meta. now split.
  - apply Forall_cons in Hsteps as [Hstep Hsteps].
    pose proof (fetch_meta_step p request env id Hstep) as Hnext. rewrite Hmeta in Hnext.
    cbn [fmap option_fmap option_map] in Hnext.
    rewrite <- (fetch_API_KEY p request env) in Hsteps.
    destruct (IH _ _ Hnext Hsteps) as (meta' & Hload & Hhash).
    exists meta'. split; [exact Hload|]. rewrite Hhash. now destruct (isOpenOf id request).
Qed.

(** X12: the counter of a pixel under any traffic. After a trace of
    requests in which no accepted creation draws the id of the pixel again,
    the [PixelMeta] is still there with its [id], [createdAt], [label],
    [metadata] and [tokenHash]; its [openCount] has grown by the number of
    requests of the trace that are opens of this pixel, and its
    [lastOpenedAt] is the clock of the last of them. *)
Theorem opens_are_counted (id : jsstring) (env : Env) (meta : PixelMeta)
    (steps : list (Platform * Request)) :
  loadMeta env id = Some meta ->
  Forall (fun step => createsId (API_KEY env) id step = false) steps ->
  let opens := filter (fun step => isOpenOf id (snd step)) steps in
  exists meta',
    loadMeta (serveAll env steps) id = Some meta'
    /\ meta_openCount meta' = meta_openCount meta + N.of_nat (length opens)
    /\ meta_lastOpenedAt meta'
       = match last opens with
         | Some step => Some (newDate (fst step))
         | None => meta_lastOpenedAt meta
         end
    /\ meta_id meta' = meta_id meta /\ meta_createdAt meta' = meta_createdAt meta
    /\ meta_label meta' = meta_label meta /\ meta_metadata meta' = meta_metadata meta
    /\ meta_tokenHash meta' = meta_tokenHash meta.
Proof.
  cbv zeta. revert env meta.
  induction steps as [|[p request] steps IH]; intros env meta Hmeta Hsteps.
  - exists meta. cbn. repeat split; [exact Hmeta | lia].
  - apply Forall_cons in Hsteps as [Hstep Hsteps].
    pose proof (fetch_meta_step p request env id Hstep) as Hnext. rewrite Hmeta in Hnext.
    cbn [fmap option_fmap option_map] in Hnext.
    rewrite <- (fetch_API_KEY p request env) in Hsteps.
    destruct (IH _ _ Hnext Hsteps)
      as (meta' & Hload & Hcount & Hlast & Hid & Hat & Hlabel & Hmd & Hhash).
    exists meta'. cbn [serveAll foldl fst snd]. split; [exact Hload|].
    rewrite filter_cons. cbn [snd].
    destruct (isOpenOf id request) eqn:Eopen.
    + destruct (decide _) as [_|Hn]; [|now destruct Hn].
      rewrite last_cons.
      cbn [length countedMeta meta_openCount meta_id meta_createdAt meta_label meta_metadata
           meta_tokenHash meta_lastOpenedAt fst] in *.
      repeat split; try assumption; [lia|].
      rewrite Hlast. now destruct (last _).
    + destruct (decide _) as [Hy|_]; [now destruct Hy|]. repeat split; assumption.
Qed.

Lemma opens_are_counted_witness :
  exists meta',
    loadMeta (serveAll createdEnv
                [(testPlatform, pixelRequest);
                 (testPlatform, reportRequest (Some testToken) None);
                 (open_platform laterOpen, withMethod (open_request laterOpen) (js "HEAD"))])
             testId = Some meta'
    /\ meta_openCount meta' = 2
    /\ meta_lastOpenedAt meta' = Some 1700000060000
    /\ meta_tokenHash meta' = testHash.
Proof.
  destruct (opens_are_counted testId createdEnv createdMeta
              [(testPlatform, pixelRequest);
               (testPlatform, reportRequest (Some testToken) None);
               (open_platform laterOpen, withMethod (open_request laterOpen) (js "HEAD"))]
              createdMeta_loaded)
    as (meta' & Hload & Hcount & Hlast & _ & _ & _ & _ & Hhash).
  - repeat constructor; vm_compute; reflexivity.
  - exists meta'. split; [exact Hload|]. split; [|split; [|exact Hhash]].
    + rewrite Hcount. vm_compute. reflexivity.
    + rewrite Hlast. vm_compute. reflexivity.
Defined.

Lemma pixelId_separators (id : jsstring) :
  isPixelId id -> id <> [] /\ (cu "/" ∉ id) /\ (cu ":" ∉ id) /\ (cu "." ∉ id).
Proof.
  intros [Hlen Hhex]. split; [intros ->; discriminate|].
  repeat split; (apply hex_avoids; [|exact Hhex]); unfold isHexDigit; vm_compute;
    intuition congruence.
Qed.

Lemma pathSegments_report (request : Request) (id : jsstring) :
  id <> [] -> cu "/" ∉ id ->
  pathname request = js "/api/pixels/" ++ id ->
  pathSegments request = [js "api"; js "pixels"; id].
Proof.
  intros Hne Hslash Hpath. unfold pathSegments. rewrite Hpath.
  change (js "/api/pixels/" ++ id)
    with ([] ++ cu "/" :: js "api" ++ cu "/" :: js "pixels" ++ cu "/" :: id).
  rewrite (split_app _ []) by apply not_elem_of_nil.
  rewrite !split_app by (apply (bool_decide_unpack _); vm_compute; exact I).
  rewrite split_without by exact Hslash.
  destruct id as [|c id]; [congruence|]. reflexivity.
Qed.

Lemma createdId_isPixelId (p : Platform) : isPixelId (createdId p).
Proof. split; apply randomHex_hex. Qed.

(** X13: the token of the creation response opens the report. After a
    creation and any trace of requests in which the id is not drawn again,
    a GET of [/api/pixels/<id>] with the token is answered 200, and it
    leaves the store as it was. *)
Theorem token_opens_report (p p' : Platform) (request report : Request) (env : Env)
    (steps : list (Platform * Request)) :
  Forall (fun step => createsId (API_KEY env) (createdId p) step = false) steps ->
  method report = js "GET" ->
  pathname report = js "/api/pixels/" ++ createdId p ->
  searchParams_get report (js "token") = Some (createdToken p) ->
  let env' := serveAll (fst (createPixel p request env)) steps in
  status (snd (fetch p' report env')) = 200
  /\ fst (fetch p' report env') = env'.
Proof.
  intros Hsteps Hmethod Hpath Htoken env'.
  destruct (pixelId_separators _ (createdId_isPixelId p)) as (Hne & Hslash & _).
  assert (Hfetch : fetch p' report env' = (env', getPixelReport report env')).
  { unfold fetch. rewrite Hmethod, Hpath.
    change (bool_decide (js "GET" = js "OPTIONS")) with false.
    change (bool_decide (js "GET" = js "POST")) with false.
    change (bool_decide (js "GET" = js "GET")) with true.
    cbn [andb]. now rewrite startsWith_app. }
  rewrite Hfetch. cbn [fst snd]. split; [|reflexivity].
  destruct (serveAll_tokenHash (createdId p) steps (fst (createPixel p request env))
              (freshMeta p request)) as (meta' & Hload & Hhash).
  { rewrite createPixel_store, loadMeta_put_meta. now destruct (decide _). }
  { exact Hsteps. }
  unfold getPixelReport.
  rewrite (pathSegments_report report (createdId p) Hne Hslash Hpath).
  cbn [lookup list_lookup]. subst env'. rewrite Hload, Htoken, Hhash.
  cbn [falsy default from_option Datatypes.id freshMeta meta_tokenHash].
  rewrite bool_decide_eq_true_2 by reflexivity.
  assert (Ht : truthy (createdToken p) = true).
  { pose proof (proj2 (randomHex_hex 16 (snd (randomHex 9 (random p))))) as Hlen.
    fold (createdToken p) in Hlen. now destruct (createdToken p). }
  rewrite Ht. cbn [negb orb]. now destruct (bool_decide _).
Qed.

Lemma token_opens_report_witness :
  status (snd (fetch testPlatform (reportRequest (Some testToken) None)
                 (serveAll (fst (createPixel testPlatform createRequest testEnv))
                           [(testPlatform, pixelRequest)]))) = 200.
Proof.
  apply (token_opens_report testPlatform testPlatform createRequest
           (reportRequest (Some testToken) None) testEnv [(testPlatform, pixelRequest)]).
  - repeat constructor.
  - reflexivity.
  - vm_compute. reflexivity.
  - vm_compute. reflexivity.
Defined.

(** ** The events of a pixel *)

Lemma decimal_digits (n : N) : Forall isDigit (decimal n).
Proof.
  unfold decimal.
  assert (H : forall d, Forall isDigit (js (DecimalString.NilEmpty.string_of_uint d))).
  { induction d; cbn; constructor; (exact IHd || (unfold isDigit; vm_compute; split; congruence)). }
  destruct (N.to_uint n);
    [repeat constructor; vm_compute; congruence|..];
    match goal with
    | |- Forall _ (js (DecimalString.NilZero.string_of_uint ?d)) => exact (H d)
    end.
Qed.

Lemma digit_not_colon (s : jsstring) : Forall isDigit s -> cu ":" ∉ s.
Proof.
  intros Hs Hin. rewrite Forall_forall in Hs. apply Hs in Hin.
  unfold isDigit in Hin. vm_compute in Hin. intuition congruence.
Qed.

(** The key of an event of one pixel is not under the prefix of another. *)
Lemma eventKey_other (p : Platform) (id pid : jsstring) :
  cu ":" ∉ pid -> id <> pid -> startsWith (eventKey p pid) (eventKeyPrefix id) = false.
Proof.
  intros Hpid Hne. destruct (startsWith _ _) eqn:E; [|reflexivity]. exfalso.
  apply startsWith_true in E as [rest E]. unfold eventKey, eventKeyPrefix in E.
  rewrite <- !app_assoc in E. apply app_inv_head in E.
  assert (Htail : cu ":" ∉ decimal (Date_now p) ++ js "-" ++ fst (randomHex 3 (random p))).
  { rewrite !elem_of_app. intros [H | [H | H]].
    - now apply (digit_not_colon _ (decimal_digits (Date_now p))).
    - vm_compute in H. apply list_elem_of_singleton in H. discriminate.
    - revert H. apply hex_avoids; [|apply randomHex_hex].
      unfold isHexDigit. vm_compute. intuition congruence. }
  revert E Htail. generalize (decimal (Date_now p) ++ js "-" ++ fst (randomHex 3 (random p))).
  intros tail. change (js ":" ++ ?x) with (cu ":" :: x).
  revert id Hne. induction pid as [|a pid IH]; intros [|c id] Hne E Htail.
  - congruence.
  - cbn in E. injection E as <- ->. apply Htail. set_solver.
  - cbn in E. injection E as -> _. apply Hpid. set_solver.
  - cbn in E. injection E as <- E.
    apply (IH ltac:(set_solver) id); [congruence | exact E | exact Htail].
Qed.

Lemma records_under_put_meta (env : Env) (prefix id : jsstring) (m : PixelMeta) :
  records_under (eventKeyPrefix prefix) (put env (metaKey id) (StoredMeta m))
  = records_under (eventKeyPrefix prefix) env.
Proof.
  unfold records_under, put. cbn [PIXIE_STORE].
  apply map_filter_insert_not. intros y. cbn [fst]. now rewrite metaKey_not_event.
Qed.

Lemma isOpenOf_false (id : jsstring) (request : Request) :
  isOpenOf id request = false ->
  (bool_decide (method request = js "GET") || bool_decide (method request = js "HEAD"))
  && startsWith (pathname request) (js "/pixel/") = true ->
  id <> pixelId request.
Proof.
  unfold isOpenOf. intros H Hroute. rewrite Hroute in H. cbn [andb] in H.
  apply bool_decide_eq_false_1 in H. congruence.
Qed.

(** What one request does to the event records of a pixel it does not
    open: nothing. *)
Lemma fetch_events_step (p : Platform) (request : Request) (env : Env) (id : jsstring) :
  wellFormed env -> isOpenOf id request = false ->
  records_under (eventKeyPrefix id) (fst (fetch p request env))
  = records_under (eventKeyPrefix id) env.
Proof.
  intros Hwf Hopen. unfold fetch.
  destruct (bool_decide (method request = js "OPTIONS")); [reflexivity|].
  destruct (_ && _).
  { destruct (validateApiKey request env); [reflexivity|].
    rewrite createPixel_store. apply records_under_put_meta. }
  destruct (_ && _); [reflexivity|].
  destruct (_ && _) eqn:Eroute; [|reflexivity].
  pose proof (isOpenOf_false id request Hopen Eroute) as Hne.
  rewrite servePixel_store.
  destruct (loadMeta env (pixelId request)) as [meta|] eqn:Hmeta; [|reflexivity].
  destruct (wellFormed_meta env _ meta Hwf Hmeta) as (_ & Hpix & _).
  destruct (pixelId_separators _ Hpix) as (_ & _ & Hcolon & _).
  rewrite records_under_put_meta. unfold records_under, storeEvent, put. cbn [PIXIE_STORE].
  apply map_filter_insert_not. intros y. cbn [fst]. now rewrite eventKey_other.
Qed.

Lemma records_under_lookup (prefix key : jsstring) (env : Env) (value : Stored) :
  records_under prefix env !! key = Some value
  <-> PIXIE_STORE env !! key = Some value /\ startsWith key prefix = true.
Proof.
  unfold records_under. rewrite map_lookup_filter_Some. cbn [fst].
  now rewrite Is_true_true.
Qed.

(** The keys under a prefix, as the listing meets them. *)
Lemma keys_under (env : Env) (prefix : jsstring) :
  filter (fun name => startsWith name prefix) (map fst (map_to_list (PIXIE_STORE env)))
  ≡ₚ (map_to_list (records_under prefix env)).*1.
Proof.
  apply NoDup_Permutation.
  - apply NoDup_filter, NoDup_fst_map_to_list.
  - apply NoDup_fst_map_to_list.
  - intros key. rewrite list_elem_of_filter, !list_elem_of_fmap. split.
    + intros (Hkey & [k v] & -> & Hin%elem_of_map_to_list). exists (k, v). split; [reflexivity|].
      apply elem_of_map_to_list, records_under_lookup. split; [exact Hin|].
      now apply Is_true_true.
    + intros ([k v] & -> & Hin%elem_of_map_to_list%records_under_lookup).
      destruct Hin as [Hin Hkey]. split; [now apply Is_true_true|].
      exists (k, v). split; [reflexivity | now apply elem_of_map_to_list].
Qed.

(** Below the limit the listing has every key under the prefix. *)
Lemma list_keys_all (env : Env) (prefix : jsstring) (limit : nat) :
  (size (records_under prefix env) <= limit)%nat ->
  list_keys env prefix limit ≡ₚ (map_to_list (records_under prefix env)).*1.
Proof.
  intros Hsize. unfold list_keys. rewrite take_ge; [apply keys_under|].
  rewrite (Permutation_length (keys_under env prefix)), length_fmap, length_map_to_list.
  exact Hsize.
Qed.

Lemma omap_keys (store : gmap (list N) Stored) (l : list (list N * Stored)) :
  Forall (fun kv => store !! fst kv = Some (snd kv)) l ->
  omap (fun name => match store !! name with
                    | Some (StoredEvent e) => Some e
                    | _ => None
                    end) (l.*1)
  = omap (fun kv => match snd kv with
                    | StoredEvent e => Some e
                    | StoredMeta _ => None
                    end) l.
Proof.
  induction 1 as [|[k v] l Hkv _ IH]; [reflexivity|].
  cbn [fmap list_fmap omap list_omap fst snd] in *. rewrite Hkv, IH. reflexivity.
Qed.

(** Below the limit the events of the listing are the events kept under
    the prefix. *)
Lemma listedEvents_all (env : Env) (id : jsstring) :
  (size (records_under (eventKeyPrefix id) env) <= 1000)%nat ->
  listedEvents env id ≡ₚ storedEvents (records_under (eventKeyPrefix id) env).
Proof.
  intros Hsize. unfold listedEvents, storedEvents.
  rewrite (list_keys_all env _ 1000 Hsize). rewrite omap_keys; [reflexivity|].
  apply Forall_forall. intros [k v] Hin%elem_of_map_to_list%records_under_lookup. apply Hin.
Qed.

Lemma length_omap_le {A B} (f : A -> option B) (l : list A) :
  (length (omap f l) <= length l)%nat.
Proof.
  induction l as [|x l IH]; [reflexivity|]. cbn [omap list_omap length].
  destruct (f x); cbn [length]; lia.
Qed.

Lemma storedEvents_insert (records : gmap (list N) Stored) (key : jsstring) (e : PixelEvent) :
  records !! key = None ->
  storedEvents (<[key := StoredEvent e]> records) ≡ₚ e :: storedEvents records.
Proof.
  intros Hfresh. unfold storedEvents. now rewrite (map_to_list_insert _ _ _ Hfresh).
Qed.

(** X14: what [loadEvents] returns. It never returns more than 1000
    events; each of them is kept in the store under a key that starts with
    [events:<id>:]; and when at most 1000 records are kept under this
    prefix, every event kept under it is returned. *)
Theorem loadEvents_listing (env : Env) (id : jsstring) :
  (length (loadEvents env id) <= 1000)%nat
  /\ (forall e, e ∈ loadEvents env id ->
                exists key, startsWith key (eventKeyPrefix id) = true
                            /\ PIXIE_STORE env !! key = Some (StoredEvent e))
  /\ ((size (records_under (eventKeyPrefix id) env) <= 1000)%nat ->
      forall key e, startsWith key (eventKeyPrefix id) = true ->
                    PIXIE_STORE env !! key = Some (StoredEvent e) ->
                    e ∈ loadEvents env id).
Proof.
  destruct (loadEvents_sorted env id) as [_ Hperm]. split; [|split].
  - rewrite (Permutation_length Hperm). unfold listedEvents, list_keys.
    etransitivity; [apply length_omap_le|]. rewrite length_take. lia.
  - intros e. rewrite Hperm. unfold listedEvents.
    intros (key & Hkey & Hev)%list_elem_of_omap. exists key.
    apply subseteq_take, list_elem_of_filter in Hkey as [Hprefix _].
    split; [now apply Is_true_true|].
    destruct (PIXIE_STORE env !! key) as [[m|e']|]; congruence.
  - intros Hsize key e Hprefix Hstored. rewrite Hperm, (listedEvents_all env id Hsize).
    apply list_elem_of_omap. exists (key, StoredEvent e). split; [|reflexivity].
    apply elem_of_map_to_list, records_under_lookup. now split.
Qed.

(** X15: an open of a pixel the store has is in its report. When the
    store then keeps at most 1000 records for the pixel, the event of the
    open is among the events [loadEvents] returns; and when its key was not
    in use, these events are the event of the open and the events returned
    before, in some order. *)
Theorem open_is_reported (p : Platform) (request : Request) (env : Env) (isHead : bool)
    (meta : PixelMeta) :
  loadMeta env (pixelId request) = Some meta ->
  let id := pixelId request in
  let env' := fst (servePixel p request env isHead) in
  (size (records_under (eventKeyPrefix id) env') <= 1000)%nat ->
  buildEventRecord p request ∈ loadEvents env' id
  /\ (records_under (eventKeyPrefix id) env !! eventKey p id = None ->
      loadEvents env' id ≡ₚ buildEventRecord p request :: loadEvents env id).
Proof.
  intros Hmeta id env' Hsize.
  destruct (servePixel_found p request env isHead meta Hmeta) as [_ Hrecords].
  fold id env' in Hrecords.
  destruct (loadEvents_sorted env' id) as [_ Hperm'].
  destruct (loadEvents_sorted env id) as [_ Hperm].
  rewrite Hperm', (listedEvents_all env' id Hsize), Hrecords. split.
  - apply list_elem_of_omap. exists (eventKey p id, StoredEvent (buildEventRecord p request)).
    split; [|reflexivity]. apply elem_of_map_to_list, lookup_insert_eq.
  - intros Hfresh. rewrite (storedEvents_insert _ _ _ Hfresh), Hperm.
    rewrite Hrecords, (map_size_insert_None _ _ _ Hfresh) in Hsize.
    rewrite listedEvents_all by lia. reflexivity.
Qed.

Lemma open_is_reported_witness :
  buildEventRecord testPlatform pixelRequest ∈ loadEvents openedEnv testId.
Proof.
  apply (open_is_reported testPlatform pixelRequest createdEnv false createdMeta
           createdMeta_loaded).
  vm_compute. lia.
Defined.

(** X16: the events of a pixel belong to it. In a well formed store a
    request that is not an open of the pixel [id] leaves the records under
    [events:<id>:] as they were: the key of an event of another pixel never
    starts with this prefix. Below the limit of the listing [loadEvents]
    returns the same events as before, in some order. *)
Theorem events_of_other_pixels (p : Platform) (request : Request) (env : Env) (id : jsstring) :
  wellFormed env ->
  isOpenOf id request = false ->
  records_under (eventKeyPrefix id) (fst (fetch p request env))
  = records_under (eventKeyPrefix id) env
  /\ ((size (records_under (eventKeyPrefix id) env) <= 1000)%nat ->
      loadEvents (fst (fetch p request env)) id ≡ₚ loadEvents env id).
Proof.
  intros Hwf Hopen. pose proof (fetch_events_step p request env id Hwf Hopen) as Hsame.
  split; [exact Hsame|]. intros Hsize.
  rewrite (proj2 (loadEvents_sorted _ id)), (proj2 (loadEvents_sorted env id)).
  rewrite !listedEvents_all by (rewrite ?Hsame; exact Hsize). now rewrite Hsame.
Qed.

Lemma events_of_other_pixels_witness :
  records_under (eventKeyPrefix (js "ffffffffffffffffff"))
                (fst (fetch testPlatform pixelRequest createdEnv))
  = records_under (eventKeyPrefix (js "ffffffffffffffffff")) createdEnv.
Proof.
  apply (events_of_other_pixels testPlatform pixelRequest createdEnv (js "ffffffffffffffffff")).
  - apply fetch_wellFormed, empty_wellFormed.
  - vm_compute. reflexivity.
Defined.

Lemma isOpenOf_true (id : jsstring) (request : Request) :
  isOpenOf id request = true ->
  (method request = js "GET" \/ method request = js "HEAD")
  /\ startsWith (pathname request) (js "/pixel/") = true
  /\ pixelId request = id.
Proof.
  unfold isOpenOf. intros [[Hm Hp]%andb_true_iff Hid%bool_decide_eq_true_1]%andb_true_iff.
  split; [|now split].
  apply orb_true_iff in Hm as [Hm%bool_decide_eq_true_1 | Hm%bool_decide_eq_true_1]; auto.
Qed.

(** What one request does to the number of event records of a pixel. *)
Lemma fetch_records_step (p : Platform) (request : Request) (env : Env) (id : jsstring) :
  wellFormed env -> is_Some (loadMeta env id) ->
  (size (records_under (eventKeyPrefix id) (fst (fetch p request env)))
   <= size (records_under (eventKeyPrefix id) env) + (if isOpenOf id request then 1 else 0))%nat.
Proof.
  intros Hwf [meta Hmeta]. destruct (isOpenOf id request) eqn:Eopen.
  - apply isOpenOf_true in Eopen as (Hmethod & Hpath & <-).
    rewrite (fetch_open p request env Hmethod Hpath).
    destruct (servePixel_found p request env (bool_decide (method request = js "HEAD")) meta Hmeta)
      as [_ ->].
    rewrite map_size_insert. destruct (_ !! _); cbn [Datatypes.id]; unfold Datatypes.id; lia.
  - rewrite (fetch_events_step p request env id Hwf Eopen). lia.
Qed.

Lemma length_loadEvents (env : Env) (id : jsstring) :
  (length (loadEvents env id) <= size (records_under (eventKeyPrefix id) env))%nat.
Proof.
  rewrite (Permutation_length (proj2 (loadEvents_sorted env id))).
  unfold listedEvents. etransitivity; [apply length_omap_le|].
  unfold list_keys. rewrite length_take.
  etransitivity; [apply Nat.le_min_r|].
  rewrite (Permutation_length (keys_under env _)), length_fmap, length_map_to_list. reflexivity.
Qed.

(** X17: a report never has more events than the counter says. When a
    well formed store keeps at most [openCount] event records for a pixel,
    it still does after any trace of requests in which the id is not drawn
    again; and [loadEvents] returns at most [openCount] events. *)
Theorem events_within_count (id : jsstring) (env : Env) (meta : PixelMeta)
    (steps : list (Platform * Request)) :
  wellFormed env ->
  loadMeta env id = Some meta ->
  N.of_nat (size (records_under (eventKeyPrefix id) env)) <= meta_openCount meta ->
  Forall (fun step => createsId (API_KEY env) id step = false) steps ->
  exists meta',
    loadMeta (serveAll env steps) id = Some meta'
    /\ N.of_nat (size (records_under (eventKeyPrefix id) (serveAll env steps)))
       <= meta_openCount meta'
    /\ N.of_nat (length (loadEvents (serveAll env steps) id)) <= meta_openCount meta'.
Proof.
  intros Hwf Hmeta Hcount Hsteps.
  assert (Hmain : exists meta',
             loadMeta (serveAll env steps) id = Some meta'
             /\ N.of_nat (size (records_under (eventKeyPrefix id) (serveAll env steps)))
                <= meta_openCount meta').
  { revert env meta Hwf Hmeta Hcount Hsteps.
    induction steps as [|[p request] steps IH]; intros env meta Hwf Hmeta Hcount Hsteps.
    - exists meta. now split.
    - apply Forall_cons in Hsteps as [Hstep Hsteps].
      pose proof (fetch_meta_step p request env id Hstep) as Hnext. rewrite Hmeta in Hnext.
      cbn [fmap option_fmap option_map] in Hnext.
      pose proof (fetch_records_step p request env id Hwf (ex_intro _ meta Hmeta)) as Hsize.
      rewrite <- (fetch_API_KEY p request env) in Hsteps.
      cbn [serveAll foldl fst snd].
      apply (IH _ _ (fetch_wellFormed p request env Hwf) Hnext); [|exact Hsteps].
      destruct (isOpenOf id request); cbn [countedMeta meta_openCount]; lia. }
  destruct Hmain as (meta' & Hload & Hsize). exists meta'.
  split; [exact Hload|]. split; [exact Hsize|].
  pose proof (length_loadEvents (serveAll env steps) id). lia.
Qed.

Lemma events_within_count_witness :
  exists meta',
    loadMeta (serveAll createdEnv [(testPlatform, pixelRequest); (testPlatform, pixelRequest)])
             testId
    = Some meta'
    /\ N.of_nat (length (loadEvents (serveAll createdEnv [(testPlatform, pixelRequest);
                                                            (testPlatform, pixelRequest)]) testId))
       <= meta_openCount meta'.
Proof.
  destruct (events_within_count testId createdEnv createdMeta
              [(testPlatform, pixelRequest); (testPlatform, pixelRequest)])
    as (meta' & Hload & _ & Hlen).
  - apply fetch_wellFormed, empty_wellFormed.
  - exact createdMeta_loaded.
  - vm_compute. discriminate.
  - repeat constructor.
  - exists meta'. split; [exact Hload | exact Hlen].
Defined.

(** ** The report of a pixel *)

Lemma pixelId_path (request : Request) (rest : jsstring) :
  pathname request = js "/pixel/" ++ rest -> pixelId request = firstSegment (split (cu "/") rest).
Proof.
  intros Hpath. rewrite <- (pixelId_pixel request rest).
  unfold pixelId, pathSegments. cbn [pathname withPath]. now rewrite Hpath.
Qed.

Lemma pixelId_gif (request : Request) (id : jsstring) :
  isPixelId id -> pathname request = js "/pixel/" ++ id ++ js ".gif" -> pixelId request = id.
Proof.
  intros Hid Hpath. destruct (pixelId_separators id Hid) as (Hne & Hslash & _).
  rewrite (pixelId_path request _ Hpath). unfold firstSegment.
  rewrite split_without.
  - rewrite filter_cons. destruct (decide _) as [_|H].
    + cbn [head default from_option Datatypes.id]. now apply stripGif_suffix.
    + destruct id; [congruence | now destruct H].
  - rewrite elem_of_app. intros [H | H]; [now apply Hslash|].
    revert H. apply (bool_decide_unpack _). vm_compute. exact I.
Qed.

Lemma getPixelReport_authorized (request : Request) (env : Env) (id : jsstring) (meta : PixelMeta) :
  pathSegments request !! 2%nat = Some id ->
  loadMeta env id = Some meta ->
  goodToken request meta ->
  getPixelReport request env
  = if bool_decide (searchParams_get request (js "format") = Some (js "csv"))
    then {| status := 200;
            response_headers :=
              [(js "content-type", js "text/csv;charset=utf-8");
               (js "content-disposition",
                js "attachment; filename=" ++ [dquote] ++ id ++ js "-events.csv" ++ [dquote])]
              ++ corsHeaders (Some request);
            body := BodyText (buildCsv meta (loadEvents env id)) |}
    else jsonResponse
           (JObject [(js "meta", json_of_safe (sanitizeMeta meta));
                     (js "events", JArray (map json_of_event (loadEvents env id)))])
           200 (Some request).
Proof.
  intros Hid Hmeta (token & Htoken & Hne & Hhash).
  unfold getPixelReport. rewrite Hid, Hmeta, Htoken.
  cbn [falsy default from_option Datatypes.id].
  rewrite (bool_decide_eq_true_2 _ Hhash). destruct token; [congruence | reflexivity].
Qed.

Lemma createdToken_nonempty (p : Platform) : createdToken p <> [].
Proof.
  pose proof (proj2 (randomHex_hex 16 (snd (randomHex 9 (random p))))) as Hlen.
  fold (createdToken p) in Hlen. intros E. now rewrite E in Hlen.
Qed.

(** X18: a creation, an open, a report, for any payload, headers, clock
    and random bytes (the scenario of test/index.test.ts). When the store
    keeps no event under the id that the creation draws, after the creation
    and a GET or a HEAD of [/pixel/<id>.gif] the [PixelMeta] is the created
    one with [openCount] 1 and the clock of the open as [lastOpenedAt];
    [loadEvents] returns the event of the open and nothing else; and a GET
    of [/api/pixels/<id>] with the token is answered 200 with this
    [PixelMeta], without its [tokenHash], and this event. *)
Theorem create_open_report (p1 p2 p3 : Platform) (creation open report : Request) (env : Env) :
  let id := createdId p1 in
  let event := buildEventRecord p2 open in
  let meta := countedMeta p2 (freshMeta p1 creation) in
  let env2 := fst (fetch p2 open (fst (createPixel p1 creation env))) in
  records_under (eventKeyPrefix id) env = ∅ ->
  method open = js "GET" \/ method open = js "HEAD" ->
  pathname open = js "/pixel/" ++ id ++ js ".gif" ->
  method report = js "GET" ->
  pathname report = js "/api/pixels/" ++ id ->
  searchParams_get report (js "token") = Some (createdToken p1) ->
  loadMeta env2 id = Some meta
  /\ loadEvents env2 id = [event]
  /\ status (snd (fetch p3 report env2)) = 200
  /\ body (snd (fetch p3 report env2))
     = BodyText
         (if bool_decide (searchParams_get report (js "format") = Some (js "csv"))
          then buildCsv meta [event]
          else JSON_stringify 2
                 (JObject [(js "meta", json_of_safe (sanitizeMeta meta));
                           (js "events", JArray [json_of_event event])])).
Proof.
  intros id event meta env2 Hfresh Hmethod Hopen Hget Hreport Htoken.
  pose proof (createdId_isPixelId p1) as Hid. fold id in Hid.
  destruct (pixelId_separators id Hid) as (Hne & Hslash & _).
  assert (Hpixel : pixelId open = id) by now apply pixelId_gif.
  assert (Hcreated : loadMeta (fst (createPixel p1 creation env)) id
                     = Some (freshMeta p1 creation)).
  { rewrite createPixel_store, loadMeta_put_meta. now destruct (decide _). }
  assert (Henv2 : env2 = fst (servePixel p2 open (fst (createPixel p1 creation env))
                                (bool_decide (method open = js "HEAD")))).
  { unfold env2. rewrite fetch_open; [reflexivity | exact Hmethod|].
    rewrite Hopen. apply startsWith_app. }
  assert (Hmeta : loadMeta env2 id = Some meta).
  { rewrite Henv2, loadMeta_servePixel, Hpixel, Hcreated. now destruct (decide _). }
  assert (Hevents : loadEvents env2 id = [event]).
  { rewrite <- Hpixel in Hcreated.
    destruct (servePixel_found p2 open _ (bool_decide (method open = js "HEAD")) _ Hcreated)
      as [_ Hrecords].
    rewrite Hpixel, <- Henv2, createPixel_store, records_under_put_meta, Hfresh in Hrecords.
    apply Permutation_singleton_r. rewrite (proj2 (loadEvents_sorted env2 id)).
    rewrite listedEvents_all
      by (rewrite Hrecords, map_size_insert_None, map_size_empty; [lia | apply lookup_empty]).
    rewrite Hrecords, storedEvents_insert by apply lookup_empty.
    unfold storedEvents. now rewrite map_to_list_empty. }
  split; [exact Hmeta|]. split; [exact Hevents|].
  rewrite fetch_report; [|exact Hget | rewrite Hreport; apply startsWith_app].
  cbn [snd].
  rewrite (getPixelReport_authorized report env2 id meta).
  - rewrite Hevents.
    destruct (bool_decide (searchParams_get report (js "format") = Some (js "csv")));
      split; reflexivity.
  - now rewrite (pathSegments_report report id Hne Hslash Hreport).
  - exact Hmeta.
  - exists (createdToken p1). split; [exact Htoken|].
    split; [apply createdToken_nonempty | reflexivity].
Qed.

Lemma create_open_report_witness :
  loadEvents openedEnv testId = [buildEventRecord testPlatform pixelRequest]
  /\ status (snd (fetch testPlatform (reportRequest (Some testToken) None) openedEnv)) = 200.
Proof.
  destruct (create_open_report testPlatform testPlatform testPlatform createRequest pixelRequest
              (reportRequest (Some testToken) None) testEnv)
    as (_ & Hevents & Hstatus & _).
  - reflexivity.
  - now left.
  - vm_compute. reflexivity.
  - reflexivity.
  - vm_compute. reflexivity.
  - vm_compute. reflexivity.
  - split; [exact Hevents | exact Hstatus].
Defined.

(** X19: a report is answered 200 only for a pixel and its token. In a
    well formed store a report of status 200 names, as third segment of its
    path, the id of a [PixelMeta] of the store, eighteen hexadecimal
    digits, and its token is not empty and has the stored digest; the file
    name of a CSV report is that id followed by [-events.csv]. *)
Theorem report_names_pixel (request : Request) (env : Env) :
  wellFormed env ->
  status (getPixelReport request env) = 200 ->
  exists id meta,
    pathSegments request !! 2%nat = Some id
    /\ loadMeta env id = Some meta
    /\ goodToken request meta
    /\ isPixelId id /\ meta_id meta = id
    /\ (searchParams_get request (js "format") = Some (js "csv") ->
        responseHeader (getPixelReport request env) (js "content-disposition")
        = Some (js "attachment; filename=" ++ [dquote] ++ id ++ js "-events.csv" ++ [dquote])).
Proof.
  intros Hwf Hstatus.
  destruct (pathSegments request !! 2%nat) as [id|] eqn:Hid;
    [|unfold getPixelReport in Hstatus; rewrite Hid in Hstatus; discriminate].
  destruct (loadMeta env id) as [meta|] eqn:Hmeta;
    [|unfold getPixelReport in Hstatus; rewrite Hid, Hmeta in Hstatus; discriminate].
  assert (Hgood : goodToken request meta).
  { unfold getPixelReport in Hstatus. rewrite Hid, Hmeta in Hstatus. unfold goodToken.
    destruct (searchParams_get request (js "token")) as [token|]; [|discriminate].
    cbn [falsy default from_option Datatypes.id] in Hstatus.
    destruct token as [|c token]; [discriminate|]. cbn [truthy negb orb] in Hstatus.
    destruct (decide (sha256Hex (c :: token) = meta_tokenHash meta)) as [Hhash|Hne].
    - exists (c :: token). split; [reflexivity|]. split; [discriminate | exact Hhash].
    - rewrite (bool_decide_eq_false_2 _ Hne) in Hstatus. discriminate. }
  destruct (wellFormed_meta env id meta Hwf Hmeta) as (Hsame & Hpix & _).
  exists id, meta. split; [reflexivity|]. split; [exact Hmeta|]. split; [exact Hgood|].
  split; [exact Hpix|]. split; [exact Hsame|].
  intros Hformat. rewrite (getPixelReport_authorized request env id meta Hid Hmeta Hgood).
  rewrite bool_decide_eq_true_2 by exact Hformat. reflexivity.
Qed.

Lemma report_names_pixel_witness :
  exists id meta,
    pathSegments (reportRequest (Some testToken) (Some (js "csv"))) !! 2%nat = Some id
    /\ loadMeta openedEnv id = Some meta
    /\ isPixelId id.
Proof.
  destruct (report_names_pixel (reportRequest (Some testToken) (Some (js "csv"))) openedEnv)
    as (id & meta & Hid & Hmeta & _ & Hpix & _).
  - apply fetch_wellFormed, fetch_wellFormed, empty_wellFormed.
  - vm_compute. reflexivity.
  - exists id, meta. split; [exact Hid|]. split; [exact Hmeta | exact Hpix].
Defined.

(** ** Reading the CSV report back *)

Lemma csvRead_shape (quoted : bool) (text : jsstring) :
  exists field fields others, csvRead quoted text = (field :: fields) :: others.
Proof.
  revert quoted. induction text as [|c text IH]; intros quoted; cbn [csvRead]; [eauto|].
  destruct (IH (if c =? dquote then negb quoted else quoted)) as (f & fs & os & ->).
  destruct (negb quoted && (c =? LF)); [eauto|].
  destruct (negb quoted && (c =? cu ",")); eauto.
Qed.

(** A field goes in front of what follows it. *)
Lemma csvRead_field (field : jsstring) :
  forall (quoted after : bool) (rest : jsstring),
    fieldEnd quoted field = Some after ->
    csvRead quoted (field ++ rest)
    = match csvRead after rest with
      | (x :: fields) :: others => ((field ++ x) :: fields) :: others
      | other => other
      end.
Proof.
  induction field as [|c field IH]; intros quoted after rest Hend.
  - cbn in Hend. injection Hend as <-. cbn [app].
    now destruct (csvRead_shape quoted rest) as (f & fs & os & ->).
  - cbn [fieldEnd] in Hend. cbn [app csvRead].
    destruct (negb quoted && ((c =? LF) || (c =? cu ","))) eqn:Esep; [discriminate|].
    rewrite (IH _ _ rest Hend).
    destruct (csvRead_shape after rest) as (f & fs & os & ->).
    destruct quoted; cbn [negb andb] in *; [reflexivity|].
    apply orb_false_iff in Esep as [-> ->]. reflexivity.
Qed.

Lemma csvRead_last (field : jsstring) :
  fieldEnd false field = Some false -> csvRead false field = [[field]].
Proof.
  intros Hend. rewrite <- (app_nil_r field) at 1. rewrite (csvRead_field _ _ _ _ Hend).
  cbn. now rewrite app_nil_r.
Qed.

Lemma csvRead_comma (field rest : jsstring) :
  fieldEnd false field = Some false ->
  csvRead false (field ++ cu "," :: rest)
  = match csvRead false rest with
    | fields :: others => (field :: fields) :: others
    | [] => []
    end.
Proof.
  intros Hend. rewrite (csvRead_field _ _ _ _ Hend). cbn [csvRead].
  change (cu "," =? dquote) with false. change (cu "," =? LF) with false.
  change (cu "," =? cu ",") with true. cbn [negb andb].
  destruct (csvRead_shape false rest) as (f & fs & os & ->). now rewrite app_nil_r.
Qed.

Lemma csvRead_linefeed (field rest : jsstring) :
  fieldEnd false field = Some false ->
  csvRead false (field ++ LF :: rest) = [field] :: csvRead false rest.
Proof.
  intros Hend. rewrite (csvRead_field _ _ _ _ Hend). cbn [csvRead].
  change (LF =? dquote) with false. change (LF =? LF) with true. cbn [negb andb].
  now rewrite app_nil_r.
Qed.

(** A line of fields, at the end of the text or before a line feed. *)
Lemma csvRead_line (fields : list jsstring) :
  fields <> [] ->
  Forall (fun field => fieldEnd false field = Some false) fields ->
  csvRead false (join (js ",") fields) = [fields]
  /\ forall rest, csvRead false (join (js ",") fields ++ LF :: rest)
                  = fields :: csvRead false rest.
Proof.
  intros Hne Hfields. induction Hfields as [|field fields Hfield Hfields IH]; [congruence|].
  destruct fields as [|field' fields].
  - cbn [join]. split; [now apply csvRead_last | intros rest; now apply csvRead_linefeed].
  - destruct IH as [IHlast IHrest]; [discriminate|].
    change (join (js ",") (field :: field' :: fields))
      with (field ++ cu "," :: join (js ",") (field' :: fields)).
    split.
    + now rewrite (csvRead_comma _ _ Hfield), IHlast.
    + intros rest. rewrite <- app_assoc. cbn [app].
      now rewrite (csvRead_comma _ _ Hfield), IHrest.
Qed.

Lemma csvRead_lines (first : list jsstring) (others : list (list jsstring)) :
  Forall (fun fields => fields <> []
                        /\ Forall (fun field => fieldEnd false field = Some false) fields)
         (first :: others) ->
  csvRead false (join [LF] (map (join (js ",")) (first :: others))) = first :: others.
Proof.
  revert first. induction others as [|second others IH]; intros first Hall.
  - apply Forall_cons in Hall as [[Hne Hfields] _]. cbn [map join].
    now apply csvRead_line.
  - apply Forall_cons in Hall as [[Hne Hfields] Hall].
    change (join [LF] (map (join (js ",")) (first :: second :: others)))
      with (join (js ",") first ++ LF :: join [LF] (map (join (js ",")) (second :: others))).
    rewrite (proj2 (csvRead_line first Hne Hfields)). now rewrite IH.
Qed.

Lemma plain_closed (field : jsstring) :
  plainField field -> fieldEnd false field = Some false.
Proof.
  intros (Hcomma & Hlf & Hquote). induction field as [|c field IH]; [reflexivity|].
  apply not_elem_of_cons in Hcomma as [Hc1 Hcomma], Hlf as [Hc2 Hlf], Hquote as [Hc3 Hquote].
  cbn [fieldEnd negb andb].
  apply not_eq_sym, N.eqb_neq in Hc1, Hc2, Hc3. rewrite Hc1, Hc2, Hc3. cbn [orb].
  now apply IH.
Qed.

(** Between quotes the doubled quotes of a text leave the reader between
    quotes. *)
Lemma doubled_quoted (v rest : jsstring) :
  fieldEnd true (replaceAll dquote [dquote; dquote] v ++ rest) = fieldEnd true rest.
Proof.
  unfold replaceAll. induction v as [|c v IH]; [reflexivity|].
  cbn [flat_map]. destruct (N.eqb_spec c dquote) as [->|Hc].
  - cbn [app fieldEnd negb andb]. rewrite N.eqb_refl. cbn [negb andb].
    change ((dquote =? LF) || (dquote =? cu ",")) with false. cbn [negb]. exact IH.
  - cbn [app fieldEnd negb andb]. apply N.eqb_neq in Hc. rewrite Hc. exact IH.
Qed.

(** Outside quotes they leave it outside, when the text has no separator. *)
Lemma doubled_bare (v : jsstring) :
  cu "," ∉ v -> LF ∉ v -> fieldEnd false (replaceAll dquote [dquote; dquote] v) = Some false.
Proof.
  unfold replaceAll. induction v as [|c v IH]; intros Hcomma Hlf; [reflexivity|].
  apply not_elem_of_cons in Hcomma as [Hc1 Hcomma], Hlf as [Hc2 Hlf].
  cbn [flat_map]. destruct (N.eqb_spec c dquote) as [->|Hc].
  - cbn [app fieldEnd negb andb]. rewrite N.eqb_refl. cbn [negb andb].
    change ((dquote =? LF) || (dquote =? cu ",")) with false. cbn [negb]. now apply IH.
  - cbn [app fieldEnd negb andb]. apply N.eqb_neq in Hc. rewrite Hc.
    apply not_eq_sym, N.eqb_neq in Hc1, Hc2. rewrite Hc1, Hc2. cbn [orb]. now apply IH.
Qed.

Lemma replaceAll_other (c q : N) (v : jsstring) :
  c <> q -> c ∈ replaceAll q [q; q] v -> c ∈ v.
Proof.
  intros Hc. unfold replaceAll. intros Hin%list_elem_of_In%in_flat_map.
  destruct Hin as (x & Hx%list_elem_of_In & Hin). destruct (x =? q).
  - cbn in Hin. intuition congruence.
  - cbn in Hin. destruct Hin as [<- | []]. exact Hx.
Qed.

Lemma escapeCsv_closed (value : option jsstring) :
  fieldEnd false (escapeCsv value) = Some false.
Proof.
  unfold escapeCsv. destruct value as [v|]; [|reflexivity].
  destruct (negb (truthy v)); [reflexivity|].
  destruct (includes _ (js ",") || includes _ [LF]) eqn:Esep.
  - cbn [app fieldEnd negb andb]. rewrite N.eqb_refl.
    change ((dquote =? LF) || (dquote =? cu ",")) with false. cbn [negb].
    rewrite doubled_quoted. reflexivity.
  - apply orb_false_iff in Esep as [Hcomma%includes_unit_false Hlf%includes_unit_false].
    destruct (decide (cu "," ∈ v)) as [Hin|Hcomma'].
    { exfalso. apply Hcomma. apply includes_unit, includes_replaceAll;
        [vm_compute; congruence | now apply includes_unit]. }
    destruct (decide (LF ∈ v)) as [Hin|Hlf'].
    { exfalso. apply Hlf. apply includes_unit, includes_replaceAll;
        [vm_compute; congruence | now apply includes_unit]. }
    now apply doubled_bare.
Qed.

Lemma padNumber_digits (width : nat) (z : Z) : Forall isDigit (padNumber width z).
Proof.
  unfold padNumber, padStart. apply Forall_app. split; [|apply decimal_digits].
  apply Forall_replicate. unfold isDigit. vm_compute. split; congruence.
Qed.

Lemma digits_plain (s : jsstring) :
  Forall isDigit s -> Forall (fun c => c <> cu "," /\ c <> LF /\ c <> dquote) s.
Proof.
  intros Hs. eapply Forall_impl; [exact Hs|]. unfold isDigit. intros c Hc.
  vm_compute. repeat split; intros ->; lia.
Qed.

Lemma toISOString_plain (t : N) : plainField (toISOString t).
Proof.
  assert (H : Forall (fun c => c <> cu "," /\ c <> LF /\ c <> dquote) (toISOString t)).
  { unfold toISOString. destruct (civilFromDays _) as [[y m] d].
    repeat match goal with
           | |- Forall _ (_ ++ _) => apply Forall_app; split
           | |- Forall _ (padNumber _ _) => apply digits_plain, padNumber_digits
           | |- Forall _ (js _) => repeat constructor; vm_compute; congruence
           end.
    destruct (y <=? 9999)%Z; [apply digits_plain, padNumber_digits|].
    constructor; [vm_compute; repeat split; congruence | apply digits_plain, padNumber_digits]. }
  rewrite Forall_forall in H. repeat split; intros Hin; apply H in Hin; tauto.
Qed.

Lemma replaceAll_none (q : N) (by_ v : jsstring) : q ∉ v -> replaceAll q by_ v = v.
Proof.
  unfold replaceAll. induction v as [|c v IH]; intros Hq; [reflexivity|].
  apply not_elem_of_cons in Hq as [Hc Hq]. cbn [flat_map].
  apply not_eq_sym, N.eqb_neq in Hc. rewrite Hc, (IH Hq). reflexivity.
Qed.

(** A header comes back from its field, unless it has a double quote and
    neither a comma nor a line feed: then it is written with its quotes
    doubled and no quotes around it. *)
Lemma csvUnescape_escapeCsv (v : jsstring) :
  dquote ∉ v \/ cu "," ∈ v \/ LF ∈ v -> csvUnescape (escapeCsv (Some v)) = v.
Proof.
  intros Hv. unfold escapeCsv. destruct v as [|c v]; [reflexivity|]. cbn [truthy negb].
  destruct (includes _ (js ",") || includes _ [LF]) eqn:Esep; [apply csvUnescape_quoted|].
  apply orb_false_iff in Esep as [Hcomma%includes_unit_false Hlf%includes_unit_false].
  destruct Hv as [Hquote | [Hin | Hin]].
  - rewrite replaceAll_none by exact Hquote. unfold csvUnescape.
    apply not_elem_of_cons in Hquote as [Hc _]. apply not_eq_sym, N.eqb_neq in Hc.
    now rewrite Hc.
  - exfalso. apply Hcomma. apply includes_unit, includes_replaceAll;
      [vm_compute; congruence | now apply includes_unit].
  - exfalso. apply Hlf. apply includes_unit, includes_replaceAll;
      [vm_compute; congruence | now apply includes_unit].
Qed.

(** X20: the CSV report reads back. When the [anonymizedIp] and the
    [country], [region] and [city] of the events, which [buildCsv] writes
    as they are, have no comma, line feed or double quote, a reader that
    ends a field at a comma and a record at a line feed outside double
    quotes finds the line of the column names and one record of eight
    fields for each event, the fields [buildCsv] wrote. The standard rule
    then gives a header back from its field, unless the header has a double
    quote and neither a comma nor a line feed. *)
Theorem csv_reads_back (meta : PixelMeta) (events : list PixelEvent) :
  Forall plainColumns events ->
  csvRead false (buildCsv meta events) = csvHeaders :: map csvRow events
  /\ Forall (fun row => length row = 8%nat) (csvRead false (buildCsv meta events))
  /\ forall v, dquote ∉ v \/ cu "," ∈ v \/ LF ∈ v -> csvUnescape (escapeCsv (Some v)) = v.
Proof.
  intros Hplain.
  assert (Hread : csvRead false (buildCsv meta events) = csvHeaders :: map csvRow events).
  { unfold buildCsv. rewrite <- (map_map csvRow (join (js ","))).
    apply (csvRead_lines csvHeaders (map csvRow events)). constructor.
    - split; [discriminate|]. repeat constructor.
    - apply Forall_fmap. eapply Forall_impl; [exact Hplain|].
      intros e (Hip & Hcountry & Hregion & Hcity). cbn [compose]. split; [discriminate|].
      unfold csvRow. repeat constructor;
        try apply escapeCsv_closed; try (now apply plain_closed).
      apply plain_closed, toISOString_plain. }
  split; [exact Hread|]. split; [|exact csvUnescape_escapeCsv].
  rewrite Hread. constructor; [reflexivity|].
  apply Forall_fmap, Forall_true. reflexivity.
Qed.

Lemma csv_reads_back_witness :
  csvRead false (buildCsv createdMeta [commaEvent; buildEventRecord testPlatform pixelRequest])
  = [csvHeaders; csvRow commaEvent; csvRow (buildEventRecord testPlatform pixelRequest)].
Proof.
  apply (csv_reads_back createdMeta [commaEvent; buildEventRecord testPlatform pixelRequest]).
  repeat constructor; apply (bool_decide_unpack _); vm_compute; exact I.
Defined.

(** ** Where the records come from *)

(** What one request does to the event records of a pixel it opens. *)
Lemma fetch_event_step (p : Platform) (request : Request) (env : Env) (id key : jsstring)
    (e : PixelEvent) :
  wellFormed env ->
  startsWith key (eventKeyPrefix id) = true ->
  PIXIE_STORE (fst (fetch p request env)) !! key = Some (StoredEvent e) ->
  PIXIE_STORE env !! key = Some (StoredEvent e)
  \/ (isOpenOf id request = true /\ key = eventKey p id /\ e = buildEventRecord p request).
Proof.
  intros Hwf Hkey Hstored.
  assert (Hunder : records_under (eventKeyPrefix id) (fst (fetch p request env)) !! key
                   = Some (StoredEvent e)) by now apply records_under_lookup.
  destruct (isOpenOf id request) eqn:Eopen.
  - destruct (isOpenOf_true id request Eopen) as (Hmethod & Hpath & Hid).
    rewrite (fetch_open p request env Hmethod Hpath) in Hunder, Hstored.
    destruct (loadMeta env (pixelId request)) as [meta|] eqn:Hmeta.
    + destruct (servePixel_found p request env (bool_decide (method request = js "HEAD")) meta
                  Hmeta)
        as [_ Hrecords].
      rewrite Hid in Hrecords. rewrite Hrecords in Hunder.
      destruct (decide (key = eventKey p id)) as [->|Hne].
      * rewrite lookup_insert_eq in Hunder. injection Hunder as <-. now right.
      * rewrite lookup_insert_ne in Hunder by congruence.
        left. now apply records_under_lookup in Hunder.
    + rewrite servePixel_store, Hmeta in Hstored. now left.
  - rewrite (fetch_events_step p request env id Hwf Eopen) in Hunder.
    left. now apply records_under_lookup in Hunder.
Qed.

(** X21: where the events of a pixel come from. After any trace of requests
    served from a well formed store, an event kept under [events:<id>:]
    was kept there, under the same key, before the trace, or it is the
    event [buildEventRecord] makes of a request of the trace that is an
    open of this pixel, under the key of that open. *)
Theorem events_come_from_opens (id key : jsstring) (e : PixelEvent) (env : Env)
    (steps : list (Platform * Request)) :
  wellFormed env ->
  startsWith key (eventKeyPrefix id) = true ->
  PIXIE_STORE (serveAll env steps) !! key = Some (StoredEvent e) ->
  PIXIE_STORE env !! key = Some (StoredEvent e)
  \/ exists p request,
      (p, request) ∈ steps /\ isOpenOf id request = true
      /\ key = eventKey p id /\ e = buildEventRecord p request.
Proof.
  intros Hwf Hkey. revert env Hwf.
  induction steps as [|[p request] steps IH]; intros env Hwf Hstored; [now left|].
  cbn [serveAll foldl fst snd] in Hstored.
  destruct (IH _ (fetch_wellFormed p request env Hwf) Hstored)
    as [Hbefore | (p' & request' & Hin & Hopen & Hk & He)].
  - destruct (fetch_event_step p request env id key e Hwf Hkey Hbefore)
      as [Hold | (Hopen & Hk & He)]; [now left|].
    right. exists p, request. split; [left|]. now split.
  - right. exists p', request'. split; [now right|]. now split.
Qed.

Lemma events_come_from_opens_witness :
  exists p request,
    (p, request) ∈ [(testPlatform, pixelRequest)] /\ isOpenOf testId request = true
    /\ eventKey testPlatform testId = eventKey p testId
    /\ buildEventRecord testPlatform pixelRequest = buildEventRecord p request.
Proof.
  assert (Hwf : wellFormed createdEnv) by apply fetch_wellFormed, empty_wellFormed.
  assert (Hstored : PIXIE_STORE (serveAll createdEnv [(testPlatform, pixelRequest)])
                    !! eventKey testPlatform testId
                    = Some (StoredEvent (buildEventRecord testPlatform pixelRequest)))
    by (vm_compute; reflexivity).
  destruct (events_come_from_opens testId (eventKey testPlatform testId)
              (buildEventRecord testPlatform pixelRequest) createdEnv
              [(testPlatform, pixelRequest)] Hwf (eventKey_prefix testPlatform testId) Hstored)
    as [Hbefore | Hopen]; [|exact Hopen].
  vm_compute in Hbefore. discriminate Hbefore.
Defined.

Lemma sameCreation_refl (m : PixelMeta) : sameCreation m m.
Proof. repeat split. Qed.

Lemma sameCreation_counted (p : Platform) (m : PixelMeta) : sameCreation (countedMeta p m) m.
Proof. repeat split. Qed.

Lemma sameCreation_trans (m1 m2 m3 : PixelMeta) :
  sameCreation m1 m2 -> sameCreation m2 m3 -> sameCreation m1 m3.
Proof. unfold sameCreation. intuition congruence. Qed.

(** What one request does to the pixels of the store. *)
Lemma fetch_creation_step (p : Platform) (request : Request) (env : Env) (id : jsstring)
    (m : PixelMeta) :
  loadMeta (fst (fetch p request env)) id = Some m ->
  (exists before, loadMeta env id = Some before /\ sameCreation m before)
  \/ (createsId (API_KEY env) id (p, request) = true /\ m = freshMeta p request).
Proof.
  intros Hm. destruct (createsId (API_KEY env) id (p, request)) eqn:Ecreate.
  - right. split; [reflexivity|]. unfold createsId in Ecreate. cbn [fst snd] in Ecreate.
    apply andb_true_iff in Ecreate as [Ecreate Hid%bool_decide_eq_true_1].
    apply andb_true_iff in Ecreate as [Ecreate Hsent%bool_decide_eq_true_1].
    apply andb_true_iff in Ecreate as [Ecreate Hkey].
    apply andb_true_iff in Ecreate as [Hmethod%bool_decide_eq_true_1 Hpath%bool_decide_eq_true_1].
    rewrite (fetch_create p request env Hmethod Hpath) in Hm.
    rewrite (proj2 (validateApiKey_None request env)) in Hm
      by (split; [now destruct (API_KEY env) | exact Hsent]).
    rewrite createPixel_store, loadMeta_put_meta in Hm.
    destruct (decide _); congruence.
  - left. rewrite (fetch_meta_step p request env id Ecreate) in Hm.
    destruct (loadMeta env id) as [before|]; [|discriminate]. exists before.
    split; [reflexivity|]. cbn in Hm. injection Hm as <-.
    destruct (isOpenOf id request); [apply sameCreation_counted | apply sameCreation_refl].
Qed.

(** X22: where the pixels come from. After any trace of requests, a
    [PixelMeta] of the store is, but for its [openCount] and
    [lastOpenedAt], one the store had before the trace under the same id,
    or the one that a creation of the trace stored: a POST of
    [/api/pixels] that carried the API key of the worker. When the store
    was empty before the trace it is of such a creation. *)
Theorem pixels_come_from_creations (id : jsstring) (m : PixelMeta) (env : Env)
    (steps : list (Platform * Request)) :
  loadMeta (serveAll env steps) id = Some m ->
  let created :=
    exists p request,
      (p, request) ∈ steps /\ createsId (API_KEY env) id (p, request) = true
      /\ sameCreation m (freshMeta p request) in
  ((exists before, loadMeta env id = Some before /\ sameCreation m before) \/ created)
  /\ (PIXIE_STORE env = ∅ -> created).
Proof.
  intros Hm created.
  assert (Hmain : (exists before, loadMeta env id = Some before /\ sameCreation m before)
                  \/ created).
  { subst created. revert env Hm. induction steps as [|[p request] steps IH]; intros env Hm.
    - left. exists m. split; [exact Hm | apply sameCreation_refl].
    - cbn [serveAll foldl fst snd] in Hm.
      destruct (IH _ Hm) as [(m1 & Hm1 & Hsame) | (p' & request' & Hin & Hcreate & Hsame)].
      + destruct (fetch_creation_step p request env id m1 Hm1)
          as [(before & Hbefore & Hsame') | [Hcreate ->]].
        * left. exists before. split; [exact Hbefore|]. now apply (sameCreation_trans _ m1).
        * right. exists p, request. split; [left|]. now split.
      + right. exists p', request'. rewrite fetch_API_KEY in Hcreate.
        split; [now right|]. now split. }
  split; [exact Hmain|]. intros Hempty.
  destruct Hmain as [(before & Hbefore & _) | Hcreated]; [|exact Hcreated].
  unfold loadMeta in Hbefore. rewrite Hempty, lookup_empty in Hbefore. discriminate.
Qed.

Lemma pixels_come_from_creations_witness :
  exists p request,
    (p, request) ∈ [(testPlatform, createRequest); (testPlatform, pixelRequest)]
    /\ createsId (API_KEY testEnv) testId (p, request) = true
    /\ sameCreation openedMeta (freshMeta p request).
Proof.
  apply (pixels_come_from_creations testId openedMeta testEnv
           [(testPlatform, createRequest); (testPlatform, pixelRequest)] openedMeta_loaded).
  reflexivity.
Defined.
